(** * WZ-Risk API: the scoring and ranking core of [app.py]

    A shallow embedding of the risk model of [src/wzrisk-api/app.py]
    ([clamp], [years_since], [calc_score], the three scoring endpoints and
    the environment-driven configuration) together with the properties the
    specification states about it.

    Python's [float] is IEEE 754 binary64; it is modelled by Rocq's primitive
    [float], whose operations are the same binary64 operations (round to
    nearest, ties to even).  Concrete runs are evaluated on that type, and
    general statements go through its specification [SpecFloat]. *)

From Stdlib Require Import ZArith List Bool Lia String Ascii Floats.
From Stdlib Require Import Permutation Sorted.
Import ListNotations.

Set Warnings "-inexact-float".

Local Open Scope Z_scope.

(* ================================================================== *)
(** * Python runtime values used by the module *)
(* ================================================================== *)

(** Exceptions the modelled code can raise. *)
Inductive PyExc : Type :=
| ValueError
| OverflowError
| KeyError
| ValidationError.

(** The outcome of a call: a value or a raised exception. *)
Inductive Result (A : Type) : Type :=
| Ok (a : A)
| Raise (e : PyExc).

Arguments Ok {A} a.
Arguments Raise {A} e.

Definition bind {A B : Type} (r : Result A) (k : A -> Result B) : Result B :=
  match r with
  | Ok a => k a
  | Raise e => Raise e
  end.

Notation "x <- r ;; k" := (bind r (fun x => k))
  (at level 61, r at next level, right associativity).
Notation "' p <- r ;; k" := (bind r (fun p => k))
  (at level 61, p pattern, r at next level, right associativity).

(** ** Floats *)

(** [min(a, b)] and [max(a, b)] of two arguments: the builtin keeps the first
    argument unless the second compares strictly below (above) it. *)
Definition py_min (a b : float) : float := if (b <? a)%float then b else a.
Definition py_max (a b : float) : float := if (a <? b)%float then b else a.

(** [float(n)] for an [int] [n]: the nearest binary64 value. *)
Definition float_of_Z (n : Z) : float :=
  SF2Prim (binary_normalize prec emax n 0 false).

(** Rounding of the non-negative rational [n / d] to an integer, ties to the
    even neighbour. *)
Definition round_half_even (n d : Z) : Z :=
  let q := n / d in
  let r := n mod d in
  match 2 * r ?= d with
  | Lt => q
  | Gt => q + 1
  | Eq => if Z.even q then q else q + 1
  end.

(** The magnitude [m * 2^e] scaled by [10^digits] and rounded to an integer,
    ties to even: the decimal digits Python prints or rounds to. *)
Definition scaled_decimal (digits : nat) (m : positive) (e : Z) : Z :=
  let p := 10 ^ Z.of_nat digits in
  if 0 <=? e then Zpos m * 2 ^ e * p
  else round_half_even (Zpos m * p) (2 ^ (- e)).

(** [round(x, 2)] on a float: the decimal rounding of the exact binary value
    to two places, converted back to the nearest binary64 value. *)
Definition py_round2 (x : float) : float :=
  match Prim2SF x with
  | S754_finite s m e =>
      match scaled_decimal 2 m e with
      | Zpos n => SF2Prim (SF64div (S754_finite s n 0) (S754_finite false 100 0))
      | _ => SF2Prim (S754_zero s)
      end
  | _ => x
  end.

(** [int(x)] on a float: truncation towards zero; NaN and the infinities
    raise. *)
Definition py_int (x : float) : Result Z :=
  match Prim2SF x with
  | S754_nan => Raise ValueError
  | S754_infinity _ => Raise OverflowError
  | S754_zero _ => Ok 0
  | S754_finite s m e =>
      let t := if 0 <=? e then Zpos m * 2 ^ e else Zpos m / 2 ^ (- e) in
      Ok (if s then - t else t)
  end.

(** ** Strings and formatting *)

Local Open Scope string_scope.

Definition digit_char (d : Z) : ascii :=
  ascii_of_nat (48 + Z.to_nat d).

(** Decimal digits of a non-negative integer, most significant first. *)
Fixpoint digits_fuel (fuel : nat) (n : Z) (acc : string) : string :=
  match fuel with
  | O => acc
  | S fuel' =>
      let acc' := String (digit_char (n mod 10)%Z) acc in
      if (n <? 10)%Z then acc' else digits_fuel fuel' (n / 10)%Z acc'
  end.

Definition str_of_nonneg (n : Z) : string :=
  digits_fuel (S (Z.to_nat (Z.log2 n))) n "".

(** [str(n)] for an [int]. *)
Definition str_of_Z (n : Z) : string :=
  if (n <? 0)%Z then "-" ++ str_of_nonneg (- n)%Z else str_of_nonneg n.

Fixpoint zeros (k : nat) : string :=
  match k with
  | O => ""
  | S k' => String "0" (zeros k')
  end.

(** A digit string with a decimal point before its last [digits] characters,
    left-padded with zeros so that an integer part is always there. *)
Definition place_point (digits : nat) (s : string) : string :=
  let s' := zeros (S digits - String.length s) ++ s in
  let k := (String.length s' - digits)%nat in
  if Nat.eqb digits 0 then s'
  else substring 0 k s' ++ "." ++ substring k digits s'.

(** [format(x, '.<digits>f')]: fixed-point notation, correctly rounded. *)
Definition format_f (digits : nat) (x : float) : string :=
  match Prim2SF x with
  | S754_nan => "nan"
  | S754_infinity s => if s then "-inf" else "inf"
  | S754_zero s =>
      (if s then "-" else "") ++ place_point digits "0"
  | S754_finite s m e =>
      (if s then "-" else "")
        ++ place_point digits (str_of_nonneg (scaled_decimal digits m e))
  end.

(** [l.append(x)]. *)
Definition list_append {A : Type} (l : list A) (x : A) : list A :=
  List.app l [x].

(** [" ".join(parts)]. *)
Fixpoint join_space (parts : list string) : string :=
  match parts with
  | [] => ""
  | [p] => p
  | p :: rest => p ++ " " ++ join_space rest
  end.

(* ================================================================== *)
(** * Enums *)
(* ================================================================== *)

Inductive Crit : Type := baixa | media | alta | critica.

Inductive Exposure : Type := internet | interna | isolada.

(** The [.value] of a member. *)
Definition Crit_value (c : Crit) : string :=
  match c with
  | baixa => "baixa"
  | media => "media"
  | alta => "alta"
  | critica => "critica"
  end.

Definition Exposure_value (e : Exposure) : string :=
  match e with
  | internet => "internet"
  | interna => "interna"
  | isolada => "isolada"
  end.

(** [Crit(val)] and [Exposure(val)]: lookup of a member by value, which
    raises [ValueError] for a string that is no member's value. *)
Definition Crit_of_value (val : string) : Result Crit :=
  if String.eqb val "baixa" then Ok baixa
  else if String.eqb val "media" then Ok media
  else if String.eqb val "alta" then Ok alta
  else if String.eqb val "critica" then Ok critica
  else Raise ValueError.

Definition Exposure_of_value (val : string) : Result Exposure :=
  if String.eqb val "internet" then Ok internet
  else if String.eqb val "interna" then Ok interna
  else if String.eqb val "isolada" then Ok isolada
  else Raise ValueError.

(* ================================================================== *)
(** * Weights and configuration from the environment *)
(* ================================================================== *)

(** The module-level configuration, read once when the module is imported. *)
Record Config : Type := {
  W_CVSS : float;
  W_CRIT : float;
  W_EXPO : float;
  W_RECENCY : float;
  B_EXPLOIT : float;
  B_ACTIVE : float;
  DEFAULT_CRIT : Crit;
  DEFAULT_EXPO : Exposure
}.

Section Environment.

(** [os.getenv]: the process environment, [None] for an unset name. *)
Variable getenv : string -> option string.

(** The builtin [float] applied to a string: the parsed value, or
    [ValueError] for text that is not a float literal. *)
Variable float_of_str : string -> Result float.

(** [_env_float]: [os.getenv(name, default)] hands [default] itself to
    [float] when the name is unset; any exception yields [default]. *)
Definition _env_float (name : string) (default : float) : float :=
  let r :=
    match getenv name with
    | Some s => float_of_str s
    | None => Ok default
    end in
  match r with
  | Ok v => v
  | Raise _ => default
  end.

(** [_env_enum]. *)
Definition _env_enum {E : Type} (name : string)
    (enum_cls : string -> Result E) (default : E) : E :=
  match getenv name with
  | None => default
  | Some val =>
      match enum_cls val with
      | Ok v => v
      | Raise _ => default
      end
  end.

(** The module's globals [W_CVSS] ... [DEFAULT_EXPO]. *)
Definition load_config : Config := {|
  W_CVSS := _env_float "WZ_W_CVSS" 0.50;
  W_CRIT := _env_float "WZ_W_CRIT" 0.20;
  W_EXPO := _env_float "WZ_W_EXPO" 0.15;
  W_RECENCY := _env_float "WZ_W_RECENCY" 0.10;
  B_EXPLOIT := _env_float "WZ_B_EXPLOIT" 0.15;
  B_ACTIVE := _env_float "WZ_B_ACTIVE" 0.25;
  DEFAULT_CRIT := _env_enum "WZ_DEFAULT_CRIT" Crit_of_value media;
  DEFAULT_EXPO := _env_enum "WZ_DEFAULT_EXPO" Exposure_of_value interna
|}.

End Environment.

(** The configuration of a process started with no override. *)
Definition default_config : Config := {|
  W_CVSS := 0.50;
  W_CRIT := 0.20;
  W_EXPO := 0.15;
  W_RECENCY := 0.10;
  B_EXPLOIT := 0.15;
  B_ACTIVE := 0.25;
  DEFAULT_CRIT := media;
  DEFAULT_EXPO := interna
|}.

(* ================================================================== *)
(** * Schemas *)
(* ================================================================== *)

(** A [datetime] with its offset applied: the instant in microseconds since
    the epoch, UTC (the validator [force_tz] reads a naive value as UTC). *)
Definition datetime : Type := Z.

Record FindingIn : Type := {
  id : string;
  product : option string;
  host : option string;
  agent : option string;
  cvss : float;
  published : datetime;
  summary : option string;
  asset_criticality : option Crit;
  has_known_exploit : bool;
  is_actively_exploited : bool;
  exposure : option Exposure;
  years : option float
}.

(** The constraint [ge=0, le=10] of the field [cvss]. *)
Definition cvss_ok (x : float) : bool :=
  ((0 <=? x) && (x <=? 10))%float.

(** Construction of a [FindingIn] from field values: validation. *)
Definition validate_FindingIn (f : FindingIn) : Result FindingIn :=
  if cvss_ok (cvss f) then Ok f else Raise ValidationError.

Record FindingOut : Type := {
  out_id : string;
  out_product : option string;
  out_host : option string;
  out_agent : option string;
  out_cvss : float;
  out_published : datetime;
  out_summary : option string;
  out_has_known_exploit : bool;
  out_is_actively_exploited : bool;
  out_years : option float;
  out_asset_criticality : option Crit;
  out_exposure : option Exposure;
  risk_score : float;
  risk_level : string;
  explanation : string;
  work_order : option Z
}.

(** Assignment to the attribute [work_order]. *)
Definition set_work_order (o : FindingOut) (i : Z) : FindingOut := {|
  out_id := out_id o;
  out_product := out_product o;
  out_host := out_host o;
  out_agent := out_agent o;
  out_cvss := out_cvss o;
  out_published := out_published o;
  out_summary := out_summary o;
  out_has_known_exploit := out_has_known_exploit o;
  out_is_actively_exploited := out_is_actively_exploited o;
  out_years := out_years o;
  out_asset_criticality := out_asset_criticality o;
  out_exposure := out_exposure o;
  risk_score := risk_score o;
  risk_level := risk_level o;
  explanation := explanation o;
  work_order := Some i
|}.

(** The construction of a [FindingOut] from the input's [dict] without its
    two enum fields, the resolved enums and the results; [work_order] keeps
    its default [None].  The inherited constraint on [cvss] is validated
    again. *)
Definition make_FindingOut (inp : FindingIn) (crit_res : Crit)
    (expo_res : Exposure) (score : float) (lvl expl : string)
    : Result FindingOut :=
  if cvss_ok (cvss inp) then
    Ok {|
      out_id := id inp;
      out_product := product inp;
      out_host := host inp;
      out_agent := agent inp;
      out_cvss := cvss inp;
      out_published := published inp;
      out_summary := summary inp;
      out_has_known_exploit := has_known_exploit inp;
      out_is_actively_exploited := is_actively_exploited inp;
      out_years := years inp;
      out_asset_criticality := Some crit_res;
      out_exposure := Some expo_res;
      risk_score := score;
      risk_level := lvl;
      explanation := expl;
      work_order := None
    |}
  else Raise ValidationError.

(* ================================================================== *)
(** * Risk model *)
(* ================================================================== *)

Definition CRIT_WEIGHTS (c : Crit) : float :=
  match c with
  | baixa => 0.2
  | media => 0.5
  | alta => 0.8
  | critica => 1.0
  end.

Definition EXPO_WEIGHTS (e : Exposure) : float :=
  match e with
  | isolada => 0.2
  | interna => 0.6
  | internet => 1.0
  end.

Definition clamp_between (x lo hi : float) : float :=
  py_max lo (py_min hi x).

(** [clamp(x)] with the default bounds [lo=0.0], [hi=1.0]. *)
Definition clamp (x : float) : float := clamp_between x 0 1.

Definition microseconds_per_day : Z := 86400000000.

(** [years_since]: [delta.days] is the whole number of days of the
    difference, rounded towards minus infinity.  The clock reading
    [datetime.now(timezone.utc)] is the argument [now]. *)
Definition years_since (now pub : datetime) : float :=
  let delta := (now - pub)%Z in
  let days := (delta / microseconds_per_day)%Z in
  (float_of_Z days / 365.25)%float.

(** The outputs of [calc_score], in the order of its result tuple. *)
Record Scored : Type := {
  sc_score : float;
  sc_level : string;
  sc_explanation : string;
  sc_asset_crit : Crit;
  sc_exposure : Exposure
}.

Section RiskModel.

(** The module's globals. *)
Variable cfg : Config.

(** The evaluation instant, read by [years_since]. *)
Variable now : datetime.

(** [data.asset_criticality or DEFAULT_CRIT]: every member is a non-empty
    string, hence truthy, so only [None] takes the default. *)
Definition resolve_crit (data : FindingIn) : Crit :=
  match asset_criticality data with
  | Some c => c
  | None => DEFAULT_CRIT cfg
  end.

Definition resolve_expo (data : FindingIn) : Exposure :=
  match exposure data with
  | Some e => e
  | None => DEFAULT_EXPO cfg
  end.

(** The age [yrs] of the finding. *)
Definition age (data : FindingIn) : float :=
  match years data with
  | None => years_since now (published data)
  | Some y => py_max 0 y
  end.

Definition recency_factor (yrs : float) : float :=
  clamp (1 - clamp (yrs / 10))%float.

Definition recency_msg (yrs : float) : string :=
  if (yrs <=? 1)%float then
    "A vulnerabilidade é muito recente (~" ++ format_f 2 yrs ++ " ano)."
  else if (yrs <=? 3)%float then
    "Publicada há " ++ format_f 2 yrs ++ " anos (ainda recente)."
  else if (yrs <=? 10)%float then
    "Publicada há " ++ format_f 2 yrs ++ " anos (perde peso com a idade)."
  else
    "Antiga (~" ++ format_f 2 yrs ++ " anos), impacto por recência é baixo.".

(** The weighted sum with the two bonuses, before the final clamp. *)
Definition base_score (data : FindingIn) : float :=
  let cvss_n := clamp (cvss data / 10)%float in
  let crit_w := CRIT_WEIGHTS (resolve_crit data) in
  let expo_w := EXPO_WEIGHTS (resolve_expo data) in
  let base :=
    (W_CVSS cfg * cvss_n
     + W_CRIT cfg * crit_w
     + W_EXPO cfg * expo_w
     + W_RECENCY cfg * recency_factor (age data))%float in
  let base := if has_known_exploit data then (base + B_EXPLOIT cfg)%float else base in
  let base := if is_actively_exploited data then (base + B_ACTIVE cfg)%float else base in
  base.

Definition score_of (data : FindingIn) : float :=
  (clamp (base_score data) * 100)%float.

Definition level_of (score : float) : string :=
  if (90 <=? score)%float then "CRITICAL"
  else if (70 <=? score)%float then "HIGH"
  else if (40 <=? score)%float then "MEDIUM"
  else "LOW".

(** The sentence of a bonus: [int(bonus*100)] raises on NaN and on the
    infinities. *)
Definition bonus_sentence (before : string) (bonus : float) : Result string :=
  pts <- py_int (bonus * 100)%float ;;
  Ok (before ++ str_of_Z pts ++ " pontos base).").

Definition calc_score (data : FindingIn) : Result Scored :=
  let asset_crit := resolve_crit data in
  let exposure := resolve_expo data in
  let crit_w := CRIT_WEIGHTS asset_crit in
  let expo_w := EXPO_WEIGHTS exposure in
  let yrs := age data in
  let score := score_of data in
  let level := level_of score in
  let expl :=
    [ "CVSS informado: " ++ format_f 1 (cvss data)
        ++ " (peso " ++ format_f 2 (W_CVSS cfg) ++ ").";
      "Criticidade do ativo: " ++ Crit_value asset_crit
        ++ " (fator " ++ format_f 2 crit_w
        ++ ", peso " ++ format_f 2 (W_CRIT cfg) ++ ").";
      "Exposição: " ++ Exposure_value exposure
        ++ " (fator " ++ format_f 2 expo_w
        ++ ", peso " ++ format_f 2 (W_EXPO cfg) ++ ").";
      "Recência: " ++ recency_msg yrs
        ++ " (peso " ++ format_f 2 (W_RECENCY cfg) ++ ")." ] in
  expl <-
    (if has_known_exploit data then
       s <- bonus_sentence "Há exploit conhecido (+" (B_EXPLOIT cfg) ;;
       Ok (list_append expl s)
     else Ok expl) ;;
  expl <-
    (if is_actively_exploited data then
       s <- bonus_sentence "Exploração ativa em campo (+" (B_ACTIVE cfg) ;;
       Ok (list_append expl s)
     else Ok expl) ;;
  let expl :=
    list_append expl
      ("Score final: " ++ format_f 2 score ++ " → nível " ++ level ++ ".") in
  Ok {|
    sc_score := score;
    sc_level := level;
    sc_explanation := join_space expl;
    sc_asset_crit := asset_crit;
    sc_exposure := exposure
  |}.

(* -------------------------------------------------------------- *)
(** ** Endpoints *)

(** [POST /score]. *)
Definition score_endpoint (inp : FindingIn) : Result FindingOut :=
  r <- calc_score inp ;;
  make_FindingOut inp (sc_asset_crit r) (sc_exposure r)
    (py_round2 (sc_score r)) (sc_level r) (sc_explanation r).

End RiskModel.

(* ================================================================== *)
(** * Batch ranking *)
(* ================================================================== *)

(** The literal dict [{"CRITICAL": 0, "HIGH": 1, "MEDIUM": 2, "LOW": 3}]
    indexed by a level; a missing key raises [KeyError]. *)
Definition level_rank_of (lvl : string) : Result Z :=
  if String.eqb lvl "CRITICAL" then Ok 0%Z
  else if String.eqb lvl "HIGH" then Ok 1%Z
  else if String.eqb lvl "MEDIUM" then Ok 2%Z
  else if String.eqb lvl "LOW" then Ok 3%Z
  else Raise KeyError.

(** The first seven components of a tuple of [ranked]: the sort key. *)
Record RankKey : Type := {
  k_level_rank : Z;
  k_neg_score : float;
  k_neg_active : Z;
  k_neg_known : Z;
  k_neg_expo : float;
  k_neg_crit : float;
  k_idx : Z
}.

(** [a < b] on key tuples, as Python compares tuples: the first position
    whose items are not [==] decides by [<]; equal tuples are not below each
    other. *)
Definition key_lt (a b : RankKey) : bool :=
  if negb (k_level_rank a =? k_level_rank b)%Z then
    (k_level_rank a <? k_level_rank b)%Z
  else if negb (k_neg_score a =? k_neg_score b)%float then
    (k_neg_score a <? k_neg_score b)%float
  else if negb (k_neg_active a =? k_neg_active b)%Z then
    (k_neg_active a <? k_neg_active b)%Z
  else if negb (k_neg_known a =? k_neg_known b)%Z then
    (k_neg_known a <? k_neg_known b)%Z
  else if negb (k_neg_expo a =? k_neg_expo b)%float then
    (k_neg_expo a <? k_neg_expo b)%float
  else if negb (k_neg_crit a =? k_neg_crit b)%float then
    (k_neg_crit a <? k_neg_crit b)%float
  else if negb (k_idx a =? k_idx b)%Z then
    (k_idx a <? k_idx b)%Z
  else false.

Section Sorting.

Context {A : Type}.
Variable lt : A -> A -> bool.

(** [list.sort] is stable and decides by [<] alone.  It is modelled by the
    stable insertion sort: an element moves past those strictly below
    it, and stays before the ones it ties with. *)
Fixpoint insert_stable (x : A) (l : list A) : list A :=
  match l with
  | [] => [x]
  | y :: l' => if lt y x then y :: insert_stable x l' else x :: l
  end.

Definition sort_stable (l : list A) : list A :=
  fold_right insert_stable [] l.

End Sorting.

(** [enumerate(l, start)]. *)
Fixpoint enumerate {A : Type} (start : Z) (l : list A) : list (Z * A) :=
  match l with
  | [] => []
  | x :: l' => (start, x) :: enumerate (start + 1)%Z l'
  end.

Section Batch.

Variable cfg : Config.
Variable now : datetime.

(** One turn of the loop of [score_batch]: the tuple appended to
    [ranked]. *)
Definition rank_entry (idx : Z) (item : FindingIn)
    : Result (RankKey * FindingOut) :=
  r <- calc_score cfg now item ;;
  level_rank <- level_rank_of (sc_level r) ;;
  let expo_w := EXPO_WEIGHTS (sc_exposure r) in
  let crit_w := CRIT_WEIGHTS (sc_asset_crit r) in
  let active := if is_actively_exploited item then 1%Z else 0%Z in
  let known := if has_known_exploit item then 1%Z else 0%Z in
  res <- make_FindingOut item (sc_asset_crit r) (sc_exposure r)
           (py_round2 (sc_score r)) (sc_level r) (sc_explanation r) ;;
  Ok ({| k_level_rank := level_rank;
         k_neg_score := (- sc_score r)%float;
         k_neg_active := (- active)%Z;
         k_neg_known := (- known)%Z;
         k_neg_expo := (- expo_w)%float;
         k_neg_crit := (- crit_w)%float;
         k_idx := idx |}, res).

(** The loop over [enumerate(payload.items)]; the first exception ends
    it.  Every turn is given the same clock reading [now] here;
    [rank_entries_at] takes one reading for each turn, as the code reads
    the clock in every call of [calc_score]. *)
Fixpoint rank_entries (items : list (Z * FindingIn))
    : Result (list (RankKey * FindingOut)) :=
  match items with
  | [] => Ok []
  | (idx, item) :: rest =>
      t <- rank_entry idx item ;;
      ts <- rank_entries rest ;;
      Ok (t :: ts)
  end.

Definition entry_lt (a b : RankKey * FindingOut) : bool :=
  key_lt (fst a) (fst b).

(** [POST /score/batch]. *)
Definition score_batch (items : list FindingIn) : Result (list FindingOut) :=
  ranked <- rank_entries (enumerate 0 items) ;;
  let ranked := sort_stable entry_lt ranked in
  let ordered := map snd ranked in
  Ok (map (fun io => set_work_order (snd io) (fst io)) (enumerate 1 ordered)).

End Batch.

(* ================================================================== *)
(** * The compatibility endpoint *)
(* ================================================================== *)

Record CVECheckIn : Type := {
  cve_id : string;
  cve_cvss : float;
  cve_published : datetime;
  cve_summary : option string;
  cve_product : option string;
  cve_host : option string;
  cve_agent : option string;
  cve_has_known_exploit : bool;
  cve_is_actively_exploited : bool;
  cve_asset_criticality : option Crit;
  cve_exposure : option Exposure;
  cve_years : option float
}.

(** The [dict] of a [CVECheckIn] read as the fields of a [FindingIn]: each
    field by its name. *)
Definition CVECheckIn_fields (inp : CVECheckIn) : FindingIn := {|
  id := cve_id inp;
  product := cve_product inp;
  host := cve_host inp;
  agent := cve_agent inp;
  cvss := cve_cvss inp;
  published := cve_published inp;
  summary := cve_summary inp;
  asset_criticality := cve_asset_criticality inp;
  has_known_exploit := cve_has_known_exploit inp;
  is_actively_exploited := cve_is_actively_exploited inp;
  exposure := cve_exposure inp;
  years := cve_years inp
|}.

(** The construction of a [FindingIn] from that [dict], which validates
    it. *)
Definition FindingIn_of_CVECheckIn (inp : CVECheckIn) : Result FindingIn :=
  validate_FindingIn (CVECheckIn_fields inp).

(** [POST /cve/check]. *)
Definition cve_check_endpoint (cfg : Config) (now : datetime)
    (inp : CVECheckIn) : Result FindingOut :=
  as_finding <- FindingIn_of_CVECheckIn inp ;;
  r <- calc_score cfg now as_finding ;;
  make_FindingOut as_finding (sc_asset_crit r) (sc_exposure r)
    (py_round2 (sc_score r)) (sc_level r) (sc_explanation r).

(* ================================================================== *)
(** * The configuration endpoint *)
(* ================================================================== *)

(** A JSON value of the kinds [/config] returns. *)
Inductive JSON : Type :=
| JString (s : string)
| JNumber (x : float).

(** [GET /config]: the dict of the effective configuration, in the order of
    its literal. *)
Definition config (cfg : Config) : list (string * JSON) :=
  [ ("DEFAULT_CRIT", JString (Crit_value (DEFAULT_CRIT cfg)));
    ("DEFAULT_EXPO", JString (Exposure_value (DEFAULT_EXPO cfg)));
    ("W_CVSS", JNumber (W_CVSS cfg));
    ("W_CRIT", JNumber (W_CRIT cfg));
    ("W_EXPO", JNumber (W_EXPO cfg));
    ("W_RECENCY", JNumber (W_RECENCY cfg));
    ("B_EXPLOIT", JNumber (B_EXPLOIT cfg));
    ("B_ACTIVE", JNumber (B_ACTIVE cfg)) ]%string.

(* ================================================================== *)
(** * Dates as the schemas receive them *)
(* ================================================================== *)

(** A [datetime] as Python holds it: the wall-clock reading in microseconds
    and, for an aware value, the offset of its [tzinfo] from UTC; a naive
    value has none. *)
Record DateTime : Type := {
  dt_wall : Z;
  dt_utcoffset : option Z
}.

(** The validators [force_tz] and [force_tz2]:
    [v.replace(tzinfo=timezone.utc)] for a naive value. *)
Definition force_tz (v : DateTime) : DateTime :=
  match dt_utcoffset v with
  | None => {| dt_wall := dt_wall v; dt_utcoffset := Some 0 |}
  | Some _ => v
  end.

(** [a - b], in microseconds: two aware values are compared as instants,
    two naive ones as wall-clock readings, and one of each raises
    [TypeError], here [None]. *)
Definition datetime_sub (a b : DateTime) : option Z :=
  match dt_utcoffset a, dt_utcoffset b with
  | Some oa, Some ob => Some ((dt_wall a - oa) - (dt_wall b - ob))
  | None, None => Some (dt_wall a - dt_wall b)
  | _, _ => None
  end.

(** [datetime.now(timezone.utc)] at the instant [t]. *)
Definition utc_now (t : Z) : DateTime :=
  {| dt_wall := t; dt_utcoffset := Some 0 |}.

(** [years_since] on such values. *)
Definition years_since_dt (now : Z) (pub : DateTime) : option float :=
  match datetime_sub (utc_now now) pub with
  | Some delta =>
      Some (float_of_Z (delta / microseconds_per_day) / 365.25)%float
  | None => None
  end.

(* ================================================================== *)
(** * The batch with the clock read in every turn *)
(* ================================================================== *)

Section BatchClock.

Variable cfg : Config.

(** [clock idx] is the reading of [datetime.now] in the turn of the loop
    that scores the item at index [idx]: [calc_score] reads the clock
    anew for every item that has no [years].  In [score_batch cfg now]
    above all the readings are [now]. *)
Variable clock : Z -> datetime.

Fixpoint rank_entries_at (items : list (Z * FindingIn))
    : Result (list (RankKey * FindingOut)) :=
  match items with
  | [] => Ok []
  | (idx, item) :: rest =>
      t <- rank_entry cfg (clock idx) idx item ;;
      ts <- rank_entries_at rest ;;
      Ok (t :: ts)
  end.

(** [POST /score/batch]. *)
Definition score_batch_at (items : list FindingIn)
    : Result (list FindingOut) :=
  ranked <- rank_entries_at (enumerate 0 items) ;;
  let ranked := sort_stable entry_lt ranked in
  let ordered := map snd ranked in
  Ok (map (fun io => set_work_order (snd io) (fst io)) (enumerate 1 ordered)).

End BatchClock.

(* ================================================================== *)
(** * Notions used in the statements

    ** Binary64 values as integers

    A binary64 value is a whole number of units of [2^-1074]; infinity is
    given [2^2098] units, one more binade than the largest finite value. *)

Local Open Scope Z_scope.

Definition Uinf : Z := 2 ^ 2098.

Definition SF2Z (x : spec_float) : Z :=
  match x with
  | S754_zero _ => 0
  | S754_nan => 0
  | S754_infinity s => if s then - Uinf else Uinf
  | S754_finite s m e =>
      let u := Zpos m * 2 ^ (e + 1074) in if s then - u else u
  end.

Definition SFis_nan (x : spec_float) : bool :=
  match x with S754_nan => true | _ => false end.

Definition loc_of (N D : Z) : location :=
  if N mod D =? 0 then loc_Exact else loc_Inexact (2 * (N mod D) ?= D).

Definition rec_of (N D : Z) : shr_record :=
  shr_record_of_loc (N / D) (loc_of N D).

Definition sign_of (s : bool) : Z := if s then -1 else 1.

(** The binary64 value nearest to [N / D] units (ties to even), itself in
    units: below [2^53] units the spacing of the values is one unit, and it
    doubles with each further digit. *)
Definition rnU (N D : Z) : Z :=
  let k := Z.max 0 (Zdigits2 (N / D) - 53) in
  round_half_even N (2 ^ k * D) * 2 ^ k.

(** The same with overflow to infinity. *)
Definition RN (N D : Z) : Z := Z.min Uinf (rnU N D).

(** Non-negative values that are no NaN. *)
Definition SFnonneg (x : spec_float) : Prop :=
  SFis_nan x = false /\ 0 <= SF2Z x.

Definition SFfinite (x : spec_float) : bool :=
  match x with
  | S754_zero _ | S754_finite _ _ _ => true
  | _ => false
  end.

Definition SFsign (x : spec_float) : bool :=
  match x with
  | S754_zero s | S754_infinity s | S754_finite s _ _ => s
  | S754_nan => false
  end.

(** The value of a float in units of [2^-1074] ([Uinf] for infinity). *)
Definition ord (x : float) : Z := SF2Z (Prim2SF x).

(** Floats other than NaN. *)
Definition ordered (x : float) : Prop := SFis_nan (Prim2SF x) = false.

(** Finite floats. *)
Definition finite (x : float) : Prop := SFfinite (Prim2SF x) = true.

(** One, in units. *)
Definition U1 : Z := 2 ^ 1074.

(** Non-negative floats in order. *)
Definition le_nn (x y : float) : Prop :=
  ordered x /\ ordered y /\ 0 <= ord x <= ord y.

(** The rounded quotient by a positive float, as a function of the
    dividend's value. *)
Definition quotient_units (u d : Z) : Z :=
  if Z.abs u =? Uinf then u
  else Z.sgn u * RN (Z.abs u * 2 ^ 1074) d.

(** A float that is finite and not negative. *)
Definition nonneg_finite (x : float) : bool :=
  ((0 <=? x) && (x <? infinity))%float.

(** ** The score and the batch key *)

(** The score as a function of its four factors and the two flags. *)
Definition score_from (cfg : Config) (cvss_n crit_w expo_w rec : float)
    (known active : bool) : float :=
  let base :=
    (W_CVSS cfg * cvss_n + W_CRIT cfg * crit_w + W_EXPO cfg * expo_w
     + W_RECENCY cfg * rec)%float in
  let base := if known then (base + B_EXPLOIT cfg)%float else base in
  let base := if active then (base + B_ACTIVE cfg)%float else base in
  (clamp base * 100)%float.

(** The weights and bonuses of a configuration are finite and not
    negative. *)
Definition config_nonneg (cfg : Config) : bool :=
  nonneg_finite (W_CVSS cfg) && nonneg_finite (W_CRIT cfg)
  && nonneg_finite (W_EXPO cfg) && nonneg_finite (W_RECENCY cfg)
  && nonneg_finite (B_EXPLOIT cfg) && nonneg_finite (B_ACTIVE cfg).

(** The integers [start], [start + 1], ... *)
Fixpoint Zseq (start : Z) (len : nat) : list Z :=
  match len with
  | O => []
  | S len' => start :: Zseq (start + 1) len'
  end.

(** The floats of a key are no NaN. *)
Definition key_ok (k : RankKey) : Prop :=
  ordered (k_neg_score k) /\ ordered (k_neg_expo k) /\ ordered (k_neg_crit k).

(** The seven-key composite, as a lexicographic order: each component takes
    over when those before it are equal. *)
Definition lex_step (x y : Z) (rest : Prop) : Prop :=
  x < y \/ (x = y /\ rest).

Definition key_before (a b : RankKey) : Prop :=
  lex_step (k_level_rank a) (k_level_rank b)
    (lex_step (ord (k_neg_score a)) (ord (k_neg_score b))
      (lex_step (k_neg_active a) (k_neg_active b)
        (lex_step (k_neg_known a) (k_neg_known b)
          (lex_step (ord (k_neg_expo a)) (ord (k_neg_expo b))
            (lex_step (ord (k_neg_crit a)) (ord (k_neg_crit b))
              (k_idx a < k_idx b)))))).

(** The bonuses that a finding's flags bring into the explanation can be
    printed as points. *)
Definition bonus_points_ok (cfg : Config) (data : FindingIn) : Prop :=
  (has_known_exploit data = true -> finite (B_EXPLOIT cfg * 100)) /\
  (is_actively_exploited data = true -> finite (B_ACTIVE cfg * 100)).

(** The rank of a level in the batch order: never a [KeyError]. *)
Definition tier_rank (s : float) : Z :=
  if (90 <=? s)%float then 0
  else if (70 <=? s)%float then 1
  else if (40 <=? s)%float then 2
  else 3.

(** The key that [score_batch] builds for the item at position [idx]. *)
Definition key_of (cfg : Config) (now : datetime) (idx : Z) (item : FindingIn)
    : RankKey := {|
  k_level_rank := tier_rank (score_of cfg now item);
  k_neg_score := (- score_of cfg now item)%float;
  k_neg_active := - (if is_actively_exploited item then 1 else 0);
  k_neg_known := - (if has_known_exploit item then 1 else 0);
  k_neg_expo := (- EXPO_WEIGHTS (resolve_expo cfg item))%float;
  k_neg_crit := (- CRIT_WEIGHTS (resolve_crit cfg item))%float;
  k_idx := idx
|}.

Local Open Scope string_scope.

(** ** Findings, configurations and environments of the examples *)

(** A finding whose score lands just below 70: CVSS 6.9998 on a critical,
    internet-facing asset, ten years old, no exploit. *)
Definition finding_just_below_70 : FindingIn := {|
  id := "CVE-2014-0001";
  product := None;
  host := None;
  agent := None;
  cvss := 6.9998;
  published := 0;
  summary := Some "";
  asset_criticality := Some critica;
  has_known_exploit := false;
  is_actively_exploited := false;
  exposure := Some internet;
  years := Some 10%float
|}.

Local Open Scope Z_scope.

(** ** The batch *)

(** The list returned by [score_batch]: the results in sorted order, each
    with its position, counted from 1, as [work_order]. *)
Definition numbered (ordered_results : list FindingOut) : list FindingOut :=
  map (fun io => set_work_order (snd io) (fst io)) (enumerate 1 ordered_results).

Definition example_batch : list FindingIn :=
  [ finding_just_below_70;
    {| id := "CVE-2024-0002"; product := None; host := None; agent := None;
       cvss := 9.8; published := 0; summary := Some ""%string;
       asset_criticality := Some critica; has_known_exploit := true;
       is_actively_exploited := true; exposure := Some internet;
       years := Some 0%float |} ].

(** Two keys agree on everything but the input index. *)
Definition key_ties (a b : RankKey) : Prop :=
  k_level_rank a = k_level_rank b /\
  ord (k_neg_score a) = ord (k_neg_score b) /\
  k_neg_active a = k_neg_active b /\
  k_neg_known a = k_neg_known b /\
  ord (k_neg_expo a) = ord (k_neg_expo b) /\
  ord (k_neg_crit a) = ord (k_neg_crit b).

(** ** One attribute of a finding at a time *)

(** A finding with one attribute replaced. *)
Definition with_cvss (data : FindingIn) (c : float) : FindingIn := {|
  id := id data; product := product data; host := host data;
  agent := agent data; cvss := c; published := published data;
  summary := summary data; asset_criticality := asset_criticality data;
  has_known_exploit := has_known_exploit data;
  is_actively_exploited := is_actively_exploited data;
  exposure := exposure data; years := years data
|}.

Definition with_asset_criticality (data : FindingIn) (c : option Crit)
    : FindingIn := {|
  id := id data; product := product data; host := host data;
  agent := agent data; cvss := cvss data; published := published data;
  summary := summary data; asset_criticality := c;
  has_known_exploit := has_known_exploit data;
  is_actively_exploited := is_actively_exploited data;
  exposure := exposure data; years := years data
|}.

Definition with_exposure (data : FindingIn) (e : option Exposure)
    : FindingIn := {|
  id := id data; product := product data; host := host data;
  agent := agent data; cvss := cvss data; published := published data;
  summary := summary data; asset_criticality := asset_criticality data;
  has_known_exploit := has_known_exploit data;
  is_actively_exploited := is_actively_exploited data;
  exposure := e; years := years data
|}.

Definition with_years (data : FindingIn) (y : option float) : FindingIn := {|
  id := id data; product := product data; host := host data;
  agent := agent data; cvss := cvss data; published := published data;
  summary := summary data; asset_criticality := asset_criticality data;
  has_known_exploit := has_known_exploit data;
  is_actively_exploited := is_actively_exploited data;
  exposure := exposure data; years := y
|}.

Definition with_published (data : FindingIn) (p : datetime) : FindingIn := {|
  id := id data; product := product data; host := host data;
  agent := agent data; cvss := cvss data; published := p;
  summary := summary data; asset_criticality := asset_criticality data;
  has_known_exploit := has_known_exploit data;
  is_actively_exploited := is_actively_exploited data;
  exposure := exposure data; years := years data
|}.

Definition with_known_exploit (data : FindingIn) (b : bool) : FindingIn := {|
  id := id data; product := product data; host := host data;
  agent := agent data; cvss := cvss data; published := published data;
  summary := summary data; asset_criticality := asset_criticality data;
  has_known_exploit := b;
  is_actively_exploited := is_actively_exploited data;
  exposure := exposure data; years := years data
|}.

Definition with_actively_exploited (data : FindingIn) (b : bool)
    : FindingIn := {|
  id := id data; product := product data; host := host data;
  agent := agent data; cvss := cvss data; published := published data;
  summary := summary data; asset_criticality := asset_criticality data;
  has_known_exploit := has_known_exploit data;
  is_actively_exploited := b;
  exposure := exposure data; years := years data
|}.

(** The order of the tiers. *)
Definition Crit_level (c : Crit) : Z :=
  match c with baixa => 0 | media => 1 | alta => 2 | critica => 3 end.

Definition Exposure_level (e : Exposure) : Z :=
  match e with isolada => 0 | interna => 1 | internet => 2 end.

(** A configuration with a negative weight for CVSS, as the override
    [WZ_W_CVSS=-0.5] gives. *)
Definition config_negative_cvss_weight : Config := {|
  W_CVSS := (-0.5)%float;
  W_CRIT := 0.20;
  W_EXPO := 0.15;
  W_RECENCY := 0.10;
  B_EXPLOIT := 0.15;
  B_ACTIVE := 0.25;
  DEFAULT_CRIT := media;
  DEFAULT_EXPO := interna
|}.

Local Open Scope string_scope.

Definition critical_finding : FindingIn := {|
  id := "CVE-2024-0002";
  product := None;
  host := None;
  agent := None;
  cvss := 9.8;
  published := 1730000000000000;
  summary := Some "";
  asset_criticality := Some critica;
  has_known_exploit := true;
  is_actively_exploited := true;
  exposure := Some internet;
  years := None
|}.

(** An override that is set and that its reader rejects. *)
Definition rejected_override (getenv : string -> option string)
    (float_of_str : string -> Result float) (name : string) : Prop :=
  forall s, getenv name = Some s ->
    (exists e, float_of_str s = Raise e) /\
    (forall c, Crit_value c <> s) /\ (forall e, Exposure_value e <> s).

(** A reader for plain decimal literals (an optional sign, digits, and at
    most one point), the form the weights are written in.  It is an
    example of a reader to put for the parameter [float_of_str], and not
    the builtin [float]: that one also reads exponents, [nan], [inf],
    padding and underscores, which this one rejects, and it rounds a long
    literal once, where this one rounds the digits and then the
    quotient. *)
Definition digit_value (c : ascii) : option Z :=
  let n := nat_of_ascii c in
  if ((48 <=? n) && (n <=? 57))%nat then Some (Z.of_nat (n - 48)) else None.

Fixpoint read_decimal (s : string) (seen_point : bool) (mant scale : Z)
    (ndigits : nat) : option (Z * Z) :=
  match s with
  | EmptyString => if Nat.eqb ndigits 0 then None else Some (mant, scale)
  | String c rest =>
      if Ascii.eqb c "." then
        if seen_point then None else read_decimal rest true mant scale ndigits
      else
        match digit_value c with
        | Some d =>
            read_decimal rest seen_point (10 * mant + d)%Z
              (if seen_point then (10 * scale)%Z else scale) (S ndigits)
        | None => None
        end
  end.

Definition float_of_decimal_literal (s : string) : Result float :=
  let '(negative, body) :=
    match s with
    | String c rest =>
        if Ascii.eqb c "-" then (true, rest)
        else if Ascii.eqb c "+" then (false, rest)
        else (false, s)
    | EmptyString => (false, s)
    end in
  match read_decimal body false 0 1 0 with
  | Some (mant, scale) =>
      let v := (float_of_Z mant / float_of_Z scale)%float in
      Ok (if negative then (- v)%float else v)
  | None => Raise ValueError
  end.

(** An environment with two overrides that are not valid. *)
Definition example_environment (name : string) : option string :=
  if String.eqb name "WZ_W_CVSS" then Some "half"
  else if String.eqb name "WZ_DEFAULT_CRIT" then Some "urgent"
  else if String.eqb name "WZ_B_ACTIVE" then Some "0.3"
  else None.

Definition example_cve_check : CVECheckIn := {|
  cve_id := "CVE-2024-0002";
  cve_cvss := 9.8;
  cve_published := 1730000000000000;
  cve_summary := Some "";
  cve_product := None;
  cve_host := None;
  cve_agent := None;
  cve_has_known_exploit := true;
  cve_is_actively_exploited := true;
  cve_asset_criticality := Some critica;
  cve_exposure := Some internet;
  cve_years := None
|}.

Definition future_finding : FindingIn := {|
  id := "CVE-2031-0001";
  product := None;
  host := None;
  agent := None;
  cvss := 5;
  published := 1930000000000000;
  summary := Some "";
  asset_criticality := None;
  has_known_exploit := false;
  is_actively_exploited := false;
  exposure := None;
  years := None
|}.


Local Open Scope Z_scope.

(** ** The reported score and the ranking *)

(** The value in units, in hundredths, rounded to an integer: the digits
    of [round(x, 2)]. *)
Definition hundredths (u : Z) : Z := round_half_even (100 * u) U1.

(** Two results in the order of a ranking: the score does not go up, the
    tier does not get better. *)
Definition ranks_before (a b : FindingOut) : Prop :=
  (risk_score b <=? risk_score a)%float = true /\
  exists ra rb : Z,
    level_rank_of (risk_level a) = Ok ra /\
    level_rank_of (risk_level b) = Ok rb /\ ra <= rb.

(** Two findings that tie on the six keys before the input index. *)
Definition ties (cfg : Config) (now : datetime) (a b : FindingIn) : Prop :=
  key_ties (key_of cfg now 0 a) (key_of cfg now 0 b).

(** The order of two findings by those six keys. *)
Definition item_lt (cfg : Config) (now : datetime) (a b : FindingIn) : bool :=
  key_lt (key_of cfg now 0 a) (key_of cfg now 0 b).

(** The instant of a value, a naive one read as UTC. *)
Definition instant (v : DateTime) : datetime :=
  match dt_utcoffset v with
  | Some o => dt_wall v - o
  | None => dt_wall v
  end.

(** A configuration whose CVSS weight is NaN, as the override
    [WZ_W_CVSS=nan] gives. *)
Definition config_nan_cvss_weight : Config := {|
  W_CVSS := nan;
  W_CRIT := 0.20;
  W_EXPO := 0.15;
  W_RECENCY := 0.10;
  B_EXPLOIT := 0.15;
  B_ACTIVE := 0.25;
  DEFAULT_CRIT := media;
  DEFAULT_EXPO := interna
|}.

(** Two results that agree on every field but [work_order]. *)
Definition same_but_work_order (o s : FindingOut) : Prop :=
  out_id o = out_id s /\
  out_product o = out_product s /\
  out_host o = out_host s /\
  out_agent o = out_agent s /\
  out_cvss o = out_cvss s /\
  out_published o = out_published s /\
  out_summary o = out_summary s /\
  out_has_known_exploit o = out_has_known_exploit s /\
  out_is_actively_exploited o = out_is_actively_exploited s /\
  out_years o = out_years s /\
  out_asset_criticality o = out_asset_criticality s /\
  out_exposure o = out_exposure s /\
  risk_score o = risk_score s /\
  risk_level o = risk_level s /\
  explanation o = explanation s.
(* ================================================================== *)
(** * Binary64: order and rounding

    The order of binary64 values and the rounding of their operations,
    stated on integers.  A finite value [m * 2^e] is measured in units of
    [2^-1074], the smallest positive value, so that every finite value is an
    integer below [Uinf = 2^2098]; the infinities are [Uinf] and [- Uinf].
    The results of this part are derived from [SpecFloat], the definition
    of the operations that the primitive floats obey. *)
(* ================================================================== *)

Local Open Scope Z_scope.

Lemma digits2_pos_bounds (m : positive) :
  2 ^ (Zpos (digits2_pos m) - 1) <= Zpos m < 2 ^ (Zpos (digits2_pos m)).
Proof.
  induction m as [m IH | m IH | ]; cbn [digits2_pos].
  - rewrite Pos2Z.inj_succ.
    replace (Z.succ (Zpos (digits2_pos m)) - 1) with (Z.succ (Zpos (digits2_pos m) - 1)) by lia.
    rewrite !Z.pow_succ_r by lia. lia.
  - rewrite Pos2Z.inj_succ.
    replace (Z.succ (Zpos (digits2_pos m)) - 1) with (Z.succ (Zpos (digits2_pos m) - 1)) by lia.
    rewrite !Z.pow_succ_r by lia. lia.
  - cbn. lia.
Qed.

Lemma pow2_pos (k : Z) : 0 <= k -> 0 < 2 ^ k.
Proof. intros; apply Z.pow_pos_nonneg; lia. Qed.

Lemma pow2_le (a b : Z) : 0 <= a <= b -> 2 ^ a <= 2 ^ b.
Proof. intros; apply Z.pow_le_mono_r; lia. Qed.

Lemma pow2_lt (a b : Z) : 0 <= a < b -> 2 ^ a < 2 ^ b.
Proof. intros; apply Z.pow_lt_mono_r; lia. Qed.

(** A positive number has [d] digits exactly when it lies in [2^(d-1), 2^d). *)
Lemma digits2_pos_unique (m : positive) (d : Z) :
  2 ^ (d - 1) <= Zpos m < 2 ^ d -> Zpos (digits2_pos m) = d.
Proof.
  intros [Hlo Hhi].
  pose proof (digits2_pos_bounds m) as [Blo Bhi].
  assert (0 < d).
  { destruct (Z_lt_le_dec 0 d) as [|Hd]; [assumption|].
    destruct (Z.eq_dec d 0) as [->|]; [cbn in Hhi; lia|].
    rewrite (Z.pow_neg_r 2 d) in Hhi by lia. lia. }
  set (k := Zpos (digits2_pos m)) in *.
  assert (0 < k) by (subst k; lia).
  destruct (Z_lt_le_dec k d) as [Hlt|Hge].
  - assert (2 ^ k <= 2 ^ (d - 1)) by (apply pow2_le; lia). lia.
  - destruct (Z_lt_le_dec d k) as [Hlt'|]; [|lia].
    assert (2 ^ d <= 2 ^ (k - 1)) by (apply pow2_le; lia). lia.
Qed.

Lemma valid_finite_inv (s : bool) (m : positive) (e : Z) :
  valid_binary (S754_finite s m e) = true ->
  -1074 <= e <= 971 /\ Zpos m < 2 ^ 53 /\ (e = -1074 \/ 2 ^ 52 <= Zpos m).
Proof.
  cbn [SpecFloat.valid_binary]. unfold bounded, canonical_mantissa, fexp, SpecFloat.emin, emax, prec.
  intros H. apply andb_prop in H as [Hc He].
  apply Z.eqb_eq in Hc. apply Z.leb_le in He.
  pose proof (digits2_pos_bounds m) as [Blo Bhi].
  set (d := Zpos (digits2_pos m)) in *.
  assert (0 < d) by (subst d; lia).
  split; [lia|].
  destruct (Z_le_gt_dec (d + e - 53) (3 - 1024 - 53)) as [Hsub|Hnorm].
  - rewrite Z.max_r in Hc by lia.
    split; [|left; lia].
    assert (2 ^ d <= 2 ^ 53) by (apply pow2_le; lia). lia.
  - rewrite Z.max_l in Hc by lia.
    assert (d = 53) by lia.
    split; [|right].
    + replace 53 with d by lia. lia.
    + replace 52 with (d - 1) by lia. lia.
Qed.
Lemma U_lt_of_exp (m1 m2 : positive) (e1 e2 : Z) :
  -1074 <= e1 -> Zpos m1 < 2 ^ 53 -> 2 ^ 52 <= Zpos m2 -> e1 < e2 ->
  Zpos m1 * 2 ^ (e1 + 1074) < Zpos m2 * 2 ^ (e2 + 1074).
Proof.
  intros He1 Hm1 Hm2 Hlt.
  replace (e2 + 1074) with ((e1 + 1074) + (e2 - e1)) by lia.
  rewrite (Z.pow_add_r 2 (e1 + 1074) (e2 - e1)) by lia.
  assert (0 < 2 ^ (e1 + 1074)) by (apply pow2_pos; lia).
  assert (2 ^ 1 <= 2 ^ (e2 - e1)) by (apply pow2_le; lia).
  change (2 ^ 1) with 2 in *.
  change (2 ^ 53) with (2 * 2 ^ 52) in Hm1.
  set (a := 2 ^ (e1 + 1074)) in *. set (b := 2 ^ (e2 - e1)) in *.
  set (c := 2 ^ 52) in *.
  assert (Zpos m1 * a < 2 * c * a) by nia.
  assert (c * a <= Zpos m2 * a) by nia.
  assert (0 < Zpos m2 * a) by nia.
  assert (Zpos m2 * a * 2 <= Zpos m2 * a * b) by nia.
  lia.
Qed.

Lemma finite_U_bounds (s : bool) (m : positive) (e : Z) :
  valid_binary (S754_finite s m e) = true ->
  0 < Zpos m * 2 ^ (e + 1074) < Uinf.
Proof.
  intros H. apply valid_finite_inv in H as (He & Hm & _).
  assert (0 < 2 ^ (e + 1074)) by (apply pow2_pos; lia).
  assert (2 ^ (e + 1074) <= 2 ^ 2045) by (apply pow2_le; lia).
  split; [lia|].
  unfold Uinf. change (2 ^ 2098) with (2 ^ 53 * 2 ^ 2045).
  set (a := 2 ^ (e + 1074)) in *. set (b := 2 ^ 2045) in *. set (c := 2 ^ 53) in *.
  assert (0 < b) by (subst b; apply pow2_pos; lia).
  nia.
Qed.

Lemma compare_finite_U (m1 m2 : positive) (e1 e2 : Z) (s1 s2 : bool) :
  valid_binary (S754_finite s1 m1 e1) = true ->
  valid_binary (S754_finite s2 m2 e2) = true ->
  match e1 ?= e2 with
  | Lt => Lt
  | Gt => Gt
  | Eq => Pos.compare_cont Eq m1 m2
  end = (Zpos m1 * 2 ^ (e1 + 1074) ?= Zpos m2 * 2 ^ (e2 + 1074)).
Proof.
  intros V1 V2.
  apply valid_finite_inv in V1 as (He1 & Hm1 & Hn1).
  apply valid_finite_inv in V2 as (He2 & Hm2 & Hn2).
  destruct (Z.compare_spec e1 e2) as [Heq | Hlt | Hgt].
  - subst e2. change (Pos.compare_cont Eq m1 m2) with (Zpos m1 ?= Zpos m2).
    assert (0 < 2 ^ (e1 + 1074)) by (apply pow2_pos; lia).
    symmetry. destruct (Z.compare_spec (Zpos m1) (Zpos m2)).
    + apply Z.compare_eq_iff. congruence.
    + apply Z.compare_lt_iff. nia.
    + apply Z.compare_gt_iff. nia.
  - symmetry. apply Z.compare_lt_iff.
    apply U_lt_of_exp; lia.
  - symmetry. apply Z.compare_gt_iff.
    apply U_lt_of_exp; lia.
Qed.

Ltac solve_compare :=
  symmetry;
  first [ apply Z.compare_eq_iff; lia
        | apply Z.compare_lt_iff; lia
        | apply Z.compare_gt_iff; lia ].

Lemma Uinf_pos : 0 < Uinf.
Proof. unfold Uinf; apply pow2_pos; lia. Qed.

Lemma SFcompare_SF2Z (x y : spec_float) :
  valid_binary x = true -> valid_binary y = true ->
  SFis_nan x = false -> SFis_nan y = false ->
  SFcompare x y = Some (SF2Z x ?= SF2Z y).
Proof.
  intros Vx Vy Nx Ny.
  pose proof Uinf_pos as HU.
  destruct x as [sx | sx | | sx mx ex]; try discriminate;
  destruct y as [sy | sy | | sy my ey]; try discriminate;
  try (pose proof (finite_U_bounds _ _ _ Vx));
  try (pose proof (finite_U_bounds _ _ _ Vy));
  cbn [SFcompare SF2Z]; f_equal;
  try (destruct sx); try (destruct sy); try solve_compare.
  - rewrite Z.compare_opp.
    rewrite (Z.compare_antisym (Zpos mx * 2 ^ (ex + 1074)) (Zpos my * 2 ^ (ey + 1074))).
    rewrite <- (compare_finite_U _ _ _ _ _ _ Vx Vy).
    destruct (ex ?= ey); reflexivity.
  - apply (compare_finite_U _ _ _ _ _ _ Vx Vy).
Qed.

(** Truncation with a location *)

Lemma shr_1_nonneg (m : Z) (r s : bool) :
  0 <= m ->
  shr_1 (Build_shr_record m r s) = Build_shr_record (Z.div2 m) (Z.odd m) (r || s).
Proof.
  intros Hm. destruct m as [|[p|p|]|p]; try reflexivity; lia.
Qed.

Lemma shr_record_of_loc_eq (m : Z) (l : location) :
  shr_record_of_loc m l =
  Build_shr_record m
    (match l with loc_Inexact Eq | loc_Inexact Gt => true | _ => false end)
    (match l with loc_Inexact Lt | loc_Inexact Gt => true | _ => false end).
Proof. destruct l as [|[| |]]; reflexivity. Qed.

Lemma div_mod_double (N D : Z) :
  0 <= N -> 0 < D ->
  N / (2 * D) = N / D / 2 /\
  N mod (2 * D) = (N / D) mod 2 * D + N mod D.
Proof.
  intros HN HD.
  pose proof (Z.div_mod N D ltac:(lia)) as E.
  pose proof (Z.mod_pos_bound N D HD) as B.
  pose proof (Z.div_pos N D HN HD) as Q.
  set (q := N / D) in *. set (r := N mod D) in *.
  pose proof (Z.div_mod q 2 ltac:(lia)) as E2.
  pose proof (Z.mod_pos_bound q 2 ltac:(lia)) as B2.
  set (h := q / 2) in *. set (b := q mod 2) in *.
  assert (Hdiv : N / (2 * D) = h).
  { symmetry. apply (Z.div_unique N (2 * D) h (b * D + r)); nia. }
  split; [exact Hdiv|].
  pose proof (Z.div_mod N (2 * D) ltac:(lia)) as E3.
  rewrite Hdiv in E3. nia.
Qed.

Lemma shr_1_rec (N D : Z) :
  0 <= N -> 0 < D -> shr_1 (rec_of N D) = rec_of N (2 * D).
Proof.
  intros HN HD.
  destruct (div_mod_double N D HN HD) as [Hq Hr].
  pose proof (Z.mod_pos_bound N D HD) as B.
  pose proof (Z.div_pos N D HN HD) as Q.
  unfold rec_of, loc_of. rewrite Hq, Hr.
  set (q := N / D) in *. set (r := N mod D) in *.
  rewrite (shr_record_of_loc_eq q), shr_1_nonneg by assumption.
  rewrite shr_record_of_loc_eq.
  rewrite Z.div2_div, Zmod_odd.
  destruct (Z.odd q);
    destruct (Z.eqb_spec r 0) as [R0|R0];
    destruct (Z.compare_spec (2 * r) D) as [C|C|C];
    repeat match goal with
    | |- context [ (?a =? 0) ] => destruct (Z.eqb_spec a 0); try lia
    | |- context [ (?a ?= ?b) ] => destruct (Z.compare_spec a b); try lia
    end; reflexivity.
Qed.

Lemma pow2_xO (p : positive) : 2 ^ Zpos p~0 = 2 ^ Zpos p * 2 ^ Zpos p.
Proof.
  replace (Zpos p~0) with (Zpos p + Zpos p) by lia.
  apply Z.pow_add_r; lia.
Qed.

Lemma pow2_xI (p : positive) : 2 ^ Zpos p~1 = 2 ^ Zpos p * 2 ^ Zpos p * 2.
Proof.
  replace (Zpos p~1) with (Zpos p + Zpos p + 1) by lia.
  rewrite !Z.pow_add_r by lia. reflexivity.
Qed.

Lemma iter_shr_1_rec (p : positive) : forall N D : Z,
  0 <= N -> 0 < D ->
  iter_pos shr_1 p (rec_of N D) = rec_of N (2 ^ Zpos p * D).
Proof.
  induction p as [p IH | p IH | ]; intros N D HN HD; cbn [iter_pos].
  - rewrite shr_1_rec by assumption.
    assert (0 < 2 ^ Zpos p) by (apply pow2_pos; lia).
    rewrite IH by lia. rewrite IH by nia.
    f_equal. rewrite pow2_xI. ring.
  - assert (0 < 2 ^ Zpos p) by (apply pow2_pos; lia).
    rewrite IH by lia. rewrite IH by nia.
    f_equal. rewrite pow2_xO. ring.
  - rewrite shr_1_rec by assumption. reflexivity.
Qed.

Lemma shr_rec (N D e n : Z) :
  0 <= N -> 0 < D -> 0 <= n ->
  shr (rec_of N D) e n = (rec_of N (2 ^ n * D), e + n).
Proof.
  intros HN HD Hn. unfold shr.
  destruct n as [|p|p]; [| |lia].
  - rewrite Z.add_0_r. change (2 ^ 0) with 1. rewrite Z.mul_1_l. reflexivity.
  - rewrite iter_shr_1_rec by assumption. reflexivity.
Qed.

Lemma shr_m_rec_of (N D : Z) : shr_m (rec_of N D) = N / D.
Proof. unfold rec_of. destruct (loc_of N D) as [|[| |]]; reflexivity. Qed.

Lemma loc_of_shr_record_rec_of (N D : Z) :
  loc_of_shr_record (rec_of N D) = loc_of N D.
Proof. unfold rec_of. destruct (loc_of N D) as [|[| |]]; reflexivity. Qed.

Lemma round_nearest_even_rec_of (N D : Z) :
  0 < D ->
  round_nearest_even (shr_m (rec_of N D)) (loc_of_shr_record (rec_of N D))
  = round_half_even N D.
Proof.
  intros HD. rewrite shr_m_rec_of, loc_of_shr_record_rec_of.
  unfold loc_of, round_half_even, round_nearest_even.
  pose proof (Z.mod_pos_bound N D HD) as B.
  destruct (Z.eqb_spec (N mod D) 0) as [R0|R0].
  - rewrite R0. change (2 * 0) with 0.
    destruct (Z.compare_spec 0 D); try lia; reflexivity.
  - destruct (2 * (N mod D) ?= D); reflexivity.
Qed.

(** The exact record of an integer. *)
Lemma rec_of_exact (m : Z) : rec_of m 1 = Build_shr_record m false false.
Proof.
  unfold rec_of, loc_of. rewrite Z.mod_1_r, Z.div_1_r. reflexivity.
Qed.

(** Digits of a non-negative integer. *)
Lemma Zdigits2_nonneg (m : Z) : 0 <= Zdigits2 m.
Proof. destruct m; cbn; lia. Qed.

Lemma Zdigits2_upper (m : Z) : 0 <= m -> m < 2 ^ Zdigits2 m.
Proof.
  intros H. destruct m as [|p|p]; [cbn; lia| |lia].
  cbn [Zdigits2]. apply digits2_pos_bounds.
Qed.

Lemma Zdigits2_lower (m : Z) : 0 < m -> 2 ^ (Zdigits2 m - 1) <= m.
Proof.
  intros H. destruct m as [|p|p]; [lia| |lia].
  cbn [Zdigits2]. apply digits2_pos_bounds.
Qed.

Lemma Zdigits2_pos (m : Z) : 0 < m -> 0 < Zdigits2 m.
Proof. destruct m; cbn; lia. Qed.

Lemma Zdigits2_unique (m d : Z) :
  0 < m -> 2 ^ (d - 1) <= m < 2 ^ d -> Zdigits2 m = d.
Proof.
  intros H B. destruct m as [|p|p]; [lia| |lia].
  cbn [Zdigits2]. now apply digits2_pos_unique.
Qed.

Lemma Zdigits2_le (a b : Z) : 0 <= a <= b -> Zdigits2 a <= Zdigits2 b.
Proof.
  intros [Ha Hab].
  destruct (Z.eq_dec a 0) as [->|Hne]; [apply Zdigits2_nonneg|].
  pose proof (Zdigits2_lower a ltac:(lia)).
  pose proof (Zdigits2_upper b ltac:(lia)).
  pose proof (Zdigits2_pos a ltac:(lia)).
  destruct (Z_le_gt_dec (Zdigits2 a) (Zdigits2 b)) as [|Hgt]; [assumption|].
  pose proof (Zdigits2_nonneg b).
  assert (2 ^ Zdigits2 b <= 2 ^ (Zdigits2 a - 1)) by (apply pow2_le; lia).
  lia.
Qed.

(** Characterisation of rounding to the nearest integer, ties to even. *)
Lemma round_half_even_spec (N D : Z) :
  0 < D ->
  let a := round_half_even N D in
  2 * D * a - D <= 2 * N <= 2 * D * a + D /\
  (2 * N = 2 * D * a - D -> Z.even a = true) /\
  (2 * N = 2 * D * a + D -> Z.even a = true).
Proof.
  intros HD. unfold round_half_even.
  pose proof (Z.div_mod N D ltac:(lia)) as E.
  pose proof (Z.mod_pos_bound N D HD) as B.
  set (q := N / D) in *. set (r := N mod D) in *.
  destruct (Z.compare_spec (2 * r) D) as [C|C|C]; cbn zeta.
  - destruct (Z.even q) eqn:Ev.
    + split; [nia|]. split; intros Hc; [exfalso; nia | exact Ev].
    + split; [nia|]. split; intros Hc; [|exfalso; nia].
      rewrite Z.even_add, Ev. reflexivity.
  - split; [nia|]. split; intros Hc; exfalso; nia.
  - split; [nia|]. split; intros Hc; exfalso; nia.
Qed.

Lemma fexp64 (x : Z) : fexp prec emax x = Z.max (x - 53) (-1074).
Proof. reflexivity. Qed.

Lemma round_half_even_bounds (N D : Z) :
  0 < D -> N / D <= round_half_even N D <= N / D + 1.
Proof.
  intros HD. unfold round_half_even.
  destruct (2 * (N mod D) ?= D); [destruct (Z.even (N / D))| |]; lia.
Qed.

(** The last step of [binary_round_aux]: the carry of the rounding and the
    test for overflow. *)
Lemma round_aux_final (sx : bool) (m1 e1 : Z) :
  0 <= m1 <= 2 ^ 53 -> -1074 <= e1 ->
  (-1074 < e1 -> 2 ^ 52 <= m1) ->
  let '(mrs, e) := shr_fexp prec emax m1 e1 loc_Exact in
  let r :=
    match shr_m mrs with
    | Z0 => S754_zero sx
    | Zpos m => if e <=? emax - prec then S754_finite sx m e else S754_infinity sx
    | Zneg _ => S754_nan
    end in
  SFis_nan r = false /\
  valid_binary r = true /\
  SF2Z r = sign_of sx * Z.min Uinf (m1 * 2 ^ (e1 + 1074)).
Proof.
  intros Hm He Hnorm.
  unfold shr_fexp. rewrite fexp64.
  change (shr_record_of_loc m1 loc_Exact) with (Build_shr_record m1 false false).
  rewrite <- rec_of_exact.
  pose proof Uinf_pos as HU.
  assert (P0 : 0 < 2 ^ (e1 + 1074)) by (apply pow2_pos; lia).
  assert (P52 : 0 < 2 ^ 52) by (apply pow2_pos; lia).
  destruct (Z.eq_dec m1 0) as [->|Hnz].
  - cbn [Zdigits2]. unfold shr.
    destruct (Z.max (0 + e1 - 53) (-1074) - e1) eqn:Emax; try lia;
    rewrite shr_m_rec_of; change (0 / 1) with 0; cbn [SF2Z SFis_nan];
    (split; [reflexivity|split; [reflexivity|]]);
    rewrite Z.mul_0_l, Z.min_r by lia; lia.
  - pose proof (Zdigits2_upper m1 ltac:(lia)) as Hup.
    pose proof (Zdigits2_lower m1 ltac:(lia)) as Hlo.
    pose proof (Zdigits2_pos m1 ltac:(lia)) as Hdp.
    destruct (Z.eq_dec m1 (2 ^ 53)) as [E53|N53].
    + assert (Hd : Zdigits2 m1 = 54).
      { apply Zdigits2_unique; [lia|]. subst m1. split; [reflexivity|].
        apply pow2_lt; lia. }
      rewrite Hd.
      replace (Z.max (54 + e1 - 53) (-1074) - e1) with 1 by lia.
      rewrite shr_rec by lia. rewrite shr_m_rec_of.
      change (2 ^ 1 * 1) with 2. rewrite E53.
      change (2 ^ 53 / 2) with (Zpos (2 ^ 52)).
      change (emax - prec) with 971.
      destruct (Z.leb_spec (e1 + 1) 971) as [Hle|Hgt]; cbn [SFis_nan SF2Z].
      * split; [reflexivity|]. split.
        { cbn [SpecFloat.valid_binary]. unfold bounded, canonical_mantissa.
          rewrite fexp64. change (Zpos (digits2_pos (2 ^ 52))) with 53.
          change (emax - prec) with 971.
          apply andb_true_intro. split; [apply Z.eqb_eq|apply Z.leb_le]; lia. }
        replace (e1 + 1 + 1074) with ((e1 + 1074) + 1) by lia.
        rewrite (Z.pow_add_r 2 (e1 + 1074) 1) by lia. change (2 ^ 1) with 2.
        assert (2 ^ (e1 + 1074) <= 2 ^ 2044) by (apply pow2_le; lia).
        rewrite Z.min_r.
        -- change (Zpos (2 ^ 52)) with (2 ^ 52). change (2 ^ 53) with (2 ^ 52 * 2).
           destruct sx; unfold sign_of; ring.
        -- unfold Uinf. change (2 ^ 2098) with (2 ^ 53 * (2 ^ 2044 * 2)).
           assert (0 < 2 ^ 53) by (apply pow2_pos; lia).
           set (a := 2 ^ (e1 + 1074)) in *. set (b := 2 ^ 2044) in *.
           set (c := 2 ^ 53) in *. nia.
      * split; [reflexivity|]. split; [reflexivity|].
        assert (2 ^ 2045 <= 2 ^ (e1 + 1074)) by (apply pow2_le; lia).
        rewrite Z.min_l.
        -- destruct sx; unfold sign_of; lia.
        -- unfold Uinf. change (2 ^ 2098) with (2 ^ 53 * 2 ^ 2045).
           assert (0 < 2 ^ 53) by (apply pow2_pos; lia).
           set (a := 2 ^ (e1 + 1074)) in *. set (b := 2 ^ 2045) in *.
           set (c := 2 ^ 53) in *. nia.
    + assert (Hd : Zdigits2 m1 <= 53).
      { destruct (Z_le_gt_dec (Zdigits2 m1) 53) as [|Hgt]; [assumption|].
        assert (2 ^ 53 <= 2 ^ (Zdigits2 m1 - 1)) by (apply pow2_le; lia). lia. }
      assert (Hcan : Z.max (Zdigits2 m1 + e1 - 53) (-1074) = e1).
      { destruct (Z.eq_dec e1 (-1074)) as [->|Hne]; [lia|].
        specialize (Hnorm ltac:(lia)).
        assert (53 <= Zdigits2 m1); [|lia].
        change 53 with (Zdigits2 (2 ^ 52)). apply Zdigits2_le. lia. }
      rewrite Hcan, Z.sub_diag. unfold shr.
      rewrite shr_m_rec_of, Z.div_1_r.
      destruct m1 as [|p|p]; try lia.
      change (emax - prec) with 971.
      destruct (Z.leb_spec e1 971) as [Hle|Hgt]; cbn [SFis_nan SF2Z].
      * split; [reflexivity|]. split.
        { cbn [SpecFloat.valid_binary]. unfold bounded, canonical_mantissa.
          rewrite fexp64. cbn [Zdigits2] in Hcan. rewrite Hcan.
          change (emax - prec) with 971.
          apply andb_true_intro. split; [apply Z.eqb_eq|apply Z.leb_le]; lia. }
        assert (2 ^ (e1 + 1074) <= 2 ^ 2045) by (apply pow2_le; lia).
        rewrite Z.min_r.
        -- destruct sx; unfold sign_of; ring.
        -- unfold Uinf. change (2 ^ 2098) with (2 ^ 53 * 2 ^ 2045).
           set (a := 2 ^ (e1 + 1074)) in *. set (b := 2 ^ 2045) in *.
           set (c := 2 ^ 53) in *. nia.
      * split; [reflexivity|]. split; [reflexivity|].
        assert (2 ^ 2046 <= 2 ^ (e1 + 1074)) by (apply pow2_le; lia).
        rewrite Z.min_l.
        -- destruct sx; unfold sign_of; lia.
        -- unfold Uinf. change (2 ^ 2098) with (2 ^ 52 * 2 ^ 2046).
           specialize (Hnorm ltac:(lia)).
           set (a := 2 ^ (e1 + 1074)) in *. set (b := 2 ^ 2046) in *.
           set (c := 2 ^ 52) in *. nia.
Qed.

(** [binary_round_aux] on the truncation [(N / D, loc_of N D)] of the
    rational mantissa [N / D] at exponent [E]: the mantissa is rounded to
    the nearest integer at the exponent [fexp] chooses. *)
Lemma round_aux_spec (sx : bool) (N D E : Z) :
  0 <= N -> 0 < D ->
  E <= fexp prec emax (Zdigits2 (N / D) + E) ->
  let e1 := fexp prec emax (Zdigits2 (N / D) + E) in
  let m1 := round_half_even N (2 ^ (e1 - E) * D) in
  let r := binary_round_aux prec emax sx (N / D) E (loc_of N D) in
  SFis_nan r = false /\
  valid_binary r = true /\
  SF2Z r = sign_of sx * Z.min Uinf (m1 * 2 ^ (e1 + 1074)).
Proof.
  intros HN HD Hpre e1 m1.
  unfold binary_round_aux.
  change (shr_fexp prec emax (N / D) E (loc_of N D))
    with (shr (rec_of N D) E (e1 - E)).
  rewrite shr_rec by lia.
  replace (E + (e1 - E)) with e1 by lia.
  assert (P : 0 < 2 ^ (e1 - E)) by (apply pow2_pos; lia).
  rewrite round_nearest_even_rec_of by nia.
  fold m1.
  pose proof (Z.div_pos N D HN HD) as HM.
  pose proof (Zdigits2_upper (N / D) HM) as Hup.
  pose proof (Zdigits2_nonneg (N / D)) as Hdn.
  assert (He1 : e1 = Z.max (Zdigits2 (N / D) + E - 53) (-1074)) by reflexivity.
  assert (Hq : N / (2 ^ (e1 - E) * D) = N / D / 2 ^ (e1 - E)).
  { rewrite Z.mul_comm. symmetry. apply Z.div_div; lia. }
  pose proof (round_half_even_bounds N (2 ^ (e1 - E) * D) ltac:(nia)) as Hb.
  fold m1 in Hb. rewrite Hq in Hb.
  assert (Hq1 : 0 <= N / D / 2 ^ (e1 - E) < 2 ^ 53).
  { split; [apply Z.div_pos; lia|].
    apply Z.div_lt_upper_bound; [lia|].
    rewrite <- Z.pow_add_r by lia.
    assert (2 ^ Zdigits2 (N / D) <= 2 ^ (e1 - E + 53)) by (apply pow2_le; lia).
    lia. }
  assert (F := round_aux_final sx m1 e1).
  destruct (shr_fexp prec emax m1 e1 loc_Exact) as [mrs e].
  apply F.
  - lia.
  - lia.
  - intros Hn.
    assert (Hd : Zdigits2 (N / D) = 53 + (e1 - E)) by lia.
    assert (Hpos : 0 < N / D).
    { destruct (Z.eq_dec (N / D) 0) as [Z0|]; [|lia].
      exfalso. assert (Zdigits2 (N / D) = 0) by (rewrite Z0; reflexivity).
      lia. }
    pose proof (Zdigits2_lower (N / D) Hpos) as Hlo.
    assert (2 ^ 52 <= N / D / 2 ^ (e1 - E)); [|lia].
    apply Z.div_le_lower_bound; [lia|].
    rewrite <- Z.pow_add_r by lia.
    replace (e1 - E + 52) with (Zdigits2 (N / D) - 1) by lia. exact Hlo.
Qed.

(** ** Rounding to binary64, on rationals in units of [2^-1074] *)

Lemma round_half_even_mono (N1 D1 N2 D2 : Z) :
  0 < D1 -> 0 < D2 -> N1 * D2 <= N2 * D1 ->
  round_half_even N1 D1 <= round_half_even N2 D2.
Proof.
  intros H1 H2 Hle.
  destruct (round_half_even_spec N1 D1 H1) as (B1 & L1 & U1).
  destruct (round_half_even_spec N2 D2 H2) as (B2 & L2 & U2).
  set (a := round_half_even N1 D1) in *.
  set (b := round_half_even N2 D2) in *.
  destruct (Z_le_gt_dec a b) as [|Hgt]; [assumption|exfalso].
  assert (Ha : (2 * a - 1) * (D1 * D2) <= 2 * (N1 * D2)) by nia.
  assert (Hb : 2 * (N2 * D1) <= (2 * b + 1) * (D1 * D2)) by nia.
  assert (HD : 0 < D1 * D2) by nia.
  assert (Hab : a = b + 1) by nia.
  assert (E1 : 2 * N1 = 2 * D1 * a - D1) by nia.
  assert (E2 : 2 * N2 = 2 * D2 * b + D2) by nia.
  specialize (L1 E1). specialize (U2 E2).
  rewrite Hab, Z.even_add, U2 in L1. discriminate.
Qed.

Lemma round_half_even_ext (N1 D1 N2 D2 : Z) :
  0 < D1 -> 0 < D2 -> N1 * D2 = N2 * D1 ->
  round_half_even N1 D1 = round_half_even N2 D2.
Proof.
  intros H1 H2 E.
  apply Z.le_antisymm; apply round_half_even_mono; lia.
Qed.

Lemma round_half_even_int (a D : Z) :
  0 < D -> round_half_even (a * D) D = a.
Proof.
  intros HD. unfold round_half_even.
  rewrite Z.mod_mul, Z.div_mul by lia.
  change (2 * 0) with 0. destruct (Z.compare_spec 0 D); try lia; reflexivity.
Qed.

Lemma div_ext (N1 D1 N2 D2 : Z) :
  0 < D1 -> 0 < D2 -> N1 * D2 = N2 * D1 -> N1 / D1 = N2 / D2.
Proof.
  intros H1 H2 E.
  rewrite <- (Z.div_mul_cancel_r N1 D1 D2) by lia.
  rewrite E, (Z.mul_comm D1 D2).
  apply Z.div_mul_cancel_r; lia.
Qed.

Lemma div_mono_cross (N1 D1 N2 D2 : Z) :
  0 < D1 -> 0 < D2 -> N1 * D2 <= N2 * D1 -> N1 / D1 <= N2 / D2.
Proof.
  intros H1 H2 Hle.
  rewrite <- (Z.div_mul_cancel_r N1 D1 D2) by lia.
  rewrite <- (Z.div_mul_cancel_r N2 D2 D1) by lia.
  rewrite (Z.mul_comm D2 D1).
  apply Z.div_le_mono; nia.
Qed.

Lemma rnU_mono (N1 D1 N2 D2 : Z) :
  0 <= N1 -> 0 < D1 -> 0 < D2 -> N1 * D2 <= N2 * D1 ->
  rnU N1 D1 <= rnU N2 D2.
Proof.
  intros HN1 H1 H2 Hle. unfold rnU.
  assert (HN2 : 0 <= N2) by nia.
  pose proof (div_mono_cross _ _ _ _ H1 H2 Hle) as Hq.
  pose proof (Z.div_pos N1 D1 HN1 H1) as Hq1.
  pose proof (Zdigits2_le (N1 / D1) (N2 / D2) ltac:(lia)) as Hd.
  pose proof (Zdigits2_nonneg (N1 / D1)) as Hn1.
  set (q1 := N1 / D1) in *. set (q2 := N2 / D2) in *.
  set (k1 := Z.max 0 (Zdigits2 q1 - 53)).
  set (k2 := Z.max 0 (Zdigits2 q2 - 53)).
  assert (P1 : 0 < 2 ^ k1) by (apply pow2_pos; lia).
  assert (P2 : 0 < 2 ^ k2) by (apply pow2_pos; lia).
  destruct (Z.eq_dec k1 k2) as [Ek|Nk].
  - rewrite <- Ek.
    apply Z.mul_le_mono_nonneg_r; [lia|].
    apply round_half_even_mono; nia.
  - assert (Hk : k1 < k2) by lia.
    (* the first result is at most 2^(53+k1) *)
    assert (U1 : round_half_even N1 (2 ^ k1 * D1) <= 2 ^ 53).
    { pose proof (Zdigits2_upper q1 Hq1) as Hu.
      assert (Hp : 2 ^ Zdigits2 q1 <= 2 ^ (53 + k1)) by (apply pow2_le; lia).
      rewrite Z.pow_add_r in Hp by lia.
      assert (Hn : N1 < (q1 + 1) * D1).
      { pose proof (Z.div_mod N1 D1 ltac:(lia)).
        pose proof (Z.mod_pos_bound N1 D1 H1). subst q1. nia. }
      assert (PX : 0 < 2 ^ k1 * D1) by nia.
      rewrite <- (round_half_even_int (2 ^ 53) (2 ^ k1 * D1)) by exact PX.
      set (c53 := 2 ^ 53) in *. set (X := 2 ^ k1 * D1) in *.
      apply round_half_even_mono; [exact PX | exact PX |].
      apply Z.mul_le_mono_nonneg_r; [lia|].
      assert (q1 + 1 <= c53 * 2 ^ k1) by lia.
      assert ((q1 + 1) * D1 <= c53 * 2 ^ k1 * D1) by nia.
      subst X. lia. }
    (* the second one is at least 2^(52+k2) *)
    assert (L2 : 2 ^ 52 <= round_half_even N2 (2 ^ k2 * D2)).
    { assert (Hq2 : 0 < q2).
      { destruct (Z.eq_dec q2 0) as [Z0|]; [|lia].
        exfalso. assert (Zdigits2 q2 = 0) by (rewrite Z0; reflexivity). lia. }
      pose proof (Zdigits2_lower q2 Hq2) as Hl.
      replace (Zdigits2 q2 - 1) with (52 + k2) in Hl by lia.
      rewrite Z.pow_add_r in Hl by lia.
      assert (Hn : q2 * D2 <= N2).
      { pose proof (Z.div_mod N2 D2 ltac:(lia)).
        pose proof (Z.mod_pos_bound N2 D2 H2). subst q2. nia. }
      assert (PX : 0 < 2 ^ k2 * D2) by nia.
      rewrite <- (round_half_even_int (2 ^ 52) (2 ^ k2 * D2)) by exact PX.
      set (c52 := 2 ^ 52) in *. set (X := 2 ^ k2 * D2) in *.
      apply round_half_even_mono; [exact PX | exact PX |].
      apply Z.mul_le_mono_nonneg_r; [lia|].
      assert (c52 * 2 ^ k2 * D2 <= q2 * D2) by nia.
      subst X. lia. }
    assert (2 ^ (k1 + 1) <= 2 ^ k2) by (apply pow2_le; lia).
    rewrite Z.pow_add_r in H by lia. change (2 ^ 1) with 2 in H.
    change (2 ^ 53) with (2 ^ 52 * 2) in U1.
    assert (0 < 2 ^ 52) by (apply pow2_pos; lia).
    set (a := round_half_even N1 (2 ^ k1 * D1)) in *.
    set (b := round_half_even N2 (2 ^ k2 * D2)) in *.
    set (c := 2 ^ 52) in *. set (x := 2 ^ k1) in *. set (y := 2 ^ k2) in *.
    assert (a * x <= c * 2 * x) by nia.
    assert (c * (2 * x) <= c * y) by nia.
    assert (c * y <= b * y) by nia.
    lia.
Qed.

Lemma rnU_ext (N1 D1 N2 D2 : Z) :
  0 <= N1 -> 0 < D1 -> 0 < D2 -> N1 * D2 = N2 * D1 ->
  rnU N1 D1 = rnU N2 D2.
Proof.
  intros HN H1 H2 E.
  apply Z.le_antisymm; apply rnU_mono; nia.
Qed.

Lemma RN_mono (N1 D1 N2 D2 : Z) :
  0 <= N1 -> 0 < D1 -> 0 < D2 -> N1 * D2 <= N2 * D1 ->
  RN N1 D1 <= RN N2 D2.
Proof.
  intros. unfold RN. apply Z.min_le_compat_l. now apply rnU_mono.
Qed.

Lemma RN_ext (N1 D1 N2 D2 : Z) :
  0 <= N1 -> 0 < D1 -> 0 < D2 -> N1 * D2 = N2 * D1 ->
  RN N1 D1 = RN N2 D2.
Proof.
  intros. unfold RN. f_equal. now apply rnU_ext.
Qed.

Lemma Zdigits2_scaled (M t q : Z) :
  0 < M -> 0 <= t -> M * 2 ^ t <= q < (M + 1) * 2 ^ t ->
  Zdigits2 q = Zdigits2 M + t.
Proof.
  intros HM Ht [Hlo Hhi].
  pose proof (Zdigits2_lower M HM) as Hl.
  pose proof (Zdigits2_upper M ltac:(lia)) as Hu.
  pose proof (Zdigits2_pos M HM) as Hp.
  assert (P : 0 < 2 ^ t) by (apply pow2_pos; lia).
  apply Zdigits2_unique; [nia|].
  replace (Zdigits2 M + t - 1) with ((Zdigits2 M - 1) + t) by lia.
  rewrite !Z.pow_add_r by lia.
  split; nia.
Qed.

Lemma Zdigits2_shifted (M s : Z) :
  0 <= M -> 0 <= s ->
  Z.max 0 (Zdigits2 (M / 2 ^ s) - 53) = Z.max 0 (Zdigits2 M - s - 53).
Proof.
  intros HM Hs.
  assert (P : 0 < 2 ^ s) by (apply pow2_pos; lia).
  pose proof (Z.div_pos M (2 ^ s) HM P) as Hq.
  pose proof (Zdigits2_upper M HM) as Hu.
  pose proof (Zdigits2_nonneg M) as Hn.
  pose proof (Z.div_mod M (2 ^ s) ltac:(lia)) as E.
  pose proof (Z.mod_pos_bound M (2 ^ s) P) as B.
  destruct (Z.eq_dec (M / 2 ^ s) 0) as [Z0|Nz].
  - rewrite Z0. cbn [Zdigits2].
    assert (M < 2 ^ s) by nia.
    assert (Zdigits2 M <= s); [|lia].
    destruct (Z.eq_dec M 0) as [->|]; [cbn; lia|].
    pose proof (Zdigits2_lower M ltac:(lia)).
    destruct (Z_le_gt_dec (Zdigits2 M) s); [assumption|].
    assert (2 ^ s <= 2 ^ (Zdigits2 M - 1)) by (apply pow2_le; lia). lia.
  - assert (HM' : 0 < M) by nia.
    pose proof (Zdigits2_lower M HM') as Hl.
    assert (Hge : s + 1 <= Zdigits2 M).
    { destruct (Z_le_gt_dec (s + 1) (Zdigits2 M)); [assumption|].
      assert (2 ^ Zdigits2 M <= 2 ^ s) by (apply pow2_le; lia).
      assert (M < 2 ^ s) by lia.
      rewrite Z.div_small in Nz by lia. lia. }
    f_equal. f_equal.
    apply Zdigits2_unique; [lia|]. split.
    + apply Z.div_le_lower_bound; [lia|].
      rewrite Z.mul_comm, <- Z.pow_add_r by lia.
      replace (Zdigits2 M - s - 1 + s) with (Zdigits2 M - 1) by lia. exact Hl.
    + apply Z.div_lt_upper_bound; [lia|].
      rewrite <- Z.pow_add_r by lia.
      replace (s + (Zdigits2 M - s)) with (Zdigits2 M) by lia. exact Hu.
Qed.

(** [binary_round_aux] rounds the rational it is given to the nearest
    binary64 value: [N' / D'] is the rational [N / D * 2^E] in units of
    [2^-1074]. *)
Lemma round_aux_RN (sx : bool) (N D E N' D' : Z) :
  0 <= N -> 0 < D ->
  E <= fexp prec emax (Zdigits2 (N / D) + E) ->
  0 <= N' -> 0 < D' ->
  N' * D * 2 ^ Z.max 0 (- (E + 1074)) = N * D' * 2 ^ Z.max 0 (E + 1074) ->
  let r := binary_round_aux prec emax sx (N / D) E (loc_of N D) in
  SFis_nan r = false /\ valid_binary r = true /\
  SF2Z r = sign_of sx * RN N' D'.
Proof.
  intros HN HD Hpre HN' HD' Hrat r.
  destruct (round_aux_spec sx N D E HN HD Hpre) as (Hnan & Hvalid & Hval).
  fold r in Hnan, Hvalid, Hval. split; [exact Hnan|]. split; [exact Hvalid|].
  rewrite Hval. unfold RN. do 2 f_equal. unfold rnU.
  rewrite fexp64 in *.
  pose proof (Z.div_pos N D HN HD) as HM.
  pose proof (Zdigits2_nonneg (N / D)) as Hdn.
  pose proof (Z.div_mod N D ltac:(lia)) as EM.
  pose proof (Z.mod_pos_bound N D HD) as BM.
  remember (N / D) as M eqn:EqM.
  remember (Z.max (Zdigits2 M + E - 53) (-1074)) as e1 eqn:Eqe1.
  clearbody r.
  assert (Hk : Z.max 0 (Zdigits2 (N' / D') - 53) = e1 + 1074).
  { destruct (Z_le_gt_dec 0 (E + 1074)) as [Ht|Ht].
    - rewrite Z.max_l in Hrat by lia. rewrite Z.max_r in Hrat by lia.
      change (2 ^ 0) with 1 in Hrat. rewrite Z.mul_1_r in Hrat.
      assert (P : 0 < 2 ^ (E + 1074)) by (apply pow2_pos; lia).
      assert (Hq' : N' / D' = N * 2 ^ (E + 1074) / D).
      { apply div_ext; lia. }
      rewrite Hq'.
      destruct (Z.eq_dec M 0) as [M0|Mnz].
      + assert (E + 1074 = 0).
        { assert (Zdigits2 M = 0) by (rewrite M0; reflexivity). lia. }
        replace (E + 1074) with 0 in * by lia.
        change (2 ^ 0) with 1. rewrite Z.mul_1_r. rewrite <- EqM.
        assert (Zdigits2 M = 0) by (rewrite M0; reflexivity). lia.
      + rewrite (Zdigits2_scaled M (E + 1074)); try lia.
        split.
        * apply Z.div_le_lower_bound; [lia|]. nia.
        * apply Z.div_lt_upper_bound; [lia|]. nia.
    - rewrite Z.max_r in Hrat by lia. rewrite Z.max_l in Hrat by lia.
      change (2 ^ 0) with 1 in Hrat. rewrite Z.mul_1_r in Hrat.
      assert (P : 0 < 2 ^ (- (E + 1074))) by (apply pow2_pos; lia).
      assert (Hq' : N' / D' = M / 2 ^ (- (E + 1074))).
      { rewrite EqM. rewrite Z.div_div by lia. apply div_ext; nia. }
      rewrite Hq', Zdigits2_shifted by lia. lia. }
  rewrite Hk.
  assert (P1 : 0 < 2 ^ (e1 - E)) by (apply pow2_pos; lia).
  assert (P2 : 0 < 2 ^ (e1 + 1074)) by (apply pow2_pos; lia).
  f_equal.
  apply round_half_even_ext; try nia.
  destruct (Z_le_gt_dec 0 (E + 1074)) as [Ht|Ht].
  - rewrite Z.max_l in Hrat by lia. rewrite Z.max_r in Hrat by lia.
    change (2 ^ 0) with 1 in Hrat. rewrite Z.mul_1_r in Hrat.
    replace (e1 + 1074) with ((E + 1074) + (e1 - E)) by lia.
    rewrite (Z.pow_add_r 2 (E + 1074) (e1 - E)) by lia.
    set (a := 2 ^ (E + 1074)) in *. set (b := 2 ^ (e1 - E)) in *. nia.
  - rewrite Z.max_r in Hrat by lia. rewrite Z.max_l in Hrat by lia.
    change (2 ^ 0) with 1 in Hrat. rewrite Z.mul_1_r in Hrat.
    replace (e1 - E) with ((e1 + 1074) + - (E + 1074)) by lia.
    rewrite (Z.pow_add_r 2 (e1 + 1074) (- (E + 1074))) by lia.
    set (a := 2 ^ (e1 + 1074)) in *. set (b := 2 ^ (- (E + 1074))) in *. nia.
Qed.

Lemma loc_of_exact (M : Z) : loc_of M 1 = loc_Exact.
Proof. unfold loc_of. rewrite Z.mod_1_r. reflexivity. Qed.

Lemma round_aux_exact (sx : bool) (M E N' D' : Z) :
  0 <= M ->
  E <= fexp prec emax (Zdigits2 M + E) ->
  0 <= N' -> 0 < D' ->
  N' * 2 ^ Z.max 0 (- (E + 1074)) = M * D' * 2 ^ Z.max 0 (E + 1074) ->
  let r := binary_round_aux prec emax sx M E loc_Exact in
  SFis_nan r = false /\ valid_binary r = true /\
  SF2Z r = sign_of sx * RN N' D'.
Proof.
  intros HM Hpre HN' HD' Hrat.
  pose proof (round_aux_RN sx M 1 E N' D') as H.
  rewrite Z.div_1_r, loc_of_exact in H.
  apply H; try lia.
Qed.

Lemma Pos_iter_xO (d m : positive) :
  Zpos (Pos.iter xO m d) = Zpos m * 2 ^ Zpos d.
Proof.
  induction d as [|d IH] using Pos.peano_ind.
  - cbn. lia.
  - rewrite Pos.iter_succ, Pos2Z.inj_xO, IH, Pos2Z.inj_succ.
    rewrite Z.pow_succ_r by lia. ring.
Qed.

(** [shl_align] towards a smaller exponent keeps the value. *)
Lemma shl_align_spec (m : positive) (e e' : Z) :
  let '(m', e1) := shl_align m e e' in
  e1 = Z.min e e' /\ Zpos m' = Zpos m * 2 ^ (e - e1).
Proof.
  unfold shl_align.
  destruct (e' - e) as [|p|p] eqn:Ed.
  - split; [lia|]. rewrite Z.sub_diag. cbn. lia.
  - split; [lia|]. rewrite Z.sub_diag. cbn. lia.
  - split; [lia|]. rewrite Pos_iter_xO. f_equal. f_equal. lia.
Qed.

Lemma RN_0 (D : Z) : 0 < D -> RN 0 D = 0.
Proof.
  intros HD. unfold RN, rnU. rewrite Z.div_0_l by lia.
  cbn [Zdigits2]. rewrite Z.max_l by lia. change (2 ^ 0) with 1.
  unfold round_half_even. rewrite Z.mod_0_l, Z.div_0_l by lia.
  change (2 * 0) with 0. pose proof Uinf_pos.
  destruct (Z.compare_spec 0 (1 * D)); try lia; cbn; lia.
Qed.

Lemma RN_nonneg (N D : Z) : 0 <= N -> 0 < D -> 0 <= RN N D.
Proof.
  intros HN HD. rewrite <- (RN_0 D HD).
  apply RN_mono; nia.
Qed.

Lemma RN_le_Uinf (N D : Z) : RN N D <= Uinf.
Proof. unfold RN. apply Z.le_min_l. Qed.

(** [binary_round] of the integer [m] at exponent [e]. *)
Lemma binary_round_RN (sx : bool) (m : positive) (e : Z) :
  -1074 <= e ->
  let r := binary_round prec emax sx m e in
  SFis_nan r = false /\ valid_binary r = true /\
  SF2Z r = sign_of sx * RN (Zpos m * 2 ^ (e + 1074)) 1.
Proof.
  intros He. unfold binary_round.
  pose proof (shl_align_spec m e (fexp prec emax (Zpos (digits2_pos m) + e))) as Hs.
  destruct (shl_align m e (fexp prec emax (Zpos (digits2_pos m) + e))) as [mz ez].
  destruct Hs as [Hez Hmz].
  rewrite fexp64 in Hez.
  assert (P : 0 < 2 ^ (e - ez)) by (apply pow2_pos; lia).
  assert (Hdig : Zdigits2 (Zpos mz) = Zpos (digits2_pos m) + (e - ez)).
  { apply (Zdigits2_scaled (Zpos m)); lia. }
  apply round_aux_exact.
  - lia.
  - rewrite fexp64, Hdig. lia.
  - apply Z.mul_nonneg_nonneg; [lia|]. apply Z.lt_le_incl, pow2_pos; lia.
  - lia.
  - rewrite Z.max_l by lia. rewrite Z.max_r by lia.
    change (2 ^ 0) with 1. rewrite Hmz, !Z.mul_1_r.
    rewrite <- Z.mul_assoc, <- Z.pow_add_r by lia.
    f_equal. f_equal. lia.
Qed.

(** ** The operations on non-negative values *)

Lemma rnU_Uinf : rnU Uinf 1 = Uinf.
Proof. vm_compute. reflexivity. Qed.

Lemma RN_overflow (N D : Z) : 0 < D -> Uinf * D <= N -> RN N D = Uinf.
Proof.
  intros HD H. apply Z.le_antisymm; [apply RN_le_Uinf|].
  pose proof Uinf_pos.
  replace Uinf with (RN Uinf 1) at 1.
  - apply RN_mono; lia.
  - unfold RN. rewrite rnU_Uinf. apply Z.min_id.
Qed.

(** A binary64 value is its own rounding. *)
Lemma RN_exact (s : bool) (m : positive) (e : Z) :
  valid_binary (S754_finite s m e) = true ->
  RN (Zpos m * 2 ^ (e + 1074)) 1 = Zpos m * 2 ^ (e + 1074).
Proof.
  intros V. pose proof (finite_U_bounds _ _ _ V) as HU.
  apply valid_finite_inv in V as (He & Hm & Hn).
  assert (P : 0 < 2 ^ (e + 1074)) by (apply pow2_pos; lia).
  unfold RN. rewrite Z.min_r; [|].
  - unfold rnU. rewrite Z.div_1_r.
    rewrite (Zdigits2_scaled (Zpos m) (e + 1074)) by lia.
    pose proof (digits2_pos_bounds m) as [Blo Bhi].
    change (Zdigits2 (Zpos m)) with (Zpos (digits2_pos m)).
    set (d := Zpos (digits2_pos m)) in *.
    assert (Hd : d <= 53).
    { destruct (Z_le_gt_dec d 53); [assumption|].
      assert (2 ^ 53 <= 2 ^ (d - 1)) by (apply pow2_le; lia). lia. }
    destruct Hn as [->|Hn].
    + change (-1074 + 1074) with 0. rewrite Z.max_l by lia.
      change (2 ^ 0) with 1. rewrite !Z.mul_1_r.
      rewrite <- (Z.mul_1_r (Zpos m)) at 1.
      apply round_half_even_int. lia.
    + assert (d = 53).
      { assert (53 <= d); [|lia].
        destruct (Z_le_gt_dec 53 d); [assumption|].
        assert (2 ^ d <= 2 ^ 52) by (apply pow2_le; lia). lia. }
      replace (Z.max 0 (d + (e + 1074) - 53)) with (e + 1074) by lia.
      rewrite Z.mul_1_r. f_equal. apply round_half_even_int. lia.
  - (* the rounding itself, below infinity *)
    unfold rnU. rewrite Z.div_1_r.
    rewrite (Zdigits2_scaled (Zpos m) (e + 1074)) by lia.
    pose proof (digits2_pos_bounds m) as [Blo Bhi].
    change (Zdigits2 (Zpos m)) with (Zpos (digits2_pos m)).
    set (d := Zpos (digits2_pos m)) in *.
    assert (Hd : d <= 53).
    { destruct (Z_le_gt_dec d 53); [assumption|].
      assert (2 ^ 53 <= 2 ^ (d - 1)) by (apply pow2_le; lia). lia. }
    destruct Hn as [->|Hn].
    + change (-1074 + 1074) with 0 in *. rewrite Z.max_l by lia.
      change (2 ^ 0) with 1 in *. rewrite !Z.mul_1_r in *.
      rewrite <- (Z.mul_1_r (Zpos m)) at 1.
      rewrite round_half_even_int; lia.
    + assert (d = 53).
      { assert (53 <= d); [|lia].
        destruct (Z_le_gt_dec 53 d); [assumption|].
        assert (2 ^ d <= 2 ^ 52) by (apply pow2_le; lia). lia. }
      replace (Z.max 0 (d + (e + 1074) - 53)) with (e + 1074) by lia.
      rewrite Z.mul_1_r, round_half_even_int; lia.
Qed.

Lemma pow2_split (a b c d : Z) :
  0 <= a -> 0 <= b -> 0 <= c -> 0 <= d -> a + b = c + d ->
  2 ^ a * 2 ^ b = 2 ^ c * 2 ^ d.
Proof.
  intros. rewrite <- !Z.pow_add_r by lia. f_equal. assumption.
Qed.

Lemma SFmul_RN (x y : spec_float) :
  valid_binary x = true -> valid_binary y = true ->
  SFnonneg x -> SFnonneg y -> SFfinite x = true -> SFfinite y = true ->
  let r := SF64mul x y in
  SFis_nan r = false /\ valid_binary r = true /\
  SF2Z r = RN (SF2Z x * SF2Z y) (2 ^ 1074).
Proof.
  intros Vx Vy [Nx Px] [Ny Py] Fx Fy.
  assert (P : 0 < 2 ^ 1074) by (apply pow2_pos; lia).
  destruct x as [sx | sx | | sx mx ex]; try discriminate;
  destruct y as [sy | sy | | sy my ey]; try discriminate;
  unfold SF64mul; cbn [SFmul];
  try (cbn [SFis_nan SpecFloat.valid_binary SF2Z];
       rewrite ?Z.mul_0_l, ?Z.mul_0_r, RN_0 by lia; repeat split; reflexivity).
  pose proof (finite_U_bounds _ _ _ Vx) as Bx.
  pose proof (finite_U_bounds _ _ _ Vy) as By.
  cbn [SF2Z] in Px, Py |- *.
  destruct sx; [lia|]. destruct sy; [lia|]. cbn [xorb].
  apply valid_finite_inv in Vx as (Hex & Hmx & Hnx).
  apply valid_finite_inv in Vy as (Hey & Hmy & Hny).
  pose proof (round_aux_exact false (Zpos (mx * my)) (ex + ey)
                (Zpos mx * 2 ^ (ex + 1074) * (Zpos my * 2 ^ (ey + 1074)))
                (2 ^ 1074)) as H.
  cbn [sign_of] in H. rewrite Z.mul_1_l in H.
  apply H; clear H; try lia.
  - rewrite fexp64.
    destruct (Z_le_gt_dec (ex + ey) (-1074)) as [|Hgt]; [lia|].
    assert (2 ^ 52 <= Zpos (mx * my)).
    { rewrite Pos2Z.inj_mul. destruct Hnx as [->|Hnx]; destruct Hny as [->|Hny]; try lia; nia. }
    assert (53 <= Zdigits2 (Zpos (mx * my))); [|lia].
    change 53 with (Zdigits2 (2 ^ 52)). apply Zdigits2_le. lia.
  - rewrite Pos2Z.inj_mul.
    assert (Pa : 0 < 2 ^ (ex + 1074)) by (apply pow2_pos; lia).
    assert (Pb : 0 < 2 ^ (ey + 1074)) by (apply pow2_pos; lia).
    destruct (Z_le_gt_dec 0 (ex + ey + 1074)) as [Ht|Ht].
    + rewrite Z.max_l by lia. rewrite Z.max_r by lia.
      change (2 ^ 0) with 1.
      pose proof (pow2_split (ex + 1074) (ey + 1074) 1074 (ex + ey + 1074)
                    ltac:(lia) ltac:(lia) ltac:(lia) ltac:(lia) ltac:(lia)) as E.
      set (a := 2 ^ (ex + 1074)) in *. set (b := 2 ^ (ey + 1074)) in *.
      set (c := 2 ^ 1074) in *. set (d := 2 ^ (ex + ey + 1074)) in *.
      transitivity (Zpos mx * Zpos my * (a * b)); [ring|].
      rewrite E. ring.
    + rewrite Z.max_r by lia. rewrite Z.max_l by lia.
      change (2 ^ 0) with 1.
      assert (E : 2 ^ (ex + 1074) * 2 ^ (ey + 1074) * 2 ^ (- (ex + ey + 1074)) = 2 ^ 1074).
      { rewrite <- !Z.pow_add_r by lia. f_equal. lia. }
      set (a := 2 ^ (ex + 1074)) in *. set (b := 2 ^ (ey + 1074)) in *.
      set (c := 2 ^ 1074) in *. set (d := 2 ^ (- (ex + ey + 1074))) in *.
      transitivity (Zpos mx * Zpos my * (a * b * d)); [ring|].
      rewrite E. ring.
Qed.

(** The sum of two aligned mantissas, in units. *)
Lemma aligned_units (m : positive) (e ez : Z) :
  -1074 <= ez <= e ->
  Zpos (fst (shl_align m e ez)) * 2 ^ (ez + 1074) = Zpos m * 2 ^ (e + 1074).
Proof.
  intros H. pose proof (shl_align_spec m e ez) as Hs.
  destruct (shl_align m e ez) as [m' e1]. destruct Hs as [He1 Hm'].
  cbn [fst]. rewrite Hm', He1, Z.min_r by lia.
  rewrite <- Z.mul_assoc, <- Z.pow_add_r by lia.
  do 2 f_equal. lia.
Qed.

Lemma SFnonneg_finite_sign (s : bool) (m : positive) (e : Z) :
  SFnonneg (S754_finite s m e) -> valid_binary (S754_finite s m e) = true ->
  s = false.
Proof.
  intros [_ H] V. pose proof (finite_U_bounds _ _ _ V).
  cbn [SF2Z] in H. destruct s; [lia|reflexivity].
Qed.

Lemma SFnonneg_inf_sign (s : bool) : SFnonneg (S754_infinity s) -> s = false.
Proof.
  intros [_ H]. pose proof Uinf_pos. cbn [SF2Z] in H.
  destruct s; [lia|reflexivity].
Qed.

Lemma SFadd_RN (x y : spec_float) :
  valid_binary x = true -> valid_binary y = true ->
  SFnonneg x -> SFnonneg y ->
  let r := SF64add x y in
  SFis_nan r = false /\ valid_binary r = true /\
  SF2Z r = RN (SF2Z x + SF2Z y) 1.
Proof.
  intros Vx Vy Nx Ny.
  pose proof Uinf_pos as HU.
  destruct x as [sx | sx | | sx mx ex]; try (destruct Nx; discriminate);
  destruct y as [sy | sy | | sy my ey]; try (destruct Ny; discriminate);
  try (rewrite (SFnonneg_inf_sign sx Nx) in * );
  try (rewrite (SFnonneg_inf_sign sy Ny) in * );
  try (rewrite (SFnonneg_finite_sign sx mx ex Nx Vx) in * );
  try (rewrite (SFnonneg_finite_sign sy my ey Ny Vy) in * );
  try (pose proof (finite_U_bounds _ _ _ Vx) as Bx);
  try (pose proof (finite_U_bounds _ _ _ Vy) as By);
  unfold SF64add; cbn [SFadd].
  - (* zero + zero *)
    destruct sx, sy; cbn [SFis_nan SpecFloat.valid_binary SF2Z];
      rewrite RN_0 by lia; repeat split; reflexivity.
  - (* zero + infinity *)
    cbn [SFis_nan SpecFloat.valid_binary SF2Z].
    rewrite RN_overflow by lia. repeat split; reflexivity.
  - (* zero + finite *)
    split; [reflexivity|]. split; [exact Vy|].
    cbn [SF2Z]. rewrite Z.add_0_l. symmetry. apply (RN_exact false). exact Vy.
  - (* infinity + zero *)
    cbn [SFis_nan SpecFloat.valid_binary SF2Z].
    rewrite RN_overflow by lia. repeat split; reflexivity.
  - (* infinity + infinity *)
    cbn [SFis_nan SpecFloat.valid_binary SF2Z].
    rewrite RN_overflow by lia. repeat split; reflexivity.
  - (* infinity + finite *)
    cbn [SFis_nan SpecFloat.valid_binary SF2Z].
    rewrite RN_overflow by lia. repeat split; reflexivity.
  - (* finite + zero *)
    split; [reflexivity|]. split; [exact Vx|].
    cbn [SF2Z]. rewrite Z.add_0_r. symmetry. apply (RN_exact false). exact Vx.
  - (* finite + infinity *)
    cbn [SFis_nan SpecFloat.valid_binary SF2Z].
    rewrite RN_overflow by lia. repeat split; reflexivity.
  - (* finite + finite *)
    cbn [cond_Zopp SF2Z].
    apply valid_finite_inv in Vx as (Hex & _ & _).
    apply valid_finite_inv in Vy as (Hey & _ & _).
    pose proof (aligned_units mx ex (Z.min ex ey) ltac:(lia)) as Ax.
    pose proof (aligned_units my ey (Z.min ex ey) ltac:(lia)) as Ay.
    set (ez := Z.min ex ey) in *.
    set (ax := fst (shl_align mx ex ez)) in *.
    set (ay := fst (shl_align my ey ez)) in *.
    change (Zpos ax + Zpos ay) with (Zpos (ax + ay)).
    cbn [binary_normalize].
    pose proof (binary_round_RN false (ax + ay) ez ltac:(lia)) as H.
    cbn [sign_of] in H. rewrite Z.mul_1_l in H.
    rewrite Pos2Z.inj_add, Z.mul_add_distr_r, Ax, Ay in H. exact H.
Qed.

Lemma SFsub_RN (x y : spec_float) :
  valid_binary x = true -> valid_binary y = true ->
  SFnonneg x -> SFnonneg y -> SFfinite x = true -> SFfinite y = true ->
  SF2Z y <= SF2Z x ->
  let r := SF64sub x y in
  SFis_nan r = false /\ valid_binary r = true /\
  SF2Z r = RN (SF2Z x - SF2Z y) 1.
Proof.
  intros Vx Vy Nx Ny Fx Fy Hle.
  destruct x as [sx | sx | | sx mx ex]; try discriminate;
  destruct y as [sy | sy | | sy my ey]; try discriminate;
  try (rewrite (SFnonneg_finite_sign sx mx ex Nx Vx) in * );
  try (rewrite (SFnonneg_finite_sign sy my ey Ny Vy) in * );
  try (pose proof (finite_U_bounds _ _ _ Vx) as Bx);
  try (pose proof (finite_U_bounds _ _ _ Vy) as By);
  unfold SF64sub; cbn [SFsub].
  - destruct sx, sy; cbn [SFis_nan SpecFloat.valid_binary SF2Z];
      rewrite RN_0 by lia; repeat split; reflexivity.
  - cbn [SF2Z] in Hle. lia.
  - split; [reflexivity|]. split; [exact Vx|].
    cbn [SF2Z]. rewrite Z.sub_0_r. symmetry. apply (RN_exact false). exact Vx.
  - cbn [cond_Zopp SF2Z] in *.
    apply valid_finite_inv in Vx as (Hex & _ & _).
    apply valid_finite_inv in Vy as (Hey & _ & _).
    pose proof (aligned_units mx ex (Z.min ex ey) ltac:(lia)) as Ax.
    pose proof (aligned_units my ey (Z.min ex ey) ltac:(lia)) as Ay.
    set (ez := Z.min ex ey) in *.
    set (ax := fst (shl_align mx ex ez)) in *.
    set (ay := fst (shl_align my ey ez)) in *.
    assert (P : 0 < 2 ^ (ez + 1074)) by (apply pow2_pos; lia).
    rewrite <- Ax, <- Ay, <- Z.mul_sub_distr_r in *.
    destruct (Zpos ax - Zpos ay) as [|p|p] eqn:Ed.
    + cbn [binary_normalize SFis_nan SpecFloat.valid_binary SF2Z].
      rewrite Z.mul_0_l, RN_0 by lia. repeat split; reflexivity.
    + cbn [binary_normalize].
      pose proof (binary_round_RN false p ez ltac:(lia)) as H.
      cbn [sign_of] in H. rewrite Z.mul_1_l in H. exact H.
    + exfalso. nia.
Qed.

Lemma Zdigits2_pow2 (k : Z) : 0 <= k -> Zdigits2 (2 ^ k) = k + 1.
Proof.
  intros Hk. apply Zdigits2_unique.
  - apply pow2_pos; lia.
  - replace (k + 1 - 1) with k by lia. split; [lia|]. apply pow2_lt; lia.
Qed.

Lemma new_location_loc_of (N D : Z) :
  0 < D -> new_location D (N mod D) = loc_of N D.
Proof.
  intros HD. pose proof (Z.mod_pos_bound N D HD) as B.
  unfold new_location, new_location_even, new_location_odd, loc_of.
  destruct (Z.even D) eqn:Ev; [reflexivity|].
  destruct (Z.eqb_spec (N mod D) 0); [reflexivity|].
  f_equal.
  assert (Hodd : Z.odd D = true) by (rewrite <- Z.negb_even, Ev; reflexivity).
  apply Z.odd_spec in Hodd as [h Hh].
  destruct (Z.compare_spec (2 * (N mod D) + 1) D);
  destruct (Z.compare_spec (2 * (N mod D)) D); try reflexivity; lia.
Qed.

(** The quotient of a finite dividend [mx * 2^ex], in canonical form or
    not, by a positive float. *)
Lemma SFdiv_finite_RN (sx : bool) (mx my : positive) (ex ey : Z) :
  -1074 <= ex -> -1074 <= ey ->
  let r := SF64div (S754_finite sx mx ex) (S754_finite false my ey) in
  SFis_nan r = false /\ valid_binary r = true /\
  SF2Z r = sign_of sx * RN (Zpos mx * 2 ^ (ex + 1074) * 2 ^ 1074)
                           (Zpos my * 2 ^ (ey + 1074)).
Proof.
  intros Hex Hey.
  assert (P1074 : 0 < 2 ^ 1074) by (apply pow2_pos; lia).
  unfold SF64div; cbn [SFdiv SFsign].
  rewrite xorb_false_r.
  unfold SFdiv_core_binary. cbn [Zdigits2]. rewrite fexp64.
  pose proof (digits2_pos_bounds mx) as [Lx Ux].
  pose proof (digits2_pos_bounds my) as [Ly Uy].
  set (d1 := Zpos (digits2_pos mx)) in *.
  set (d2 := Zpos (digits2_pos my)) in *.
  assert (Hd1 : 0 < d1) by (subst d1; lia).
  assert (Hd2 : 0 < d2) by (subst d2; lia).
  set (e' := Z.min (Z.max (d1 + ex - (d2 + ey) - 53) (-1074)) (ex - ey)).
  set (s := ex - ey - e').
  assert (Hs : 0 <= s) by (subst s e'; lia).
  assert (Ps : 0 < 2 ^ s) by (apply pow2_pos; lia).
  assert (Hm' : match s with
                | 0 => Zpos mx
                | Zpos _ => Z.shiftl (Zpos mx) s
                | Zneg _ => 0
                end = Zpos mx * 2 ^ s).
  { destruct s as [|p|p] eqn:Es; [cbn; lia| |lia].
    apply Z.shiftl_mul_pow2. lia. }
  rewrite Hm'. set (N := Zpos mx * 2 ^ s) in *.
  assert (Hdm : Z.div_eucl N (Zpos my) = (N / Zpos my, N mod Zpos my)).
  { unfold Z.div, Z.modulo. destruct (Z.div_eucl N (Zpos my)); reflexivity. }
  rewrite Hdm, new_location_loc_of by lia.
  apply round_aux_RN.
  - subst N; lia.
  - lia.
  - (* the quotient has enough digits *)
    rewrite fexp64.
    destruct (Z_le_gt_dec e' (-1074)) as [|Hgt]; [lia|].
    assert (Hk : 53 <= d1 + s - d2) by (subst s e'; lia).
    assert (Hq : 2 ^ (d1 - 1 + s - d2) <= N / Zpos my).
    { apply Z.div_le_lower_bound; [lia|].
      assert (Zpos my * 2 ^ (d1 - 1 + s - d2) <= 2 ^ d2 * 2 ^ (d1 - 1 + s - d2)).
      { apply Z.mul_le_mono_nonneg_r; [|lia]. apply Z.lt_le_incl, pow2_pos; lia. }
      rewrite <- Z.pow_add_r in H by lia.
      replace (d2 + (d1 - 1 + s - d2)) with ((d1 - 1) + s) in H by lia.
      rewrite Z.pow_add_r in H by lia.
      subst N. nia. }
    assert (d1 + s - d2 <= Zdigits2 (N / Zpos my)); [|lia].
    replace (d1 + s - d2) with ((d1 - 1 + s - d2) + 1) by lia.
    rewrite <- Zdigits2_pow2 by lia.
    apply Zdigits2_le. split; [|exact Hq]. apply Z.lt_le_incl, pow2_pos; lia.
  - nia.
  - lia.
  - assert (Pa : 0 < 2 ^ (ex + 1074)) by (apply pow2_pos; lia).
    assert (Pb : 0 < 2 ^ (ey + 1074)) by (apply pow2_pos; lia).
    subst N.
    assert (E : 2 ^ (ex + 1074) * 2 ^ 1074 * 2 ^ Z.max 0 (- (e' + 1074))
                = 2 ^ s * 2 ^ (ey + 1074) * 2 ^ Z.max 0 (e' + 1074)).
    { rewrite <- !Z.pow_add_r by lia. f_equal. subst s. lia. }
    set (a := 2 ^ (ex + 1074)) in *. set (b := 2 ^ (ey + 1074)) in *.
    set (c := 2 ^ 1074) in *. set (u := 2 ^ Z.max 0 (- (e' + 1074))) in *.
    set (v := 2 ^ Z.max 0 (e' + 1074)) in *. set (w := 2 ^ s) in *.
    transitivity (Zpos mx * Zpos my * (a * c * u)); [ring|].
    rewrite E. ring.
Qed.

Lemma SFdiv_RN (x y : spec_float) :
  valid_binary x = true -> valid_binary y = true ->
  SFfinite x = true ->
  SFfinite y = true -> 0 < SF2Z y ->
  let r := SF64div x y in
  SFis_nan r = false /\ valid_binary r = true /\
  SF2Z r = sign_of (SFsign x) * RN (Z.abs (SF2Z x) * 2 ^ 1074) (SF2Z y).
Proof.
  intros Vx Vy Fx Fy Py.
  destruct x as [sx | sx | | sx mx ex]; try discriminate.
  - destruct y as [sy | sy | | sy my ey]; try discriminate.
    cbn [SF2Z] in Py. destruct sy; [lia|].
    unfold SF64div; cbn [SFdiv SFsign].
    cbn [SFis_nan SpecFloat.valid_binary SF2Z Z.abs].
    rewrite Z.mul_0_l, RN_0 by lia. repeat split; try reflexivity. lia.
  - assert (Habs : Z.abs (SF2Z (S754_finite sx mx ex)) = Zpos mx * 2 ^ (ex + 1074)).
    { pose proof (finite_U_bounds _ _ _ Vx) as Bx. cbn [SF2Z]. destruct sx; lia. }
    rewrite Habs. cbn [SFsign].
    apply valid_finite_inv in Vx as (Hex & _).
    destruct y as [sy | sy | | sy my ey]; try discriminate.
    cbn [SF2Z] in Py.
    pose proof (finite_U_bounds _ _ _ Vy) as By.
    destruct sy; [lia|].
    apply valid_finite_inv in Vy as (Hey & _).
    cbn [SF2Z]. apply SFdiv_finite_RN; lia.
Qed.

(* ================================================================== *)
(** * Primitive floats through their specification *)
(* ================================================================== *)

Lemma finite_ordered (x : float) : finite x -> ordered x.
Proof.
  unfold finite, ordered. destruct (Prim2SF x); cbn; congruence.
Qed.

Lemma ord_range (x : float) : - Uinf <= ord x <= Uinf.
Proof.
  unfold ord. pose proof Uinf_pos.
  pose proof (Prim2SF_valid x) as V.
  destruct (Prim2SF x) as [s|s| |s m e]; cbn [SF2Z]; try lia; try (destruct s; lia).
  pose proof (finite_U_bounds _ _ _ V). destruct s; lia.
Qed.

Lemma finite_iff (x : float) :
  finite x <-> ordered x /\ - Uinf < ord x < Uinf.
Proof.
  unfold finite, ordered, ord. pose proof Uinf_pos.
  pose proof (Prim2SF_valid x) as V.
  destruct (Prim2SF x) as [s|s| |s m e]; cbn [SF2Z SFfinite SFis_nan].
  - split; [intros _; split; [reflexivity|lia]|reflexivity].
  - split; [discriminate|]. intros [_ ?]. destruct s; lia.
  - split; [discriminate|]. intros [? _]. discriminate.
  - pose proof (finite_U_bounds _ _ _ V).
    split; [intros _; split; [reflexivity|destruct s; lia]|reflexivity].
Qed.

Lemma compare_ord (x y : float) :
  ordered x -> ordered y ->
  SFcompare (Prim2SF x) (Prim2SF y) = Some (ord x ?= ord y).
Proof.
  intros Hx Hy. apply SFcompare_SF2Z; auto using Prim2SF_valid.
Qed.

Lemma compare_nan (x y : float) :
  ~ (ordered x /\ ordered y) -> SFcompare (Prim2SF x) (Prim2SF y) = None.
Proof.
  unfold ordered. intros H.
  destruct (Prim2SF x), (Prim2SF y); cbn in *; try reflexivity;
    exfalso; apply H; split; reflexivity.
Qed.

Lemma ordered_dec (x : float) : {ordered x} + {~ ordered x}.
Proof.
  unfold ordered. destruct (SFis_nan (Prim2SF x)); [right; discriminate|left; reflexivity].
Qed.

Lemma float_ltb_iff (x y : float) :
  (x <? y)%float = true <-> ordered x /\ ordered y /\ ord x < ord y.
Proof.
  rewrite ltb_spec. unfold SFltb.
  destruct (ordered_dec x) as [Hx|Hx]; [destruct (ordered_dec y) as [Hy|Hy]|].
  - rewrite (compare_ord x y Hx Hy).
    destruct (Z.compare_spec (ord x) (ord y)); split; try discriminate;
      try (intros (_ & _ & ?); lia); intros _; repeat split; auto.
  - rewrite compare_nan by tauto. split; [discriminate|tauto].
  - rewrite compare_nan by tauto. split; [discriminate|tauto].
Qed.

Lemma float_leb_iff (x y : float) :
  (x <=? y)%float = true <-> ordered x /\ ordered y /\ ord x <= ord y.
Proof.
  rewrite leb_spec. unfold SFleb.
  destruct (ordered_dec x) as [Hx|Hx]; [destruct (ordered_dec y) as [Hy|Hy]|].
  - rewrite (compare_ord x y Hx Hy).
    destruct (Z.compare_spec (ord x) (ord y)); split; try discriminate;
      try (intros (_ & _ & ?); lia); intros _; repeat split; auto; lia.
  - rewrite compare_nan by tauto. split; [discriminate|tauto].
  - rewrite compare_nan by tauto. split; [discriminate|tauto].
Qed.

Lemma float_eqb_iff (x y : float) :
  (x =? y)%float = true <-> ordered x /\ ordered y /\ ord x = ord y.
Proof.
  rewrite eqb_spec. unfold SFeqb.
  destruct (ordered_dec x) as [Hx|Hx]; [destruct (ordered_dec y) as [Hy|Hy]|].
  - rewrite (compare_ord x y Hx Hy).
    destruct (Z.compare_spec (ord x) (ord y)); split; try discriminate;
      try (intros (_ & _ & ?); lia); intros _; repeat split; auto.
  - rewrite compare_nan by tauto. split; [discriminate|tauto].
  - rewrite compare_nan by tauto. split; [discriminate|tauto].
Qed.

Lemma float_ltb_false_iff (x y : float) :
  ordered x -> ordered y -> ((x <? y)%float = false <-> ord y <= ord x).
Proof.
  intros Hx Hy. pose proof (float_ltb_iff x y) as H.
  destruct (x <? y)%float.
  - split; [discriminate|]. intros Hle.
    destruct H as [H _]. specialize (H eq_refl). lia.
  - split; [|reflexivity]. intros _.
    destruct (Z_lt_le_dec (ord x) (ord y)); [|assumption].
    destruct H as [_ H]. discriminate H. auto.
Qed.

(** ** The operations *)

Lemma opp_ord (x : float) :
  (ordered x -> ordered (- x)%float) /\ ord (- x)%float = - ord x.
Proof.
  unfold ordered, ord. rewrite opp_spec.
  destruct (Prim2SF x) as [s|s| |s m e]; cbn [SF2Z SFopp SFis_nan];
    (split; [auto|]); try lia; destruct s; cbn [negb]; lia.
Qed.

Lemma mul_ord (x y : float) :
  finite x -> finite y -> 0 <= ord x -> 0 <= ord y ->
  ordered (x * y)%float /\ 0 <= ord (x * y)%float /\
  ord (x * y)%float = RN (ord x * ord y) (2 ^ 1074).
Proof.
  intros Fx Fy Px Py. unfold ordered, ord. rewrite mul_spec.
  destruct (SFmul_RN (Prim2SF x) (Prim2SF y)) as (Hn & _ & Hv);
    auto using Prim2SF_valid.
  - split; [apply finite_ordered|]; assumption.
  - split; [apply finite_ordered|]; assumption.
  - split; [exact Hn|]. rewrite Hv. split; [|reflexivity].
    apply RN_nonneg; [|apply pow2_pos; lia].
    apply Z.mul_nonneg_nonneg; assumption.
Qed.

Lemma add_ord (x y : float) :
  ordered x -> ordered y -> 0 <= ord x -> 0 <= ord y ->
  ordered (x + y)%float /\ 0 <= ord (x + y)%float /\
  ord (x + y)%float = RN (ord x + ord y) 1.
Proof.
  intros Ox Oy Px Py. unfold ordered, ord. rewrite add_spec.
  destruct (SFadd_RN (Prim2SF x) (Prim2SF y)) as (Hn & _ & Hv);
    auto using Prim2SF_valid.
  - split; assumption.
  - split; assumption.
  - split; [exact Hn|]. rewrite Hv. split; [|reflexivity].
    apply RN_nonneg; unfold ord in *; lia.
Qed.

Lemma sub_ord (x y : float) :
  finite x -> finite y -> 0 <= ord y <= ord x ->
  ordered (x - y)%float /\ 0 <= ord (x - y)%float /\
  ord (x - y)%float = RN (ord x - ord y) 1.
Proof.
  intros Fx Fy Hxy. unfold ordered, ord. rewrite sub_spec.
  destruct (SFsub_RN (Prim2SF x) (Prim2SF y)) as (Hn & _ & Hv);
    auto using Prim2SF_valid.
  - split; [apply finite_ordered; assumption|unfold ord in *; lia].
  - split; [apply finite_ordered; assumption|unfold ord in *; lia].
  - apply Hxy.
  - split; [exact Hn|]. rewrite Hv. split; [|reflexivity].
    apply RN_nonneg; unfold ord in *; lia.
Qed.

Lemma sign_of_SFsign (x : float) (r : Z) :
  0 <= r -> (ord x = 0 -> r = 0) ->
  sign_of (SFsign (Prim2SF x)) * r = Z.sgn (ord x) * r.
Proof.
  unfold ord. intros Hr Hz. pose proof (Prim2SF_valid x) as V.
  pose proof Uinf_pos.
  destruct (Prim2SF x) as [s|s| |s m e]; cbn [SF2Z SFsign] in *.
  - rewrite Hz by reflexivity. lia.
  - destruct s; cbn [sign_of]; [rewrite (Z.sgn_neg (- Uinf))|rewrite Z.sgn_pos]; lia.
  - rewrite Hz by reflexivity. lia.
  - pose proof (finite_U_bounds _ _ _ V).
    destruct s; cbn [sign_of]; [rewrite Z.sgn_neg|rewrite Z.sgn_pos]; lia.
Qed.

Lemma div_ord (x y : float) :
  finite x -> finite y -> 0 < ord y ->
  ordered (x / y)%float /\
  ord (x / y)%float = Z.sgn (ord x) * RN (Z.abs (ord x) * 2 ^ 1074) (ord y).
Proof.
  intros Fx Fy Py. unfold ordered. unfold ord at 1. rewrite div_spec.
  destruct (SFdiv_RN (Prim2SF x) (Prim2SF y)) as (Hn & _ & Hv);
    auto using Prim2SF_valid.
  split; [exact Hn|]. rewrite Hv. fold (ord x). fold (ord y).
  apply sign_of_SFsign.
  - apply RN_nonneg; [|assumption].
    apply Z.mul_nonneg_nonneg; [lia|]. apply Z.lt_le_incl, pow2_pos; lia.
  - intros ->. cbn [Z.abs]. rewrite Z.mul_0_l. apply RN_0. assumption.
Qed.

(** An infinite dividend. *)
Lemma div_ord_inf (x y : float) :
  ordered x -> Z.abs (ord x) = Uinf -> finite y -> 0 < ord y ->
  ordered (x / y)%float /\ ord (x / y)%float = ord x.
Proof.
  unfold ordered, finite, ord. rewrite div_spec.
  pose proof (Prim2SF_valid x) as Vx. pose proof (Prim2SF_valid y) as Vy.
  pose proof Uinf_pos.
  destruct (Prim2SF x) as [s|s| |s m e]; cbn [SF2Z SFis_nan];
    intros Ox Hx Fy Py; try discriminate; try lia.
  - destruct (Prim2SF y) as [sy|sy| |sy my ey]; cbn [SF2Z SFfinite] in *;
      try discriminate; try lia.
    pose proof (finite_U_bounds _ _ _ Vy).
    destruct sy; [lia|]. unfold SF64div. cbn. rewrite xorb_false_r. auto.
  - pose proof (finite_U_bounds _ _ _ Vx). destruct s; lia.
Qed.

(** ** Constants *)

Lemma U1_pos : 0 < U1.
Proof. unfold U1. apply pow2_pos; lia. Qed.

Lemma U1_lt_Uinf : U1 < Uinf.
Proof. unfold U1, Uinf. apply pow2_lt; lia. Qed.

Lemma ord_0 : ord 0 = 0.
Proof. reflexivity. Qed.

Lemma ord_1 : ord 1 = U1.
Proof. vm_compute. reflexivity. Qed.

Lemma ord_10 : ord 10 = 10 * U1.
Proof. vm_compute. reflexivity. Qed.

Lemma ord_100 : ord 100 = 100 * U1.
Proof. vm_compute. reflexivity. Qed.

Lemma finite_0 : finite 0.
Proof. reflexivity. Qed.

Lemma finite_1 : finite 1.
Proof. reflexivity. Qed.

Lemma finite_10 : finite 10.
Proof. reflexivity. Qed.

Lemma finite_100 : finite 100.
Proof. reflexivity. Qed.

(** ** [clamp] *)

Lemma clamp_cases (x : float) :
  (ordered x /\ ord x <= 0 /\ clamp x = 0%float) \/
  (ordered x /\ 0 < ord x < U1 /\ clamp x = x) \/
  ((ordered x -> U1 <= ord x) /\ clamp x = 1%float).
Proof.
  unfold clamp, clamp_between, py_min.
  destruct (x <? 1)%float eqn:H1.
  - apply float_ltb_iff in H1 as (Ox & _ & Hlt). rewrite ord_1 in Hlt.
    unfold py_max. destruct (0 <? x)%float eqn:H0.
    + apply float_ltb_iff in H0 as (_ & _ & Hpos). rewrite ord_0 in Hpos.
      right; left. auto.
    + apply float_ltb_false_iff in H0; [|reflexivity|exact Ox]. rewrite ord_0 in H0.
      left. auto.
  - right; right. split; [|reflexivity].
    intros Ox. apply float_ltb_false_iff in H1; [|exact Ox|reflexivity].
    rewrite ord_1 in H1. exact H1.
Qed.

Lemma clamp_ord (x : float) :
  finite (clamp x) /\ 0 <= ord (clamp x) <= U1 /\
  (ordered x -> ord (clamp x) = Z.max 0 (Z.min U1 (ord x))).
Proof.
  pose proof U1_pos. pose proof U1_lt_Uinf.
  destruct (clamp_cases x) as [(Ox & Hx & ->) | [(Ox & Hx & ->) | (Hx & ->)]].
  - split; [reflexivity|]. rewrite ord_0. split; [lia|]. intros _. lia.
  - split; [apply finite_iff; split; [assumption|lia]|].
    split; [lia|]. intros _. lia.
  - split; [reflexivity|]. rewrite ord_1. split; [lia|].
    intros Ox. specialize (Hx Ox). lia.
Qed.

Lemma clamp_mono (x y : float) :
  ordered x -> ordered y -> ord x <= ord y -> ord (clamp x) <= ord (clamp y).
Proof.
  intros Ox Oy H.
  destruct (clamp_ord x) as (_ & _ & Hx). destruct (clamp_ord y) as (_ & _ & Hy).
  rewrite Hx, Hy by assumption. lia.
Qed.

(** ** The score is a percentage *)

Lemma times_100_range (c : float) :
  finite c -> 0 <= ord c <= U1 ->
  ordered (c * 100)%float /\ 0 <= ord (c * 100)%float <= 100 * U1.
Proof.
  intros Fc Hc. pose proof U1_pos.
  destruct (mul_ord c 100 Fc finite_100) as (O & P & E); [lia|rewrite ord_100; lia|].
  split; [exact O|]. split; [exact P|].
  rewrite E.
  destruct (mul_ord 1 100 finite_1 finite_100) as (_ & _ & E1);
    [rewrite ord_1; lia|rewrite ord_100; lia|].
  change (1 * 100)%float with 100%float in E1.
  apply Z.le_trans with (RN (ord 1 * ord 100) (2 ^ 1074));
    [|rewrite <- E1, ord_100; lia].
  apply RN_mono.
  - rewrite ord_100. nia.
  - apply pow2_pos; lia.
  - apply pow2_pos; lia.
  - rewrite ord_1. apply Z.mul_le_mono_nonneg_r; [apply Z.lt_le_incl, pow2_pos; lia|].
    apply Z.mul_le_mono_nonneg_r; [rewrite ord_100; lia|lia].
Qed.

Lemma score_of_range (cfg : Config) (now : datetime) (data : FindingIn) :
  ordered (score_of cfg now data) /\
  0 <= ord (score_of cfg now data) <= 100 * U1.
Proof.
  unfold score_of.
  destruct (clamp_ord (base_score cfg now data)) as (F & R & _).
  apply times_100_range; assumption.
Qed.

(** ** Monotonicity of the operations *)

Lemma RN_ord (x : float) : ordered x -> 0 <= ord x -> RN (ord x) 1 = ord x.
Proof.
  unfold ordered, ord. pose proof (Prim2SF_valid x) as V. pose proof Uinf_pos.
  destruct (Prim2SF x) as [s|s| |s m e]; cbn [SF2Z SFis_nan]; intros O P;
    try discriminate.
  - apply RN_0; lia.
  - destruct s; [lia|]. apply RN_overflow; lia.
  - pose proof (finite_U_bounds _ _ _ V). destruct s; [lia|].
    apply (RN_exact false). exact V.
Qed.

Lemma le_nn_refl (x : float) : ordered x -> 0 <= ord x -> le_nn x x.
Proof. unfold le_nn. intuition lia. Qed.

Lemma le_nn_leb (x y : float) : le_nn x y -> (x <=? y)%float = true.
Proof. intros (Ox & Oy & H). apply float_leb_iff. intuition lia. Qed.

Lemma add_le_nn (a1 a2 b1 b2 : float) :
  le_nn a1 a2 -> le_nn b1 b2 -> le_nn (a1 + b1) (a2 + b2).
Proof.
  intros (Oa1 & Oa2 & Ha) (Ob1 & Ob2 & Hb).
  destruct (add_ord a1 b1) as (O1 & P1 & E1); try assumption; try lia.
  destruct (add_ord a2 b2) as (O2 & P2 & E2); try assumption; try lia.
  split; [exact O1|]. split; [exact O2|]. split; [exact P1|].
  rewrite E1, E2. apply RN_mono; lia.
Qed.

(** Adding a non-negative term does not decrease a sum. *)
Lemma add_nonneg_le_nn (a b : float) :
  ordered a -> 0 <= ord a -> ordered b -> 0 <= ord b -> le_nn a (a + b).
Proof.
  intros Oa Pa Ob Pb.
  destruct (add_ord a b) as (O & P & E); try assumption.
  split; [exact Oa|]. split; [exact O|]. split; [exact Pa|].
  rewrite E, <- (RN_ord a Oa Pa) at 1. apply RN_mono; lia.
Qed.

Lemma mul_le_nn (w x1 x2 : float) :
  finite w -> 0 <= ord w -> finite x2 -> le_nn x1 x2 ->
  le_nn (w * x1) (w * x2).
Proof.
  intros Fw Pw F2 (O1 & O2 & H).
  assert (F1 : finite x1).
  { apply finite_iff. apply finite_iff in F2 as [_ F2]. pose proof Uinf_pos.
    split; [assumption|lia]. }
  destruct (mul_ord w x1 Fw F1) as (Oa & Pa & Ea); try lia.
  destruct (mul_ord w x2 Fw F2) as (Ob & Pb & Eb); try lia.
  split; [exact Oa|]. split; [exact Ob|]. split; [exact Pa|].
  assert (P : 0 < 2 ^ 1074) by (apply pow2_pos; lia).
  rewrite Ea, Eb. apply RN_mono; try lia; try nia.
Qed.

Lemma mul_le_nn_l (x1 x2 w : float) :
  finite w -> 0 <= ord w -> finite x2 -> le_nn x1 x2 ->
  le_nn (x1 * w) (x2 * w).
Proof.
  intros Fw Pw F2 (O1 & O2 & H).
  assert (F1 : finite x1).
  { apply finite_iff. apply finite_iff in F2 as [_ F2]. pose proof Uinf_pos.
    split; [assumption|lia]. }
  destruct (mul_ord x1 w F1 Fw) as (Oa & Pa & Ea); try lia.
  destruct (mul_ord x2 w F2 Fw) as (Ob & Pb & Eb); try lia.
  split; [exact Oa|]. split; [exact Ob|]. split; [exact Pa|].
  assert (P : 0 < 2 ^ 1074) by (apply pow2_pos; lia).
  rewrite Ea, Eb. apply RN_mono; try lia; try nia.
Qed.

Lemma div_ord_all (x y : float) :
  ordered x -> finite y -> 0 < ord y ->
  ordered (x / y)%float /\ ord (x / y)%float = quotient_units (ord x) (ord y).
Proof.
  intros Ox Fy Py. unfold quotient_units.
  destruct (Z.eqb_spec (Z.abs (ord x)) Uinf) as [Hinf|Hfin].
  - apply div_ord_inf; assumption.
  - apply div_ord; try assumption.
    apply finite_iff. split; [assumption|].
    pose proof (ord_range x). lia.
Qed.

Lemma quotient_units_mono (u1 u2 d : Z) :
  0 < d -> - Uinf <= u1 -> u2 <= Uinf -> u1 <= u2 ->
  quotient_units u1 d <= quotient_units u2 d.
Proof.
  intros Hd L1 H2 Hle. pose proof Uinf_pos as HU.
  assert (P : 0 < 2 ^ 1074) by (apply pow2_pos; lia).
  assert (Hn : forall u, 0 <= RN (Z.abs u * 2 ^ 1074) d <= Uinf).
  { intros u. split; [apply RN_nonneg; nia|apply RN_le_Uinf]. }
  unfold quotient_units.
  destruct (Z.eqb_spec (Z.abs u1) Uinf) as [I1|F1];
  destruct (Z.eqb_spec (Z.abs u2) Uinf) as [I2|F2].
  - exact Hle.
  - assert (u1 = - Uinf) by lia. subst u1.
    pose proof (Hn u2). destruct (Z.sgn_spec u2) as [[? ->]|[[? ->]|[? ->]]]; nia.
  - assert (u2 = Uinf) by lia. subst u2.
    pose proof (Hn u1). destruct (Z.sgn_spec u1) as [[? ->]|[[? ->]|[? ->]]]; nia.
  - pose proof (Hn u1) as B1. pose proof (Hn u2) as B2.
    destruct (Z.sgn_spec u1) as [[S1 ->]|[[S1 ->]|[S1 ->]]];
    destruct (Z.sgn_spec u2) as [[S2 ->]|[[S2 ->]|[S2 ->]]]; try lia.
    + rewrite !Z.mul_1_l. apply RN_mono; nia.
    + assert (RN (Z.abs u2 * 2 ^ 1074) d <= RN (Z.abs u1 * 2 ^ 1074) d); [|lia].
      apply RN_mono; nia.
Qed.

Lemma div_mono (x1 x2 y : float) :
  ordered x1 -> ordered x2 -> ord x1 <= ord x2 -> finite y -> 0 < ord y ->
  ordered (x1 / y)%float /\ ordered (x2 / y)%float /\
  ord (x1 / y)%float <= ord (x2 / y)%float.
Proof.
  intros O1 O2 H Fy Py.
  destruct (div_ord_all x1 y O1 Fy Py) as [Oa Ea].
  destruct (div_ord_all x2 y O2 Fy Py) as [Ob Eb].
  split; [exact Oa|]. split; [exact Ob|].
  rewrite Ea, Eb. apply quotient_units_mono; try assumption.
  - apply ord_range.
  - apply ord_range.
Qed.

Lemma quotient_units_sign (u d : Z) :
  0 < d -> (u <= 0 -> quotient_units u d <= 0) /\
           (0 <= u -> 0 <= quotient_units u d).
Proof.
  intros Hd. unfold quotient_units. pose proof Uinf_pos.
  assert (P : 0 < 2 ^ 1074) by (apply pow2_pos; lia).
  pose proof (RN_nonneg (Z.abs u * 2 ^ 1074) d ltac:(nia) Hd).
  destruct (Z.eqb_spec (Z.abs u) Uinf); [lia|].
  destruct (Z.sgn_spec u) as [[? ->]|[[? ->]|[? ->]]]; lia.
Qed.

Lemma le_nn_trans (x y z : float) : le_nn x y -> le_nn y z -> le_nn x z.
Proof. unfold le_nn. intuition lia. Qed.

Lemma le_nn_clamp (x y : float) :
  ordered x -> ordered y -> ord x <= ord y -> le_nn (clamp x) (clamp y).
Proof.
  intros Ox Oy H.
  destruct (clamp_ord x) as (Fx & Rx & _). destruct (clamp_ord y) as (Fy & Ry & _).
  split; [apply finite_ordered; exact Fx|]. split; [apply finite_ordered; exact Fy|].
  split; [lia|]. apply clamp_mono; assumption.
Qed.

(** ** The factors of the score *)

Lemma nonneg_finite_spec (x : float) :
  nonneg_finite x = true -> finite x /\ 0 <= ord x.
Proof.
  unfold nonneg_finite. intros H. apply andb_prop in H as [H0 Hi].
  apply float_leb_iff in H0 as (_ & Ox & H0). rewrite ord_0 in H0.
  apply float_ltb_iff in Hi as (_ & _ & Hi).
  change (ord infinity) with Uinf in Hi.
  split; [|exact H0]. apply finite_iff. split; [exact Ox|]. pose proof Uinf_pos. lia.
Qed.

Lemma cvss_n_mono (c1 c2 : float) :
  (c1 <=? c2)%float = true ->
  le_nn (clamp (c1 / 10)) (clamp (c2 / 10)).
Proof.
  intros H. apply float_leb_iff in H as (O1 & O2 & H).
  destruct (div_mono c1 c2 10 O1 O2 H finite_10) as (Oa & Ob & Hd).
  - rewrite ord_10. pose proof U1_pos. lia.
  - apply le_nn_clamp; assumption.
Qed.

Lemma one_minus_antitone (c1 c2 : float) :
  finite c1 -> finite c2 -> 0 <= ord c1 <= ord c2 -> ord c2 <= U1 ->
  ordered (1 - c1)%float /\ ordered (1 - c2)%float /\
  ord (1 - c2)%float <= ord (1 - c1)%float.
Proof.
  intros F1 F2 H12 H2.
  destruct (sub_ord 1 c1 finite_1 F1) as (Oa & _ & Ea); [rewrite ord_1; lia|].
  destruct (sub_ord 1 c2 finite_1 F2) as (Ob & _ & Eb); [rewrite ord_1; lia|].
  split; [exact Oa|]. split; [exact Ob|].
  rewrite Ea, Eb, ord_1. apply RN_mono; lia.
Qed.

Lemma recency_factor_antitone (y1 y2 : float) :
  ordered y1 -> ordered y2 -> ord y1 <= ord y2 ->
  le_nn (recency_factor y2) (recency_factor y1).
Proof.
  intros O1 O2 H. unfold recency_factor.
  destruct (div_mono y1 y2 10 O1 O2 H finite_10) as (Oa & Ob & Hd).
  { rewrite ord_10. pose proof U1_pos. lia. }
  pose proof (clamp_mono _ _ Oa Ob Hd) as Hc.
  destruct (clamp_ord (y1 / 10)) as (F1 & R1 & _).
  destruct (clamp_ord (y2 / 10)) as (F2 & R2 & _).
  destruct (one_minus_antitone _ _ F1 F2 ltac:(lia) ltac:(lia)) as (Ox & Oy & Hs).
  apply le_nn_clamp; assumption.
Qed.

Lemma recency_factor_finite (y : float) :
  finite (recency_factor y) /\ 0 <= ord (recency_factor y).
Proof.
  unfold recency_factor.
  destruct (clamp_ord (1 - clamp (y / 10))) as (F & R & _). split; [exact F|lia].
Qed.

Lemma score_of_from (cfg : Config) (now : datetime) (data : FindingIn) :
  score_of cfg now data =
  score_from cfg (clamp (cvss data / 10))
    (CRIT_WEIGHTS (resolve_crit cfg data))
    (EXPO_WEIGHTS (resolve_expo cfg data))
    (recency_factor (age now data))
    (has_known_exploit data) (is_actively_exploited data).
Proof. reflexivity. Qed.

Lemma bonus_le_nn (b1 b2 B : float) (k1 k2 : bool) :
  nonneg_finite B = true -> le_nn b1 b2 -> (k1 = true -> k2 = true) ->
  le_nn (if k1 then (b1 + B)%float else b1) (if k2 then (b2 + B)%float else b2).
Proof.
  intros HB Hb Hk. apply nonneg_finite_spec in HB as [FB PB].
  pose proof (finite_ordered _ FB) as OB.
  destruct Hb as (O1 & O2 & H12).
  destruct k1, k2.
  - apply add_le_nn; [split; [|split]; assumption|apply le_nn_refl; assumption].
  - discriminate Hk. reflexivity.
  - apply le_nn_trans with b2; [split; [|split]; assumption|].
    apply add_nonneg_le_nn; try assumption. lia.
  - split; [|split]; assumption.
Qed.

Theorem score_from_mono (cfg : Config)
    (cn1 cn2 cw1 cw2 ew1 ew2 rf1 rf2 : float) (k1 k2 a1 a2 : bool) :
  config_nonneg cfg = true ->
  le_nn cn1 cn2 -> finite cn2 ->
  le_nn cw1 cw2 -> finite cw2 ->
  le_nn ew1 ew2 -> finite ew2 ->
  le_nn rf1 rf2 -> finite rf2 ->
  (k1 = true -> k2 = true) -> (a1 = true -> a2 = true) ->
  le_nn (score_from cfg cn1 cw1 ew1 rf1 k1 a1)
        (score_from cfg cn2 cw2 ew2 rf2 k2 a2).
Proof.
  unfold config_nonneg. intros Hc Hcn Fcn Hcw Fcw Hew Few Hrf Frf Hk Ha.
  apply andb_prop in Hc as [Hc H].
  apply andb_prop in Hc as [Hc H0].
  apply andb_prop in Hc as [Hc H1].
  apply andb_prop in Hc as [Hc H2].
  apply andb_prop in Hc as [Hc H3].
  destruct (nonneg_finite_spec _ Hc) as [F1 P1].
  destruct (nonneg_finite_spec _ H3) as [F2 P2].
  destruct (nonneg_finite_spec _ H2) as [F3 P3].
  destruct (nonneg_finite_spec _ H1) as [F4 P4].
  unfold score_from.
  assert (Hbase : le_nn
    (W_CVSS cfg * cn1 + W_CRIT cfg * cw1 + W_EXPO cfg * ew1 + W_RECENCY cfg * rf1)
    (W_CVSS cfg * cn2 + W_CRIT cfg * cw2 + W_EXPO cfg * ew2 + W_RECENCY cfg * rf2)).
  { repeat apply add_le_nn; apply mul_le_nn; assumption. }
  pose proof (bonus_le_nn _ _ _ _ _ H0 Hbase Hk) as Hb1.
  pose proof (bonus_le_nn _ _ _ _ _ H Hb1 Ha) as Hb2.
  destruct Hb2 as (O1 & O2 & H12).
  apply mul_le_nn_l.
  - exact finite_100.
  - rewrite ord_100. pose proof U1_pos. lia.
  - apply clamp_ord.
  - apply le_nn_clamp; try assumption. lia.
Qed.

(** ** The age of a finding *)

Lemma py_max_0_ord (y : float) :
  finite (py_max 0 y) \/ (ordered y /\ ord y = Uinf /\ py_max 0 y = y).
Proof.
  unfold py_max. destruct (0 <? y)%float eqn:H.
  - apply float_ltb_iff in H as (_ & Oy & Hy).
    pose proof (ord_range y).
    destruct (Z.eq_dec (ord y) Uinf) as [E|N]; [right; auto|left].
    apply finite_iff. split; [exact Oy|]. rewrite ord_0 in Hy. lia.
  - left. reflexivity.
Qed.

Lemma py_max_0_spec (y : float) :
  ordered (py_max 0 y) /\ 0 <= ord (py_max 0 y) /\
  (ordered y -> ord (py_max 0 y) = Z.max 0 (ord y)).
Proof.
  unfold py_max. destruct (0 <? y)%float eqn:H.
  - apply float_ltb_iff in H as (_ & Oy & Hy). rewrite ord_0 in Hy.
    split; [exact Oy|]. split; [lia|]. intros _. lia.
  - split; [reflexivity|]. rewrite ord_0. split; [lia|].
    intros Oy. apply float_ltb_false_iff in H; [|reflexivity|exact Oy].
    rewrite ord_0 in H. lia.
Qed.

Lemma float_of_Z_ord (n : Z) :
  ordered (float_of_Z n) /\
  ord (float_of_Z n) = Z.sgn n * RN (Z.abs n * 2 ^ 1074) 1.
Proof.
  unfold ordered, ord, float_of_Z.
  assert (H : SFis_nan (binary_normalize prec emax n 0 false) = false /\
              valid_binary (binary_normalize prec emax n 0 false) = true /\
              SF2Z (binary_normalize prec emax n 0 false)
              = Z.sgn n * RN (Z.abs n * 2 ^ 1074) 1).
  { destruct n as [|p|p]; cbn [binary_normalize Z.sgn Z.abs].
    - cbn [SFis_nan SpecFloat.valid_binary SF2Z].
      rewrite Z.mul_0_l. repeat split; reflexivity.
    - destruct (binary_round_RN false p 0 ltac:(lia)) as (A & B & C).
      cbn [sign_of] in C. change (0 + 1074) with 1074 in C. auto.
    - destruct (binary_round_RN true p 0 ltac:(lia)) as (A & B & C).
      cbn [sign_of] in C. change (0 + 1074) with 1074 in C. auto. }
  destruct H as (A & B & C).
  rewrite Prim2SF_SF2Prim by exact B. auto.
Qed.

Lemma units_of_Z_mono (n1 n2 : Z) :
  n1 <= n2 ->
  Z.sgn n1 * RN (Z.abs n1 * 2 ^ 1074) 1 <= Z.sgn n2 * RN (Z.abs n2 * 2 ^ 1074) 1.
Proof.
  intros H. assert (P : 0 < 2 ^ 1074) by (apply pow2_pos; lia).
  pose proof (RN_nonneg (Z.abs n1 * 2 ^ 1074) 1 ltac:(nia) ltac:(lia)).
  pose proof (RN_nonneg (Z.abs n2 * 2 ^ 1074) 1 ltac:(nia) ltac:(lia)).
  destruct (Z.sgn_spec n1) as [[S1 ->]|[[S1 ->]|[S1 ->]]];
  destruct (Z.sgn_spec n2) as [[S2 ->]|[[S2 ->]|[S2 ->]]]; try lia.
  - rewrite !Z.mul_1_l. apply RN_mono; nia.
  - assert (RN (Z.abs n2 * 2 ^ 1074) 1 <= RN (Z.abs n1 * 2 ^ 1074) 1); [|lia].
    apply RN_mono; nia.
Qed.

Lemma float_of_Z_mono (n1 n2 : Z) :
  n1 <= n2 -> ord (float_of_Z n1) <= ord (float_of_Z n2).
Proof.
  intros H. destruct (float_of_Z_ord n1) as [_ ->].
  destruct (float_of_Z_ord n2) as [_ ->]. now apply units_of_Z_mono.
Qed.

Lemma RN_1 : RN 1 1 = 1.
Proof. vm_compute. reflexivity. Qed.

Lemma RN_U1 : RN U1 1 = U1.
Proof. vm_compute. reflexivity. Qed.

Lemma float_of_Z_neg (n : Z) : n < 0 -> ord (float_of_Z n) <= - U1.
Proof.
  intros H. destruct (float_of_Z_ord n) as [_ ->].
  rewrite Z.sgn_neg by lia.
  assert (RN U1 1 <= RN (Z.abs n * 2 ^ 1074) 1); [|rewrite RN_U1 in *; lia].
  pose proof U1_pos. apply RN_mono; try lia. unfold U1 in *. nia.
Qed.

Lemma finite_365 : finite 365.25.
Proof. reflexivity. Qed.

Lemma ord_365 : 0 < ord 365.25 <= 512 * U1.
Proof.
  split; [apply Z.ltb_lt|apply Z.leb_le]; vm_compute; reflexivity.
Qed.

Lemma years_since_ordered (now pub : datetime) : ordered (years_since now pub).
Proof.
  unfold years_since.
  apply div_ord_all; [apply float_of_Z_ord|exact finite_365|apply ord_365].
Qed.

(** A later publication makes a finding younger. *)
Lemma years_since_antitone (now pub1 pub2 : datetime) :
  pub1 <= pub2 ->
  ord (years_since now pub2) <= ord (years_since now pub1).
Proof.
  intros H. unfold years_since.
  apply div_mono; try apply float_of_Z_ord; try exact finite_365; try apply ord_365.
  apply float_of_Z_mono.
  apply Z.div_le_mono; [reflexivity|lia].
Qed.

(** A publication in the future: a negative age. *)
Lemma years_since_future (now pub : datetime) :
  now < pub -> ord (years_since now pub) < 0.
Proof.
  intros H. unfold years_since.
  assert (Hd : (now - pub) / microseconds_per_day < 0).
  { apply Z.div_lt_upper_bound; [reflexivity|lia]. }
  pose proof (float_of_Z_neg _ Hd) as Hn.
  destruct (float_of_Z_ord ((now - pub) / microseconds_per_day)) as [Of _].
  destruct (div_ord_all _ 365.25 Of finite_365 ltac:(apply ord_365)) as [_ ->].
  set (u := ord (float_of_Z ((now - pub) / microseconds_per_day))) in *.
  pose proof U1_pos as HU1. pose proof Uinf_pos as HU.
  unfold quotient_units.
  destruct (Z.eqb_spec (Z.abs u) Uinf); [lia|].
  rewrite Z.sgn_neg by lia.
  assert (RN 1 1 <= RN (Z.abs u * 2 ^ 1074) (ord 365.25)); [|rewrite RN_1 in *; lia].
  destruct ord_365 as [P365 L365].
  apply RN_mono; lia.
Qed.

(* ================================================================== *)
(** * The stable sort *)
(* ================================================================== *)

Section SortFacts.

Context {A : Type}.
Variable lt : A -> A -> bool.

Lemma insert_stable_perm (x : A) (l : list A) :
  Permutation (insert_stable lt x l) (x :: l).
Proof.
  induction l as [|y l IH]; cbn [insert_stable]; [reflexivity|].
  destruct (lt y x); [|reflexivity].
  rewrite IH. apply perm_swap.
Qed.

Lemma sort_stable_perm (l : list A) : Permutation (sort_stable lt l) l.
Proof.
  induction l as [|x l IH]; cbn [sort_stable fold_right]; [reflexivity|].
  fold (sort_stable lt l). rewrite insert_stable_perm. now constructor.
Qed.

(** The elements compared: [P] holds of them, on [P] the order is
    transitive, and two elements with different tags are comparable. *)
Variable P : A -> Prop.
Variable tag : A -> Z.
Hypothesis lt_trans :
  forall a b c, P a -> P b -> P c ->
  lt a b = true -> lt b c = true -> lt a c = true.
Hypothesis lt_total :
  forall a b, P a -> P b -> tag a <> tag b ->
  lt a b = true \/ lt b a = true.

Let R (a b : A) : Prop := lt a b = true.

Lemma insert_stable_sorted (x : A) (l : list A) :
  P x -> Forall P l -> ~ In (tag x) (map tag l) ->
  StronglySorted R l -> StronglySorted R (insert_stable lt x l).
Proof.
  intros Px. induction l as [|y l IH]; intros HP Hx Hs; cbn [insert_stable].
  - repeat constructor.
  - inversion HP as [|? ? Py HP']; subst.
    inversion Hs as [|? ? Hs' Hy]; subst.
    cbn [map In] in Hx.
    destruct (lt y x) eqn:Hyx.
    + constructor.
      * apply IH; [assumption|tauto|assumption].
      * apply (Permutation_Forall (Permutation_sym (insert_stable_perm x l))).
        constructor; assumption.
    + assert (Hxy : R x y).
      { assert (Ht : tag x <> tag y) by (intros E; apply Hx; left; now symmetry).
        destruct (lt_total x y Px Py Ht) as [H|H]; [exact H|].
        rewrite H in Hyx. discriminate. }
      constructor; [assumption|].
      constructor; [exact Hxy|].
      apply Forall_forall. intros z Hz.
      apply (lt_trans x y z); try assumption.
      -- rewrite Forall_forall in HP'. now apply HP'.
      -- rewrite Forall_forall in Hy. now apply Hy.
Qed.

Lemma sort_stable_sorted (l : list A) :
  Forall P l -> NoDup (map tag l) -> StronglySorted R (sort_stable lt l).
Proof.
  induction l as [|x l IH]; intros HP Hn; cbn [sort_stable fold_right].
  - constructor.
  - fold (sort_stable lt l).
    inversion HP; subst. cbn [map] in Hn. inversion Hn; subst.
    apply insert_stable_sorted; auto.
    + apply (Permutation_Forall (Permutation_sym (sort_stable_perm l))).
      assumption.
    + intros Hin. 
      apply (Permutation_in (l' := map tag l)) in Hin; auto.
      apply Permutation_map, sort_stable_perm.
Qed.

(** A list sorted by a strict order is the only sorted arrangement of
    its elements: any sort that decides by [lt] returns it. *)
Hypothesis lt_irrefl : forall a, P a -> lt a a = false.

Lemma sorted_unique (l1 l2 : list A) :
  Forall P l1 -> Permutation l1 l2 ->
  StronglySorted R l1 -> StronglySorted R l2 -> l1 = l2.
Proof.
  revert l2. induction l1 as [|x l1 IH]; intros l2 HP Hperm S1 S2.
  - apply Permutation_nil in Hperm. now subst.
  - destruct l2 as [|y l2].
    { apply Permutation_sym, Permutation_nil in Hperm. discriminate. }
    inversion HP as [|? ? Px HP1]; subst.
    inversion S1 as [|? ? S1' F1]; subst.
    inversion S2 as [|? ? S2' F2]; subst.
    assert (Py : P y).
    { apply (Permutation_Forall Hperm) in HP. now inversion HP. }
    assert (Exy : x = y).
    { assert (Hy : In y (x :: l1)).
      { apply (Permutation_in (l := y :: l2)); [now symmetry|now left]. }
      assert (Hx : In x (y :: l2)).
      { apply (Permutation_in (l := x :: l1)); [assumption|now left]. }
      destruct Hy as [|Hy]; [assumption|].
      destruct Hx as [|Hx]; [now symmetry|].
      rewrite Forall_forall in F1, F2.
      specialize (F1 y Hy). specialize (F2 x Hx). unfold R in F1, F2.
      pose proof (lt_trans x y x Px Py Px F1 F2) as C.
      rewrite lt_irrefl in C by assumption. discriminate. }
    subst y. f_equal.
    apply IH; auto. now apply Permutation_cons_inv in Hperm.
Qed.

End SortFacts.

(** ** [enumerate] *)

Lemma enumerate_length {A : Type} (l : list A) (start : Z) :
  List.length (enumerate start l) = List.length l.
Proof.
  revert start. induction l; intros; cbn; [reflexivity|now rewrite IHl].
Qed.

Lemma enumerate_snd {A : Type} (l : list A) (start : Z) :
  map snd (enumerate start l) = l.
Proof.
  revert start. induction l; intros; cbn; [reflexivity|now rewrite IHl].
Qed.

Lemma enumerate_fst_ge {A : Type} (l : list A) (start i : Z) :
  In i (map fst (enumerate start l)) -> start <= i.
Proof.
  revert start. induction l as [|x l IH]; intros start H; cbn in H; [tauto|].
  destruct H as [<-|H]; [lia|]. apply IH in H. lia.
Qed.

Lemma enumerate_fst_NoDup {A : Type} (l : list A) (start : Z) :
  NoDup (map fst (enumerate start l)).
Proof.
  revert start. induction l as [|x l IH]; intros start; cbn; constructor.
  - intros H. apply enumerate_fst_ge in H. lia.
  - apply IH.
Qed.

Lemma enumerate_fst {A : Type} (l : list A) (start : Z) :
  map fst (enumerate start l) = Zseq start (List.length l).
Proof.
  revert start. induction l; intros; cbn; [reflexivity|now rewrite IHl].
Qed.

(* ================================================================== *)
(** * The order of the sort keys *)
(* ================================================================== *)

Lemma eqb_ord (x y : float) :
  ordered x -> ordered y -> (x =? y)%float = (ord x =? ord y).
Proof.
  intros Ox Oy. pose proof (float_eqb_iff x y) as H.
  destruct (Z.eqb_spec (ord x) (ord y)) as [E|N].
  - apply H. auto.
  - destruct (x =? y)%float; [|reflexivity].
    destruct H as [H _]. specialize (H eq_refl). tauto.
Qed.

Lemma ltb_ord (x y : float) :
  ordered x -> ordered y -> (x <? y)%float = (ord x <? ord y).
Proof.
  intros Ox Oy. pose proof (float_ltb_iff x y) as H.
  destruct (Z.ltb_spec (ord x) (ord y)) as [E|N].
  - apply H. auto.
  - destruct (x <? y)%float; [|reflexivity].
    destruct H as [H _]. specialize (H eq_refl). lia.
Qed.

Lemma leb_ord (x y : float) :
  ordered x -> ordered y -> (x <=? y)%float = (ord x <=? ord y).
Proof.
  intros Ox Oy. pose proof (float_leb_iff x y) as H.
  destruct (Z.leb_spec (ord x) (ord y)) as [E|N].
  - apply H. auto.
  - destruct (x <=? y)%float; [|reflexivity].
    destruct H as [H _]. specialize (H eq_refl). lia.
Qed.

Lemma key_lt_before (a b : RankKey) :
  key_ok a -> key_ok b -> (key_lt a b = true <-> key_before a b).
Proof.
  intros (A1 & A2 & A3) (B1 & B2 & B3).
  unfold key_lt, key_before, lex_step.
  rewrite !eqb_ord, !ltb_ord by assumption.
  repeat match goal with
  | |- context [ (?x =? ?y) ] => destruct (Z.eqb_spec x y); cbn [negb]
  end;
  repeat match goal with
  | |- context [ (?x <? ?y) ] => destruct (Z.ltb_spec x y)
  end;
  split; intros Hgoal; try discriminate; try reflexivity; try lia.
Qed.

Lemma key_lt_irrefl (a : RankKey) : key_ok a -> key_lt a a = false.
Proof.
  intros Ha. destruct (key_lt a a) eqn:E; [|reflexivity].
  apply key_lt_before in E; [|assumption|assumption].
  unfold key_before, lex_step in E. lia.
Qed.

Lemma key_lt_trans (a b c : RankKey) :
  key_ok a -> key_ok b -> key_ok c ->
  key_lt a b = true -> key_lt b c = true -> key_lt a c = true.
Proof.
  intros Ha Hb Hc H1 H2.
  apply key_lt_before in H1; [|assumption|assumption].
  apply key_lt_before in H2; [|assumption|assumption].
  apply key_lt_before; [assumption|assumption|].
  unfold key_before, lex_step in *. lia.
Qed.

Lemma key_lt_total (a b : RankKey) :
  key_ok a -> key_ok b -> k_idx a <> k_idx b ->
  key_lt a b = true \/ key_lt b a = true.
Proof.
  intros Ha Hb Hn.
  rewrite !key_lt_before by assumption.
  unfold key_before, lex_step. lia.
Qed.

(* ================================================================== *)
(** * The calculator and the endpoints, step by step *)
(* ================================================================== *)

Lemma py_int_finite (x : float) : finite x -> exists n, py_int x = Ok n.
Proof.
  unfold finite, py_int. destruct (Prim2SF x); cbn; try discriminate; eauto.
Qed.

Lemma py_int_raises (x : float) (e : PyExc) :
  py_int x = Raise e -> ~ finite x.
Proof.
  unfold finite, py_int. destruct (Prim2SF x); cbn; try discriminate; auto.
Qed.

(** What [calc_score] returns, when it returns. *)
Lemma calc_score_ok (cfg : Config) (now : datetime) (data : FindingIn)
    (r : Scored) :
  calc_score cfg now data = Ok r ->
  sc_score r = score_of cfg now data /\
  sc_level r = level_of (score_of cfg now data) /\
  sc_asset_crit r = resolve_crit cfg data /\
  sc_exposure r = resolve_expo cfg data.
Proof.
  unfold calc_score, bonus_sentence.
  destruct (has_known_exploit data); destruct (is_actively_exploited data);
    cbn [bind];
    repeat match goal with
    | |- context [ py_int ?x ] => destruct (py_int x); cbn [bind]
    end;
    intros H; inversion H; subst; cbn; auto.
Qed.

Lemma calc_score_total (cfg : Config) (now : datetime) (data : FindingIn) :
  bonus_points_ok cfg data -> exists r, calc_score cfg now data = Ok r.
Proof.
  intros [Hk Ha]. unfold calc_score, bonus_sentence.
  destruct (has_known_exploit data); destruct (is_actively_exploited data);
    cbn [bind];
    try (destruct (py_int_finite _ (Hk eq_refl)) as [n1 ->]; cbn [bind]);
    try (destruct (py_int_finite _ (Ha eq_refl)) as [n2 ->]; cbn [bind]);
    eauto.
Qed.

Lemma level_of_cases (s : float) :
  level_of s = "CRITICAL"%string \/ level_of s = "HIGH"%string \/
  level_of s = "MEDIUM"%string \/ level_of s = "LOW"%string.
Proof.
  unfold level_of.
  destruct (90 <=? s)%float; [auto|].
  destruct (70 <=? s)%float; [auto|].
  destruct (40 <=? s)%float; auto.
Qed.

Lemma level_rank_of_level_of (s : float) :
  level_rank_of (level_of s) = Ok (tier_rank s).
Proof.
  unfold level_of, tier_rank.
  destruct (90 <=? s)%float; [reflexivity|].
  destruct (70 <=? s)%float; [reflexivity|].
  destruct (40 <=? s)%float; reflexivity.
Qed.

Lemma CRIT_WEIGHTS_finite (c : Crit) :
  finite (CRIT_WEIGHTS c) /\ 0 < ord (CRIT_WEIGHTS c) <= U1.
Proof.
  destruct c; (split; [reflexivity|]);
    (split; [apply Z.ltb_lt|apply Z.leb_le]); vm_compute; reflexivity.
Qed.

Lemma EXPO_WEIGHTS_finite (e : Exposure) :
  finite (EXPO_WEIGHTS e) /\ 0 < ord (EXPO_WEIGHTS e) <= U1.
Proof.
  destruct e; (split; [reflexivity|]);
    (split; [apply Z.ltb_lt|apply Z.leb_le]); vm_compute; reflexivity.
Qed.

Lemma key_of_ok (cfg : Config) (now : datetime) (idx : Z) (item : FindingIn) :
  key_ok (key_of cfg now idx item).
Proof.
  unfold key_ok, key_of; cbn.
  repeat split; apply opp_ord.
  - apply score_of_range.
  - apply finite_ordered, EXPO_WEIGHTS_finite.
  - apply finite_ordered, CRIT_WEIGHTS_finite.
Qed.

(** The result that [POST /score] returns for an item, when it does. *)
Lemma rank_entry_ok (cfg : Config) (now : datetime) (idx : Z)
    (item : FindingIn) (k : RankKey) (res : FindingOut) :
  rank_entry cfg now idx item = Ok (k, res) ->
  k = key_of cfg now idx item /\ score_endpoint cfg now item = Ok res.
Proof.
  unfold rank_entry, score_endpoint.
  destruct (calc_score cfg now item) as [r|e] eqn:Hc; cbn [bind]; [|intros X; discriminate X].
  apply calc_score_ok in Hc as (Hs & Hl & Ha & He).
  destruct (make_FindingOut item (sc_asset_crit r) (sc_exposure r)
              (py_round2 (sc_score r)) (sc_level r) (sc_explanation r))
    as [o|e] eqn:Hm;
    rewrite Hl, level_rank_of_level_of; cbn [bind];
    [|intros X; discriminate X].
  intros H. inversion H; subst. split; [|reflexivity].
  unfold key_of. rewrite Hs, Ha, He. reflexivity.
Qed.

Lemma score_endpoint_total (cfg : Config) (now : datetime) (item : FindingIn) :
  cvss_ok (cvss item) = true -> bonus_points_ok cfg item ->
  exists res, score_endpoint cfg now item = Ok res.
Proof.
  intros Hv Hb. unfold score_endpoint.
  destruct (calc_score_total cfg now item Hb) as [r ->]. cbn [bind].
  unfold make_FindingOut. rewrite Hv. eauto.
Qed.

Lemma rank_entry_total (cfg : Config) (now : datetime) (idx : Z)
    (item : FindingIn) :
  cvss_ok (cvss item) = true -> bonus_points_ok cfg item ->
  exists kr, rank_entry cfg now idx item = Ok kr.
Proof.
  intros Hv Hb. unfold rank_entry.
  destruct (calc_score_total cfg now item Hb) as [r Hr]. rewrite Hr. cbn [bind].
  apply calc_score_ok in Hr as (_ & Hl & _ & _).
  rewrite Hl, level_rank_of_level_of. cbn [bind].
  unfold make_FindingOut. rewrite Hv. cbn [bind]. eauto.
Qed.

Lemma score_endpoint_fields (cfg : Config) (now : datetime) (item : FindingIn)
    (res : FindingOut) :
  score_endpoint cfg now item = Ok res ->
  out_id res = id item /\ work_order res = None /\
  out_asset_criticality res = Some (resolve_crit cfg item) /\
  out_exposure res = Some (resolve_expo cfg item) /\
  risk_score res = py_round2 (score_of cfg now item) /\
  risk_level res = level_of (score_of cfg now item).
Proof.
  unfold score_endpoint.
  destruct (calc_score cfg now item) as [r|e] eqn:Hc; cbn [bind]; [|intros X; discriminate X].
  apply calc_score_ok in Hc as (Hs & Hl & Ha & He).
  unfold make_FindingOut. destruct (cvss_ok (cvss item)); [|intros X; discriminate X].
  intros H. inversion H; subst; cbn. rewrite Hs, Hl, Ha, He. auto 10.
Qed.

(** The list [ranked] after the loop. *)
Lemma rank_entries_spec (cfg : Config) (now : datetime)
    (items : list (Z * FindingIn)) (ranked : list (RankKey * FindingOut)) :
  rank_entries cfg now items = Ok ranked ->
  Forall2 (fun it kr => rank_entry cfg now (fst it) (snd it) = Ok kr)
    items ranked.
Proof.
  revert ranked. induction items as [|[idx item] rest IH]; intros ranked H.
  - cbn in H. inversion H. constructor.
  - cbn [rank_entries] in H.
    destruct (rank_entry cfg now idx item) as [t|e] eqn:Ht; cbn [bind] in H;
      [|discriminate].
    destruct (rank_entries cfg now rest) as [ts|e]; cbn [bind] in H;
      [|discriminate].
    inversion H; subst. constructor; [exact Ht|]. apply IH. reflexivity.
Qed.

Lemma rank_entries_total (cfg : Config) (now : datetime)
    (items : list (Z * FindingIn)) :
  Forall (fun it => cvss_ok (cvss (snd it)) = true /\
                    bonus_points_ok cfg (snd it)) items ->
  exists ranked, rank_entries cfg now items = Ok ranked.
Proof.
  induction 1 as [|[idx item] rest [Hv Hb] _ [ts IH]]; cbn [rank_entries].
  - eauto.
  - destruct (rank_entry_total cfg now idx item Hv Hb) as [t ->].
    rewrite IH. cbn [bind]. eauto.
Qed.

(* ================================================================== *)
(** * The score rounded to two decimals *)
(* ================================================================== *)

Local Open Scope Z_scope.

(** The two-decimal digits of a non-negative value, from its units. *)
Lemma scaled_decimal_units (m : positive) (e : Z) :
  -1074 <= e ->
  scaled_decimal 2 m e
  = round_half_even (100 * (Zpos m * 2 ^ (e + 1074))) U1.
Proof.
  intros He. unfold scaled_decimal, U1.
  change (10 ^ Z.of_nat 2) with 100.
  assert (P : 0 < 2 ^ 1074) by (apply pow2_pos; lia).
  destruct (Z.leb_spec 0 e) as [H|H].
  - rewrite Z.pow_add_r by lia.
    replace (100 * (Zpos m * (2 ^ e * 2 ^ 1074)))
      with (Zpos m * 2 ^ e * 100 * 2 ^ 1074) by ring.
    now rewrite round_half_even_int.
  - apply round_half_even_ext; [apply pow2_pos; lia|exact P|].
    replace (2 ^ 1074) with (2 ^ (e + 1074) * 2 ^ (- e)).
    + ring.
    + rewrite <- Z.pow_add_r by lia. f_equal. lia.
Qed.

Lemma py_round2_ord (x : float) :
  finite x -> 0 <= ord x ->
  ordered (py_round2 x) /\
  ord (py_round2 x) = RN (hundredths (ord x) * U1) 100.
Proof.
  intros F P. unfold py_round2, ord, ordered, finite in *.
  pose proof (Prim2SF_valid x) as V.
  pose proof U1_pos as PU.
  destruct (Prim2SF x) as [s | s | | s m e] eqn:E; try discriminate.
  - rewrite E. cbn [SFis_nan SF2Z]. split; [reflexivity|].
    unfold hundredths. cbn [Z.mul].
    replace (round_half_even 0 U1) with 0.
    + now rewrite RN_0.
    + symmetry. apply (round_half_even_int 0 U1 PU).
  - pose proof (finite_U_bounds _ _ _ V) as B.
    apply valid_finite_inv in V as (He & _).
    destruct s; [cbn [SF2Z] in P; lia|]. cbn [SF2Z] in *.
    rewrite scaled_decimal_units by lia. fold (hundredths (Zpos m * 2 ^ (e + 1074))).
    set (n := hundredths (Zpos m * 2 ^ (e + 1074))).
    assert (Hn : 0 <= n).
    { subst n. unfold hundredths.
      pose proof (round_half_even_bounds (100 * (Zpos m * 2 ^ (e + 1074))) U1 PU).
      assert (0 <= 100 * (Zpos m * 2 ^ (e + 1074)) / U1) by (apply Z.div_pos; lia).
      lia. }
    destruct n as [|p|p] eqn:En; [| |lia].
    + rewrite Prim2SF_SF2Prim by reflexivity. cbn [SFis_nan SF2Z].
      split; [reflexivity|]. now rewrite RN_0.
    + destruct (SFdiv_finite_RN false p 100 0 0 ltac:(lia) ltac:(lia)) as (N & Vr & Hr).
      rewrite Prim2SF_SF2Prim by exact Vr. split; [exact N|].
      rewrite Hr. cbn [sign_of]. rewrite Z.mul_1_l.
      change (0 + 1074) with 1074. fold U1.
      apply RN_ext; nia.
Qed.

Lemma hundredths_mono (u1 u2 : Z) :
  u1 <= u2 -> hundredths u1 <= hundredths u2.
Proof.
  intros H. pose proof U1_pos. unfold hundredths.
  apply round_half_even_mono; nia.
Qed.

Lemma hundredths_nonneg (u : Z) : 0 <= u -> 0 <= hundredths u.
Proof.
  intros H. pose proof U1_pos as PU. unfold hundredths.
  pose proof (round_half_even_bounds (100 * u) U1 PU).
  assert (0 <= 100 * u / U1) by (apply Z.div_pos; lia). lia.
Qed.

(** [round(x, 2)] keeps the order of non-negative finite values. *)
Lemma py_round2_mono (x y : float) :
  finite x -> finite y -> 0 <= ord x <= ord y ->
  ordered (py_round2 x) /\ ordered (py_round2 y) /\
  ord (py_round2 x) <= ord (py_round2 y).
Proof.
  intros Fx Fy H. pose proof U1_pos as PU.
  destruct (py_round2_ord x Fx ltac:(lia)) as [Ox Ex].
  destruct (py_round2_ord y Fy ltac:(lia)) as [Oy Ey].
  split; [exact Ox|]. split; [exact Oy|]. rewrite Ex, Ey.
  pose proof (hundredths_mono _ _ (proj2 H)).
  pose proof (hundredths_nonneg (ord x) (proj1 H)).
  apply RN_mono; nia.
Qed.

Lemma score_of_finite (cfg : Config) (now : datetime) (data : FindingIn) :
  finite (score_of cfg now data).
Proof.
  destruct (score_of_range cfg now data) as (O & L & U).
  apply finite_iff. split; [exact O|].
  pose proof U1_pos. pose proof U1_lt_Uinf.
  assert (100 * U1 < Uinf) by (apply Z.ltb_lt; vm_compute; reflexivity).
  lia.
Qed.

Lemma ord_40 : ord 40 = 40 * U1.
Proof. vm_compute. reflexivity. Qed.

Lemma ord_70 : ord 70 = 70 * U1.
Proof. vm_compute. reflexivity. Qed.

Lemma ord_90 : ord 90 = 90 * U1.
Proof. vm_compute. reflexivity. Qed.

(** The rounded score between two marks that rounding leaves alone. *)
Lemma py_round2_between (lo hi s : float) :
  finite lo -> finite hi -> finite s ->
  py_round2 lo = lo -> py_round2 hi = hi ->
  0 <= ord lo <= ord s -> ord s <= ord hi ->
  (lo <=? py_round2 s)%float = true /\ (py_round2 s <=? hi)%float = true.
Proof.
  intros Fl Fh Fs El Eh Hl Hh.
  destruct (py_round2_mono lo s Fl Fs Hl) as (O1 & O2 & L).
  destruct (py_round2_mono s hi Fs Fh ltac:(lia)) as (_ & O3 & U).
  rewrite El in *. rewrite Eh in *.
  split; apply float_leb_iff; auto.
Qed.

Lemma level_of_inv (s : float) :
  (level_of s = "CRITICAL"%string -> (90 <=? s)%float = true) /\
  (level_of s = "HIGH"%string ->
   (70 <=? s)%float = true /\ (90 <=? s)%float = false) /\
  (level_of s = "MEDIUM"%string ->
   (40 <=? s)%float = true /\ (70 <=? s)%float = false) /\
  (level_of s = "LOW"%string -> (40 <=? s)%float = false).
Proof.
  unfold level_of.
  destruct (90 <=? s)%float, (70 <=? s)%float, (40 <=? s)%float;
    (split; [|split; [|split]]); intros X; try discriminate X;
    repeat split; reflexivity.
Qed.

Lemma leb_false_ord (x y : float) :
  ordered x -> ordered y -> (x <=? y)%float = false -> ord y < ord x.
Proof.
  intros Ox Oy H. rewrite leb_ord in H by assumption.
  now apply Z.leb_gt in H.
Qed.

(* ================================================================== *)
(** * Properties of the specification *)
(* ================================================================== *)

Local Open Scope string_scope.

(** ** Tier thresholds *)

(** C1, as stated, fails: the tier is taken from the score before it is
    rounded, so a finding reported with [risk_score = 70.0] can carry the
    tier MEDIUM. *)
Lemma reported_70_can_be_MEDIUM :
  ~ (forall (cfg : Config) (now : datetime) (data : FindingIn)
            (out : FindingOut),
       score_endpoint cfg now data = Ok out ->
       risk_score out = 70%float -> risk_level out = "HIGH").
Proof.
  intros H.
  assert (E : exists out,
             score_endpoint default_config 0 finding_just_below_70 = Ok out /\
             risk_score out = 70%float /\ risk_level out = "MEDIUM").
  { eexists. split; [vm_compute; reflexivity|]. split; reflexivity. }
  destruct E as (out & Hout & Hs & Hl).
  specialize (H _ _ _ _ Hout Hs). rewrite Hl in H. discriminate H.
Qed.

(** The range of the rounded score in each tier. *)
Lemma reported_range_of_level (s : float) :
  ordered s -> (0 <= ord s <= 100 * U1)%Z ->
  ordered (py_round2 s) /\
  (level_of s = "CRITICAL" -> (ord 90 <= ord (py_round2 s))%Z) /\
  (level_of s = "HIGH" -> (ord 70 <= ord (py_round2 s) <= ord 90)%Z) /\
  (level_of s = "MEDIUM" -> (ord 40 <= ord (py_round2 s) <= ord 70)%Z) /\
  (level_of s = "LOW" -> (ord (py_round2 s) <= ord 40)%Z).
Proof.
  intros O [L U].
  assert (F : finite s).
  { apply finite_iff. split; [exact O|].
    assert (100 * U1 < Uinf)%Z by (apply Z.ltb_lt; vm_compute; reflexivity).
    pose proof Uinf_pos. lia. }
  pose proof U1_pos as PU.
  pose proof ord_0 as E0. pose proof ord_40 as E40. pose proof ord_70 as E70.
  pose proof ord_90 as E90. pose proof ord_100 as E100.
  destruct (level_of_inv s) as (HC & HH & HM & HL).
  assert (B : forall lo hi : float,
            finite lo -> finite hi -> py_round2 lo = lo -> py_round2 hi = hi ->
            (0 <= ord lo <= ord s)%Z -> (ord s <= ord hi)%Z ->
            (ord lo <= ord (py_round2 s) <= ord hi)%Z).
  { intros lo hi Fl Fh El Eh Hl Hh.
    destruct (py_round2_between lo hi s Fl Fh F El Eh Hl Hh) as [X Y].
    apply float_leb_iff in X as (_ & _ & X).
    apply float_leb_iff in Y as (_ & _ & Y). lia. }
  split.
  { destruct (py_round2_mono 0 s finite_0 F ltac:(lia)) as (_ & Or & _).
    exact Or. }
  split; [|split; [|split]]; intros X.
  - apply HC in X. apply float_leb_iff in X as (_ & _ & X).
    apply (B 90%float 100%float); try reflexivity; lia.
  - apply HH in X as [X Y]. apply float_leb_iff in X as (_ & _ & X).
    apply leb_false_ord in Y; [|reflexivity|exact O].
    split.
    + apply (B 70%float 100%float); try reflexivity; lia.
    + apply (B 0%float 90%float); try reflexivity; lia.
  - apply HM in X as [X Y]. apply float_leb_iff in X as (_ & _ & X).
    apply leb_false_ord in Y; [|reflexivity|exact O].
    split.
    + apply (B 40%float 100%float); try reflexivity; lia.
    + apply (B 0%float 70%float); try reflexivity; lia.
  - apply HL in X. apply leb_false_ord in X; [|reflexivity|exact O].
    apply (B 0%float 40%float); try reflexivity; lia.
Qed.

(** C1 (amended): the tier is a monotonic step function of the score as
    computed, before rounding, with the fixed thresholds 40, 70 and 90
    inclusive on the lower bound; a score of exactly 70 is HIGH and 69.99
    is MEDIUM.  Of the reported score, rounded to two decimals, the bands
    hold off the three marks: above 90 the tier is CRITICAL, between 70
    and 90 HIGH, between 40 and 70 MEDIUM (so for 69.99), below 40 LOW.  A
    reported 90.00, 70.00 or 40.00 has the tier of its band or the one
    below, and the one below does occur at each mark, as a reported 69.99
    does occur. *)
Theorem tier_is_step_function_of_score :
  (forall (cfg : Config) (now : datetime) (data : FindingIn) (r : Scored),
     calc_score cfg now data = Ok r -> sc_level r = level_of (sc_score r)) /\
  (forall s : float,
     ((90 <=? s)%float = true -> level_of s = "CRITICAL") /\
     ((70 <=? s)%float = true -> (s <? 90)%float = true ->
      level_of s = "HIGH") /\
     ((40 <=? s)%float = true -> (s <? 70)%float = true ->
      level_of s = "MEDIUM") /\
     ((s <? 40)%float = true -> level_of s = "LOW")) /\
  (forall s1 s2 : float,
     (s1 <=? s2)%float = true ->
     exists r1 r2 : Z,
       level_rank_of (level_of s1) = Ok r1 /\
       level_rank_of (level_of s2) = Ok r2 /\ (r2 <= r1)%Z) /\
  level_of 70 = "HIGH" /\ level_of 69.99 = "MEDIUM" /\
  (forall (cfg : Config) (now : datetime) (data : FindingIn)
          (out : FindingOut),
     score_endpoint cfg now data = Ok out ->
     ((90 <? risk_score out)%float = true -> risk_level out = "CRITICAL") /\
     ((70 <? risk_score out)%float = true ->
      (risk_score out <? 90)%float = true -> risk_level out = "HIGH") /\
     ((40 <? risk_score out)%float = true ->
      (risk_score out <? 70)%float = true -> risk_level out = "MEDIUM") /\
     ((risk_score out <? 40)%float = true -> risk_level out = "LOW") /\
     (risk_score out = 69.99%float -> risk_level out = "MEDIUM") /\
     ((risk_score out =? 90)%float = true ->
      risk_level out = "CRITICAL" \/ risk_level out = "HIGH") /\
     ((risk_score out =? 70)%float = true ->
      risk_level out = "HIGH" \/ risk_level out = "MEDIUM") /\
     ((risk_score out =? 40)%float = true ->
      risk_level out = "MEDIUM" \/ risk_level out = "LOW")) /\
  (exists out : FindingOut,
     score_endpoint default_config 0
       (with_known_exploit (with_cvss finding_just_below_70 7.9998) true)
     = Ok out /\
     risk_score out = 90%float /\ risk_level out = "HIGH") /\
  (exists out : FindingOut,
     score_endpoint default_config 0 finding_just_below_70 = Ok out /\
     risk_score out = 70%float /\ risk_level out = "MEDIUM") /\
  (exists out : FindingOut,
     score_endpoint default_config 0 (with_cvss finding_just_below_70 0.9998)
     = Ok out /\
     risk_score out = 40%float /\ risk_level out = "LOW") /\
  (exists out : FindingOut,
     score_endpoint default_config 0 (with_cvss finding_just_below_70 6.998)
     = Ok out /\
     risk_score out = 69.99%float /\ risk_level out = "MEDIUM").
Proof.
  split; [|split; [|split; [|split; [reflexivity|split; [reflexivity|]]]]].
  - intros cfg now data r H.
    apply calc_score_ok in H as (Hs & Hl & _). now rewrite Hl, Hs.
  - intros s. unfold level_of. repeat split.
    + intros ->. reflexivity.
    + intros H70 H90. rewrite H70.
      apply float_ltb_iff in H90 as (Os & O90 & H90).
      destruct (90 <=? s)%float eqn:E; [|reflexivity].
      apply float_leb_iff in E as (_ & _ & E). lia.
    + intros H40 H70. rewrite H40.
      apply float_ltb_iff in H70 as (Os & O70 & H70).
      assert (O90 : ordered 90) by reflexivity.
      assert (L : (ord 70 <= ord 90)%Z) by (apply Z.leb_le; vm_compute; reflexivity).
      destruct (90 <=? s)%float eqn:E.
      { apply float_leb_iff in E as (_ & _ & E). lia. }
      destruct (70 <=? s)%float eqn:E'; [|reflexivity].
      apply float_leb_iff in E' as (_ & _ & E'). lia.
    + intros H40.
      apply float_ltb_iff in H40 as (Os & O40 & H40).
      assert (L1 : (ord 40 <= ord 70)%Z) by (apply Z.leb_le; vm_compute; reflexivity).
      assert (L2 : (ord 70 <= ord 90)%Z) by (apply Z.leb_le; vm_compute; reflexivity).
      destruct (90 <=? s)%float eqn:E.
      { apply float_leb_iff in E as (_ & _ & E). lia. }
      destruct (70 <=? s)%float eqn:E'.
      { apply float_leb_iff in E' as (_ & _ & E'). lia. }
      destruct (40 <=? s)%float eqn:E''; [|reflexivity].
      apply float_leb_iff in E'' as (_ & _ & E''). lia.
  - intros s1 s2 H. exists (tier_rank s1), (tier_rank s2).
    rewrite !level_rank_of_level_of. split; [reflexivity|]. split; [reflexivity|].
    apply float_leb_iff in H as (O1 & O2 & H).
    assert (L1 : (ord 40 <= ord 70)%Z) by (apply Z.leb_le; vm_compute; reflexivity).
    assert (L2 : (ord 70 <= ord 90)%Z) by (apply Z.leb_le; vm_compute; reflexivity).
    unfold tier_rank.
    rewrite !leb_ord by (first [assumption | reflexivity]).
    repeat match goal with
    | |- context [ (?x <=? ?y)%Z ] => destruct (Z.leb_spec x y)
    end; lia.
  - split; [|split; [|split; [|split]]];
      try (eexists; split; [vm_compute; reflexivity|split; reflexivity]).
    intros cfg now data out H.
    apply score_endpoint_fields in H as (_ & _ & _ & _ & -> & ->).
    destruct (score_of_range cfg now data) as (O & R).
    destruct (reported_range_of_level _ O R) as (Or & HC & HH & HM & HL).
    pose proof (level_of_cases (score_of cfg now data)) as Cs.
    set (s := score_of cfg now data) in *.
    pose proof U1_pos as PU.
    pose proof ord_40 as E40. pose proof ord_70 as E70.
    pose proof ord_90 as E90.
    assert (O40 : ordered 40) by reflexivity.
    assert (O70 : ordered 70) by reflexivity.
    assert (O90 : ordered 90) by reflexivity.
    assert (T : forall lo hi : Z,
              (lo <= ord (py_round2 s) <= hi)%Z ->
              (hi < ord 40 -> level_of s = "LOW") /\
              (ord 40 < lo -> hi < ord 70 -> level_of s = "MEDIUM") /\
              (ord 70 < lo -> hi < ord 90 -> level_of s = "HIGH") /\
              (ord 90 < lo -> level_of s = "CRITICAL") /\
              (lo = ord 40 -> hi = ord 40 ->
               level_of s = "MEDIUM" \/ level_of s = "LOW") /\
              (lo = ord 70 -> hi = ord 70 ->
               level_of s = "HIGH" \/ level_of s = "MEDIUM") /\
              (lo = ord 90 -> hi = ord 90 ->
               level_of s = "CRITICAL" \/ level_of s = "HIGH")).
    { intros lo hi B.
      destruct Cs as [C|[C|[C|C]]];
        [specialize (HC C)|specialize (HH C)|specialize (HM C)
        |specialize (HL C)];
        rewrite C; repeat split; intros; try reflexivity;
        try (left; reflexivity); try (right; reflexivity);
        exfalso; lia. }
    split; [|split; [|split; [|split; [|split; [|split; [|split]]]]]].
    + intros X. apply float_ltb_iff in X as (_ & _ & X).
      apply (T (ord (py_round2 s)) (ord (py_round2 s))); lia.
    + intros X Y. apply float_ltb_iff in X as (_ & _ & X).
      apply float_ltb_iff in Y as (_ & _ & Y).
      apply (T (ord (py_round2 s)) (ord (py_round2 s))); lia.
    + intros X Y. apply float_ltb_iff in X as (_ & _ & X).
      apply float_ltb_iff in Y as (_ & _ & Y).
      apply (T (ord (py_round2 s)) (ord (py_round2 s))); lia.
    + intros X. apply float_ltb_iff in X as (_ & _ & X).
      apply (T (ord (py_round2 s)) (ord (py_round2 s))); lia.
    + intros X.
      assert (B1 : (ord 40 <? ord 69.99)%Z = true) by (vm_compute; reflexivity).
      assert (B2 : (ord 69.99 <? ord 70)%Z = true) by (vm_compute; reflexivity).
      apply Z.ltb_lt in B1, B2.
      apply (T (ord (py_round2 s)) (ord (py_round2 s))); rewrite ?X; lia.
    + intros X. apply float_eqb_iff in X as (_ & _ & X).
      apply (T (ord (py_round2 s)) (ord (py_round2 s))); lia.
    + intros X. apply float_eqb_iff in X as (_ & _ & X).
      apply (T (ord (py_round2 s)) (ord (py_round2 s))); lia.
    + intros X. apply float_eqb_iff in X as (_ & _ & X).
      apply (T (ord (py_round2 s)) (ord (py_round2 s))); lia.
Qed.

(** ** Range of the score *)

(** C2: whatever the finding and the configuration, the score that the
    calculator produces lies in [0, 100]; and it produces one whenever the
    bonuses it has to print are finite. *)
Theorem score_within_0_100 (cfg : Config) (now : datetime) (data : FindingIn) :
  (forall r : Scored,
     calc_score cfg now data = Ok r ->
     (0 <=? sc_score r)%float = true /\ (sc_score r <=? 100)%float = true) /\
  (bonus_points_ok cfg data -> exists r, calc_score cfg now data = Ok r).
Proof.
  split; [|apply calc_score_total].
  intros r H. apply calc_score_ok in H as (-> & _).
  destruct (score_of_range cfg now data) as (O & L & U).
  split; apply float_leb_iff.
  - split; [reflexivity|]. split; [exact O|]. rewrite ord_0. exact L.
  - split; [exact O|]. split; [reflexivity|]. rewrite ord_100. exact U.
Qed.

Lemma default_bonus_points_ok (data : FindingIn) :
  bonus_points_ok default_config data.
Proof. split; intros _; reflexivity. Qed.

Lemma score_within_0_100_witness :
  exists r : Scored,
    calc_score default_config 0 finding_just_below_70 = Ok r /\
    (0 <=? sc_score r)%float = true /\ (sc_score r <=? 100)%float = true.
Proof.
  destruct (proj2 (score_within_0_100 default_config 0 finding_just_below_70)
              (default_bonus_points_ok _)) as [r Hr].
  exists r. split; [exact Hr|].
  exact (proj1 (score_within_0_100 default_config 0 finding_just_below_70) r Hr).
Defined.

(** ** Batch ranking *)

Local Open Scope Z_scope.

Lemma numbered_ids (l : list FindingOut) : map out_id (numbered l) = map out_id l.
Proof.
  unfold numbered. generalize 1. induction l as [|o l IH]; intros start; cbn;
    [reflexivity|]. now rewrite IH.
Qed.

Lemma numbered_work_order (l : list FindingOut) :
  map work_order (numbered l) = map Some (Zseq 1 (List.length l)).
Proof.
  unfold numbered. generalize 1. induction l as [|o l IH]; intros start; cbn;
    [reflexivity|]. now rewrite IH.
Qed.

Lemma numbered_length (l : list FindingOut) :
  List.length (numbered l) = List.length l.
Proof. unfold numbered. now rewrite length_map, enumerate_length. Qed.

Lemma score_batch_inv (cfg : Config) (now : datetime) (items : list FindingIn)
    (out : list FindingOut) :
  score_batch cfg now items = Ok out ->
  exists ranked,
    rank_entries cfg now (enumerate 0 items) = Ok ranked /\
    out = numbered (map snd (sort_stable entry_lt ranked)).
Proof.
  unfold score_batch.
  destruct (rank_entries cfg now (enumerate 0 items)) as [ranked|e];
    cbn [bind]; intros H; inversion H. eauto.
Qed.

Lemma Forall2_map_eq {A B C : Type} (R : A -> B -> Prop) (f : A -> C)
    (g : B -> C) (l1 : list A) (l2 : list B) :
  (forall a b, R a b -> f a = g b) -> Forall2 R l1 l2 -> map f l1 = map g l2.
Proof.
  intros H. induction 1; cbn; [reflexivity|]. f_equal; auto.
Qed.

(** The entries of [ranked] before the sort: one per item, in input order,
    holding the item's key and its single-item result. *)
Lemma ranked_entries (cfg : Config) (now : datetime) (items : list FindingIn)
    (ranked : list (RankKey * FindingOut)) :
  rank_entries cfg now (enumerate 0 items) = Ok ranked ->
  Forall2 (fun it kr => fst kr = key_of cfg now (fst it) (snd it) /\
                        score_endpoint cfg now (snd it) = Ok (snd kr))
    (enumerate 0 items) ranked.
Proof.
  intros H. apply rank_entries_spec in H.
  eapply Forall2_impl; [|exact H].
  intros [idx item] [k res] E. cbn [fst snd] in *. now apply rank_entry_ok.
Qed.

(** C3: batch ranking returns as many results as it was given findings,
    their identifiers are a permutation of the input's, and the ranks are 1,
    2, ..., N, each once; it returns whenever every item was accepted. *)
Theorem batch_ranking_is_permutation (cfg : Config) (now : datetime)
    (items : list FindingIn) :
  (forall out : list FindingOut,
     score_batch cfg now items = Ok out ->
     List.length out = List.length items /\
     Permutation (map out_id out) (map id items) /\
     map work_order out = map Some (Zseq 1 (List.length items))) /\
  ((forall data, In data items ->
      cvss_ok (cvss data) = true /\ bonus_points_ok cfg data) ->
   exists out, score_batch cfg now items = Ok out).
Proof.
  split.
  - intros out H.
    destruct (score_batch_inv _ _ _ _ H) as (ranked & Hr & ->).
    pose proof (ranked_entries _ _ _ _ Hr) as HF.
    assert (Hlen : List.length ranked = List.length items).
    { apply Forall2_length in HF. now rewrite enumerate_length in HF. }
    assert (Hsl : List.length (sort_stable entry_lt ranked) = List.length ranked).
    { apply Permutation_length, sort_stable_perm. }
    split; [|split].
    + now rewrite numbered_length, length_map, Hsl.
    + rewrite numbered_ids.
      rewrite (Permutation_map out_id (Permutation_map snd (sort_stable_perm entry_lt ranked))).
      replace (map id items) with (map out_id (map snd ranked)); [reflexivity|].
      rewrite map_map. symmetry.
      rewrite <- (enumerate_snd items 0) at 1. rewrite map_map.
      eapply Forall2_map_eq; [|exact HF].
      intros [idx item] [k res] [_ E]. cbn [fst snd] in *.
      symmetry. now apply score_endpoint_fields in E.
    + now rewrite numbered_work_order, length_map, Hsl, Hlen.
  - intros Hok. unfold score_batch.
    destruct (rank_entries_total cfg now (enumerate 0 items)) as [ranked ->].
    + apply Forall_forall. intros [idx item] Hin. cbn [snd].
      apply Hok. rewrite <- (enumerate_snd items 0).
      apply (in_map snd) in Hin. exact Hin.
    + cbn [bind]. eauto.
Qed.

Lemma example_batch_accepted (data : FindingIn) :
  In data example_batch ->
  cvss_ok (cvss data) = true /\ bonus_points_ok default_config data.
Proof.
  intros [<-|[<-|[]]]; (split; [reflexivity|apply default_bonus_points_ok]).
Qed.

Lemma batch_ranking_is_permutation_witness :
  exists out : list FindingOut,
    score_batch default_config 0 example_batch = Ok out /\
    List.length out = List.length example_batch /\
    Permutation (map out_id out) (map id example_batch) /\
    map work_order out = map Some (Zseq 1 (List.length example_batch)).
Proof.
  destruct (proj2 (batch_ranking_is_permutation default_config 0 example_batch)
              example_batch_accepted) as [out Hout].
  exists out. split; [exact Hout|].
  exact (proj1 (batch_ranking_is_permutation default_config 0 example_batch)
           out Hout).
Defined.

Lemma StronglySorted_impl_In {A : Type} (R R' : A -> A -> Prop) (l : list A) :
  (forall a b, In a l -> In b l -> R a b -> R' a b) ->
  StronglySorted R l -> StronglySorted R' l.
Proof.
  induction l as [|x l IH]; intros H S; [constructor|].
  inversion S as [|? ? S' F]; subst. constructor.
  - apply IH; [|assumption]. intros a b Ha Hb. apply H; now right.
  - rewrite Forall_forall in *. intros y Hy.
    apply H; [now left|now right|]. now apply F.
Qed.

Lemma StronglySorted_before {A : Type} (R : A -> A -> Prop)
    (l1 l2 l3 : list A) (a b : A) :
  StronglySorted R (l1 ++ a :: l2 ++ b :: l3)%list -> R a b.
Proof.
  induction l1 as [|x l1 IH]; cbn; intros S.
  - inversion S as [|? ? _ F]; subst. rewrite Forall_forall in F.
    apply F. apply in_or_app. right. now left.
  - inversion S; subst. now apply IH.
Qed.

(** C4: batch ranking orders the results by the composite key (tier rank
    ascending, then score descending, then actively exploited first, then
    known exploit first, then exposure factor descending, then criticality
    factor descending, then input index); this is a strict total order, the
    sorted list is the only arrangement in that order, and results that tie
    on the first six components keep their input order. *)
Theorem batch_sorted_by_composite_key (cfg : Config) (now : datetime)
    (items : list FindingIn) (out : list FindingOut) :
  score_batch cfg now items = Ok out ->
  (forall a : RankKey, ~ key_before a a) /\
  (forall a b c : RankKey, key_before a b -> key_before b c -> key_before a c) /\
  (forall a b : RankKey,
     key_before a b \/ key_before b a \/ (key_ties a b /\ k_idx a = k_idx b)) /\
  exists ranked : list (RankKey * FindingOut),
    Forall2 (fun it kr => fst kr = key_of cfg now (fst it) (snd it) /\
                          score_endpoint cfg now (snd it) = Ok (snd kr))
      (enumerate 0 items) ranked /\
    exists sorted : list (RankKey * FindingOut),
      Permutation sorted ranked /\
      StronglySorted (fun a b => key_before (fst a) (fst b)) sorted /\
      out = numbered (map snd sorted) /\
      (forall sorted' : list (RankKey * FindingOut),
         Permutation sorted' ranked ->
         StronglySorted (fun a b => key_lt (fst a) (fst b) = true) sorted' ->
         sorted' = sorted) /\
      (forall (l1 l2 l3 : list (RankKey * FindingOut))
              (a b : RankKey * FindingOut),
         sorted = (l1 ++ a :: l2 ++ b :: l3)%list ->
         key_ties (fst a) (fst b) -> k_idx (fst a) < k_idx (fst b)).
Proof.
  intros H.
  split; [|split; [|split]].
  - intros a. unfold key_before, lex_step. lia.
  - intros a b c. unfold key_before, lex_step. lia.
  - intros a b. unfold key_before, key_ties, lex_step. lia.
  - destruct (score_batch_inv _ _ _ _ H) as (ranked & Hr & ->).
    pose proof (ranked_entries _ _ _ _ Hr) as HF.
    exists ranked. split; [exact HF|].
    set (P := fun kr : RankKey * FindingOut => key_ok (fst kr)).
    set (tag := fun kr : RankKey * FindingOut => k_idx (fst kr)).
    assert (HP : Forall P ranked).
    { clear -HF. induction HF as [|[idx item] [k res] l l' [E _] _ IH];
        constructor; [|exact IH].
      unfold P. cbn [fst snd] in *. rewrite E. apply key_of_ok. }
    assert (Htag : map tag ranked = map fst (enumerate 0 items)).
    { symmetry. eapply Forall2_map_eq; [|exact HF].
      intros [idx item] [k res] [E _]. unfold tag. cbn [fst snd] in *.
      rewrite E. reflexivity. }
    assert (Hnd : NoDup (map tag ranked)).
    { rewrite Htag. apply enumerate_fst_NoDup. }
    assert (Htr : forall a b c, P a -> P b -> P c ->
              entry_lt a b = true -> entry_lt b c = true -> entry_lt a c = true).
    { intros a b c. unfold P, entry_lt. apply key_lt_trans. }
    assert (Hto : forall a b, P a -> P b -> tag a <> tag b ->
              entry_lt a b = true \/ entry_lt b a = true).
    { intros a b. unfold P, tag, entry_lt. apply key_lt_total. }
    assert (Hir : forall a, P a -> entry_lt a a = false).
    { intros a. unfold P, entry_lt. apply key_lt_irrefl. }
    pose proof (sort_stable_sorted entry_lt P tag Htr Hto ranked HP Hnd) as HS.
    pose proof (sort_stable_perm entry_lt ranked) as Hperm.
    assert (HPs : Forall P (sort_stable entry_lt ranked)).
    { apply (Permutation_Forall (Permutation_sym Hperm)). exact HP. }
    assert (HSb : StronglySorted (fun a b => key_before (fst a) (fst b))
                    (sort_stable entry_lt ranked)).
    { eapply StronglySorted_impl_In; [|exact HS].
      rewrite Forall_forall in HPs.
      intros a b Ha Hb Hab. apply key_lt_before; [apply HPs|apply HPs|]; assumption. }
    exists (sort_stable entry_lt ranked).
    split; [exact Hperm|]. split; [exact HSb|]. split; [reflexivity|]. split.
    + intros sorted' Hp' HS'.
      apply (sorted_unique entry_lt P Htr Hir); try assumption.
      * apply (Permutation_Forall (Permutation_sym Hp')). exact HP.
      * now rewrite Hp', Hperm.
    + intros l1 l2 l3 a b E Ht. rewrite E in HSb.
      apply StronglySorted_before in HSb.
      unfold key_before, key_ties, lex_step in *. lia.
Qed.

Lemma batch_sorted_by_composite_key_witness :
  exists out : list FindingOut,
    score_batch default_config 0 example_batch = Ok out /\
    exists sorted : list (RankKey * FindingOut),
      StronglySorted (fun a b => key_before (fst a) (fst b)) sorted /\
      out = numbered (map snd sorted).
Proof.
  assert (E : exists out, score_batch default_config 0 example_batch = Ok out)
    by (eexists; vm_compute; reflexivity).
  destruct E as [out E]. exists out. split; [exact E|].
  destruct (batch_sorted_by_composite_key default_config 0 example_batch out E)
    as (_ & _ & _ & ranked & _ & sorted & _ & HS & Ho & _).
  exists sorted. split; assumption.
Defined.

(** ** Monotonicity *)

Lemma CRIT_WEIGHTS_mono (c1 c2 : Crit) :
  Crit_level c1 <= Crit_level c2 ->
  le_nn (CRIT_WEIGHTS c1) (CRIT_WEIGHTS c2).
Proof.
  intros H.
  destruct (CRIT_WEIGHTS_finite c1) as [F1 [P1 _]].
  destruct (CRIT_WEIGHTS_finite c2) as [F2 _].
  split; [now apply finite_ordered|]. split; [now apply finite_ordered|].
  split; [lia|].
  destruct c1, c2; cbn in H; try lia; apply Z.leb_le; vm_compute; reflexivity.
Qed.

Lemma EXPO_WEIGHTS_mono (e1 e2 : Exposure) :
  Exposure_level e1 <= Exposure_level e2 ->
  le_nn (EXPO_WEIGHTS e1) (EXPO_WEIGHTS e2).
Proof.
  intros H.
  destruct (EXPO_WEIGHTS_finite e1) as [F1 [P1 _]].
  destruct (EXPO_WEIGHTS_finite e2) as [F2 _].
  split; [now apply finite_ordered|]. split; [now apply finite_ordered|].
  split; [lia|].
  destruct e1, e2; cbn in H; try lia; apply Z.leb_le; vm_compute; reflexivity.
Qed.

Lemma age_ordered (now : datetime) (data : FindingIn) : ordered (age now data).
Proof.
  unfold age. destruct (years data); [apply py_max_0_spec|apply years_since_ordered].
Qed.

(** One finding is at least as severe as another in every factor. *)
Lemma score_of_mono (cfg : Config) (now : datetime) (d1 d2 : FindingIn) :
  config_nonneg cfg = true ->
  le_nn (clamp (cvss d1 / 10)) (clamp (cvss d2 / 10)) ->
  Crit_level (resolve_crit cfg d1) <= Crit_level (resolve_crit cfg d2) ->
  Exposure_level (resolve_expo cfg d1) <= Exposure_level (resolve_expo cfg d2) ->
  ord (age now d2) <= ord (age now d1) ->
  (has_known_exploit d1 = true -> has_known_exploit d2 = true) ->
  (is_actively_exploited d1 = true -> is_actively_exploited d2 = true) ->
  (score_of cfg now d1 <=? score_of cfg now d2)%float = true.
Proof.
  intros Hc Hcv Hcr Hex Hag Hk Ha.
  apply le_nn_leb. rewrite !score_of_from.
  apply score_from_mono; try assumption.
  - apply clamp_ord.
  - now apply CRIT_WEIGHTS_mono.
  - apply CRIT_WEIGHTS_finite.
  - now apply EXPO_WEIGHTS_mono.
  - apply EXPO_WEIGHTS_finite.
  - apply recency_factor_antitone; try apply age_ordered. exact Hag.
  - apply recency_factor_finite.
Qed.

Lemma cvss_n_le_nn_refl (c : float) : le_nn (clamp (c / 10)) (clamp (c / 10)).
Proof.
  destruct (clamp_ord (c / 10)) as (F & R & _).
  apply le_nn_refl; [now apply finite_ordered|lia].
Qed.

(** C5, as stated, fails: the weights come from the environment unchecked,
    and under a negative weight a higher CVSS lowers the score. *)
Lemma higher_cvss_can_lower_score :
  ~ (forall (cfg : Config) (now : datetime) (data : FindingIn) (c1 c2 : float),
       (c1 <=? c2)%float = true ->
       (score_of cfg now (with_cvss data c1)
        <=? score_of cfg now (with_cvss data c2))%float = true).
Proof.
  intros H.
  specialize (H config_negative_cvss_weight 0 finding_just_below_70
                0%float 10%float eq_refl).
  vm_compute in H. discriminate H.
Qed.

(** C5 (amended): under a configuration whose weights and bonuses are
    finite and not negative, with everything else fixed, the score does not
    decrease when the CVSS increases, when the asset-criticality tier or
    the exposure tier is raised, when the age decreases (a smaller explicit
    [years], or a later publication when [years] is absent), or when an
    exploit flag goes from false to true. *)
Theorem score_monotone (cfg : Config) (now : datetime) (data : FindingIn) :
  config_nonneg cfg = true ->
  (forall c1 c2 : float,
     (c1 <=? c2)%float = true ->
     (score_of cfg now (with_cvss data c1)
      <=? score_of cfg now (with_cvss data c2))%float = true) /\
  (forall k1 k2 : option Crit,
     Crit_level (resolve_crit cfg (with_asset_criticality data k1))
     <= Crit_level (resolve_crit cfg (with_asset_criticality data k2)) ->
     (score_of cfg now (with_asset_criticality data k1)
      <=? score_of cfg now (with_asset_criticality data k2))%float = true) /\
  (forall e1 e2 : option Exposure,
     Exposure_level (resolve_expo cfg (with_exposure data e1))
     <= Exposure_level (resolve_expo cfg (with_exposure data e2)) ->
     (score_of cfg now (with_exposure data e1)
      <=? score_of cfg now (with_exposure data e2))%float = true) /\
  (forall y1 y2 : float,
     (y2 <=? y1)%float = true ->
     (score_of cfg now (with_years data (Some y1))
      <=? score_of cfg now (with_years data (Some y2)))%float = true) /\
  (forall p1 p2 : datetime,
     years data = None -> p1 <= p2 ->
     (score_of cfg now (with_published data p1)
      <=? score_of cfg now (with_published data p2))%float = true) /\
  (score_of cfg now (with_known_exploit data false)
   <=? score_of cfg now (with_known_exploit data true))%float = true /\
  (score_of cfg now (with_actively_exploited data false)
   <=? score_of cfg now (with_actively_exploited data true))%float = true.
Proof.
  intros Hc.
  assert (M : forall d1 d2,
            le_nn (clamp (cvss d1 / 10)) (clamp (cvss d2 / 10)) ->
            Crit_level (resolve_crit cfg d1) <= Crit_level (resolve_crit cfg d2) ->
            Exposure_level (resolve_expo cfg d1)
            <= Exposure_level (resolve_expo cfg d2) ->
            ord (age now d2) <= ord (age now d1) ->
            (has_known_exploit d1 = true -> has_known_exploit d2 = true) ->
            (is_actively_exploited d1 = true ->
             is_actively_exploited d2 = true) ->
            (score_of cfg now d1 <=? score_of cfg now d2)%float = true).
  { intros d1 d2. now apply score_of_mono. }
  repeat split.
  - intros c1 c2 H. apply M; try apply Z.le_refl; try (intros X; exact X).
    now apply cvss_n_mono.
  - intros k1 k2 H. apply M; try apply Z.le_refl; try (intros X; exact X).
    + apply cvss_n_le_nn_refl.
    + exact H.
  - intros e1 e2 H. apply M; try apply Z.le_refl; try (intros X; exact X).
    + apply cvss_n_le_nn_refl.
    + exact H.
  - intros y1 y2 H. apply M; try apply Z.le_refl; try (intros X; exact X).
    + apply cvss_n_le_nn_refl.
    + apply float_leb_iff in H as (O2 & O1 & H).
      destruct (py_max_0_spec y1) as (_ & _ & E1).
      destruct (py_max_0_spec y2) as (_ & _ & E2).
      unfold age; cbn [years with_years]. rewrite E1, E2 by assumption. lia.
  - intros p1 p2 Hy H. apply M; try apply Z.le_refl; try (intros X; exact X).
    + apply cvss_n_le_nn_refl.
    + unfold age; cbn [years published with_published]. rewrite Hy.
      now apply years_since_antitone.
  - apply M; try apply Z.le_refl; try (intros X; exact X).
    + apply cvss_n_le_nn_refl.
    + intros X; discriminate X.
  - apply M; try apply Z.le_refl; try (intros X; exact X).
    + apply cvss_n_le_nn_refl.
    + intros X; discriminate X.
Qed.

Lemma score_monotone_witness :
  (score_of default_config 0%Z (with_cvss finding_just_below_70 5)
   <=? score_of default_config 0%Z (with_cvss finding_just_below_70 7))%float
  = true.
Proof.
  exact (proj1 (score_monotone default_config 0 finding_just_below_70 eq_refl)
           5%float 7%float eq_refl).
Defined.

(** ** The worked scenario *)

Local Open Scope string_scope.

Lemma years_since_same_day (now pub : datetime) :
  (0 <= now - pub < microseconds_per_day)%Z -> years_since now pub = 0%float.
Proof.
  intros H. unfold years_since. rewrite Z.div_small by exact H. reflexivity.
Qed.

(** C6: a finding with CVSS 9.8 on a critical, internet-facing asset,
    published at the evaluation instant and with both exploit flags set,
    scored under the default weights, has base 1.34, which is clamped to
    1.0: the score is 100, printed 100.00, and the tier CRITICAL. *)
Theorem critical_scenario (now : datetime) (data : FindingIn) :
  cvss data = 9.8%float ->
  asset_criticality data = Some critica ->
  exposure data = Some internet ->
  years data = None ->
  (0 <= now - published data < microseconds_per_day)%Z ->
  has_known_exploit data = true ->
  is_actively_exploited data = true ->
  base_score default_config now data = 1.34%float /\
  clamp (base_score default_config now data) = 1%float /\
  exists r : Scored,
    calc_score default_config now data = Ok r /\
    sc_score r = 100%float /\ format_f 2 (sc_score r) = "100.00" /\
    sc_level r = "CRITICAL".
Proof.
  intros Hc Hcr Hex Hy Hp Hk Ha.
  assert (Hage : age now data = 0%float).
  { unfold age. rewrite Hy. now apply years_since_same_day. }
  assert (Hb : base_score default_config now data = 1.34%float).
  { unfold base_score, resolve_crit, resolve_expo.
    rewrite Hc, Hcr, Hex, Hk, Ha, Hage. vm_compute. reflexivity. }
  split; [exact Hb|]. split; [rewrite Hb; reflexivity|].
  unfold calc_score, score_of, resolve_crit, resolve_expo.
  rewrite Hb, Hc, Hcr, Hex, Hk, Ha, Hage.
  eexists. split; [vm_compute; reflexivity|].
  repeat split; reflexivity.
Qed.

Lemma critical_scenario_witness :
  base_score default_config 1730000000000000 critical_finding = 1.34%float /\
  clamp (base_score default_config 1730000000000000 critical_finding) = 1%float /\
  exists r : Scored,
    calc_score default_config 1730000000000000 critical_finding = Ok r /\
    sc_score r = 100%float /\ format_f 2 (sc_score r) = "100.00" /\
    sc_level r = "CRITICAL".
Proof.
  apply (critical_scenario 1730000000000000 critical_finding);
    try reflexivity.
  split; [apply Z.leb_le|apply Z.ltb_lt]; reflexivity.
Defined.

(** ** Determinism *)

(** C7: with an explicit [years], the calculator does not read the clock:
    the same finding under the same configuration gets the same score,
    tier and explanation whenever it is scored. *)
Theorem scoring_is_deterministic_given_years (cfg : Config)
    (now1 now2 : datetime) (data : FindingIn) (y : float) :
  years data = Some y ->
  calc_score cfg now1 data = calc_score cfg now2 data /\
  score_endpoint cfg now1 data = score_endpoint cfg now2 data.
Proof.
  intros Hy.
  assert (Hage : age now1 data = age now2 data).
  { unfold age. rewrite Hy. reflexivity. }
  assert (Hc : calc_score cfg now1 data = calc_score cfg now2 data).
  { unfold calc_score, score_of, base_score. rewrite Hage. reflexivity. }
  split; [exact Hc|]. unfold score_endpoint. rewrite Hc. reflexivity.
Qed.

Lemma scoring_is_deterministic_given_years_witness :
  calc_score default_config 0 finding_just_below_70
  = calc_score default_config 1730000000000000 finding_just_below_70 /\
  score_endpoint default_config 0 finding_just_below_70
  = score_endpoint default_config 1730000000000000 finding_just_below_70.
Proof.
  exact (scoring_is_deterministic_given_years default_config 0
           1730000000000000 finding_just_below_70 10%float eq_refl).
Defined.

(** ** Configuration overrides *)

Lemma Crit_of_value_non_member (s : string) :
  (forall c, Crit_value c <> s) -> Crit_of_value s = Raise ValueError.
Proof.
  intros H. unfold Crit_of_value.
  destruct (String.eqb_spec s "baixa") as [->|_]; [destruct (H baixa); reflexivity|].
  destruct (String.eqb_spec s "media") as [->|_]; [destruct (H media); reflexivity|].
  destruct (String.eqb_spec s "alta") as [->|_]; [destruct (H alta); reflexivity|].
  destruct (String.eqb_spec s "critica") as [->|_]; [destruct (H critica); reflexivity|].
  reflexivity.
Qed.

Lemma Exposure_of_value_non_member (s : string) :
  (forall e, Exposure_value e <> s) -> Exposure_of_value s = Raise ValueError.
Proof.
  intros H. unfold Exposure_of_value.
  destruct (String.eqb_spec s "internet") as [->|_]; [destruct (H internet); reflexivity|].
  destruct (String.eqb_spec s "interna") as [->|_]; [destruct (H interna); reflexivity|].
  destruct (String.eqb_spec s "isolada") as [->|_]; [destruct (H isolada); reflexivity|].
  reflexivity.
Qed.

(** C8: an override that does not parse as a float, or that is no member of
    its enumeration, is replaced by the built-in default.  Reading the
    configuration cannot fail: [load_config] returns a configuration for
    every environment. *)
Theorem invalid_overrides_fall_back (getenv : string -> option string)
    (float_of_str : string -> Result float) :
  (forall (name : string) (default : float) (s : string) (e : PyExc),
     getenv name = Some s -> float_of_str s = Raise e ->
     _env_float getenv float_of_str name default = default) /\
  (forall (name : string) (default : Crit) (s : string),
     getenv name = Some s -> (forall c, Crit_value c <> s) ->
     _env_enum getenv name Crit_of_value default = default) /\
  (forall (name : string) (default : Exposure) (s : string),
     getenv name = Some s -> (forall e, Exposure_value e <> s) ->
     _env_enum getenv name Exposure_of_value default = default) /\
  (forall name : string,
     getenv name = None ->
     (forall default : float,
        _env_float getenv float_of_str name default = default) /\
     (forall default : Crit,
        _env_enum getenv name Crit_of_value default = default) /\
     (forall default : Exposure,
        _env_enum getenv name Exposure_of_value default = default)) /\
  ((forall name, rejected_override getenv float_of_str name) ->
   load_config getenv float_of_str = default_config).
Proof.
  assert (F : forall name default,
            rejected_override getenv float_of_str name ->
            _env_float getenv float_of_str name default = default).
  { intros name default H. unfold _env_float.
    destruct (getenv name) as [s|] eqn:E; [|reflexivity].
    destruct (H s E) as [[e ->] _]. reflexivity. }
  assert (C : forall name default,
            rejected_override getenv float_of_str name ->
            _env_enum getenv name Crit_of_value default = default).
  { intros name default H. unfold _env_enum.
    destruct (getenv name) as [s|] eqn:E; [|reflexivity].
    destruct (H s E) as (_ & Hc & _).
    now rewrite (Crit_of_value_non_member s Hc). }
  assert (X : forall name default,
            rejected_override getenv float_of_str name ->
            _env_enum getenv name Exposure_of_value default = default).
  { intros name default H. unfold _env_enum.
    destruct (getenv name) as [s|] eqn:E; [|reflexivity].
    destruct (H s E) as (_ & _ & Hx).
    now rewrite (Exposure_of_value_non_member s Hx). }
  repeat split.
  - intros name default s e Hs He. unfold _env_float. now rewrite Hs, He.
  - intros name default s Hs Hc. unfold _env_enum.
    now rewrite Hs, (Crit_of_value_non_member s Hc).
  - intros name default s Hs Hx. unfold _env_enum.
    now rewrite Hs, (Exposure_of_value_non_member s Hx).
  - intros default. unfold _env_float. now rewrite H.
  - intros default. unfold _env_enum. now rewrite H.
  - intros default. unfold _env_enum. now rewrite H.
  - intros H. unfold load_config, default_config.
    rewrite !F, C, X by apply H. reflexivity.
Qed.

Lemma invalid_overrides_fall_back_witness :
  _env_float example_environment float_of_decimal_literal "WZ_W_CVSS" 0.50
  = 0.50%float.
Proof.
  exact (proj1 (invalid_overrides_fall_back example_environment
                  float_of_decimal_literal)
           "WZ_W_CVSS" 0.50%float "half" ValueError eq_refl eq_refl).
Defined.

(** ** The compatibility endpoint *)

(** The clock is read only for the age. *)
Lemma calc_score_age (cfg : Config) (now1 now2 : datetime)
    (data : FindingIn) :
  age now1 data = age now2 data ->
  calc_score cfg now1 data = calc_score cfg now2 data.
Proof.
  intros H. unfold calc_score, score_of, base_score. rewrite H. reflexivity.
Qed.

Lemma age_same_day (now1 now2 : datetime) (data : FindingIn) :
  (years data = None ->
   (now1 - published data) / microseconds_per_day
   = (now2 - published data) / microseconds_per_day)%Z ->
  age now1 data = age now2 data.
Proof.
  intros H. unfold age. destruct (years data); [reflexivity|].
  unfold years_since. cbv zeta. now rewrite H.
Qed.

(** The fields of the input that [/score] hands back. *)
Lemma score_endpoint_echo (cfg : Config) (now : datetime) (item : FindingIn)
    (res : FindingOut) :
  score_endpoint cfg now item = Ok res ->
  out_id res = id item /\ out_product res = product item /\
  out_host res = host item /\ out_agent res = agent item /\
  out_cvss res = cvss item /\ out_published res = published item /\
  out_summary res = summary item /\
  out_has_known_exploit res = has_known_exploit item /\
  out_is_actively_exploited res = is_actively_exploited item /\
  out_years res = years item.
Proof.
  unfold score_endpoint.
  destruct (calc_score cfg now item) as [r|e]; cbn [bind];
    [|intros X; discriminate X].
  unfold make_FindingOut. destruct (cvss_ok (cvss item)); intros X;
    inversion X; subst res. cbn. repeat split.
Qed.

(** C9: for a record accepted by both endpoints, [/cve/check] returns what
    [/score] returns for the finding whose twelve fields have the same
    values, field by field, when the two calls see the same age (an
    explicit [years], or clock readings the same whole number of days
    after the publication); the result hands back the fields of the
    record, has the criticality and the exposure resolved, and no
    rank. *)
Theorem cve_check_matches_score (cfg : Config) (now1 now2 : datetime)
    (inp : CVECheckIn) (data : FindingIn) :
  id data = cve_id inp ->
  product data = cve_product inp ->
  host data = cve_host inp ->
  agent data = cve_agent inp ->
  cvss data = cve_cvss inp ->
  published data = cve_published inp ->
  summary data = cve_summary inp ->
  asset_criticality data = cve_asset_criticality inp ->
  has_known_exploit data = cve_has_known_exploit inp ->
  is_actively_exploited data = cve_is_actively_exploited inp ->
  exposure data = cve_exposure inp ->
  years data = cve_years inp ->
  cvss_ok (cve_cvss inp) = true ->
  (cve_years inp = None ->
   (now1 - cve_published inp) / microseconds_per_day
   = (now2 - cve_published inp) / microseconds_per_day)%Z ->
  cve_check_endpoint cfg now1 inp = score_endpoint cfg now2 data /\
  (forall out : FindingOut,
     cve_check_endpoint cfg now1 inp = Ok out ->
     out_id out = cve_id inp /\
     out_product out = cve_product inp /\
     out_host out = cve_host inp /\
     out_agent out = cve_agent inp /\
     out_cvss out = cve_cvss inp /\
     out_published out = cve_published inp /\
     out_summary out = cve_summary inp /\
     out_has_known_exploit out = cve_has_known_exploit inp /\
     out_is_actively_exploited out = cve_is_actively_exploited inp /\
     out_years out = cve_years inp /\
     out_asset_criticality out
     = Some (match cve_asset_criticality inp with
             | Some c => c
             | None => DEFAULT_CRIT cfg
             end) /\
     out_exposure out
     = Some (match cve_exposure inp with
             | Some e => e
             | None => DEFAULT_EXPO cfg
             end) /\
     work_order out = None).
Proof.
  intros E1 E2 E3 E4 E5 E6 E7 E8 E9 E10 E11 E12 Hv Hd.
  assert (Ed : CVECheckIn_fields inp = data).
  { destruct data, inp. cbn in *. subst. reflexivity. }
  assert (Eq : cve_check_endpoint cfg now1 inp = score_endpoint cfg now2 data).
  { unfold cve_check_endpoint, FindingIn_of_CVECheckIn, validate_FindingIn.
    rewrite Ed, E5, Hv. cbn [bind]. unfold score_endpoint.
    rewrite (calc_score_age cfg now1 now2 data); [reflexivity|].
    apply age_same_day. rewrite E12, E6. exact Hd. }
  split; [exact Eq|].
  intros out H. rewrite Eq in H.
  pose proof (score_endpoint_echo _ _ _ _ H)
    as (F1 & F2 & F3 & F4 & F5 & F6 & F7 & F8 & F9 & F10).
  apply score_endpoint_fields in H as (_ & W & C & X & _).
  unfold resolve_crit in C. unfold resolve_expo in X.
  rewrite E8 in C. rewrite E11 in X.
  repeat split; congruence.
Qed.

Lemma cve_check_matches_score_witness :
  cve_check_endpoint default_config 1730000000000000 example_cve_check
  = score_endpoint default_config 1730003600000000 critical_finding.
Proof.
  exact (proj1 (cve_check_matches_score default_config 1730000000000000
                  1730003600000000 example_cve_check critical_finding
                  eq_refl eq_refl eq_refl eq_refl eq_refl eq_refl eq_refl
                  eq_refl eq_refl eq_refl eq_refl eq_refl eq_refl
                  (fun _ => eq_refl))).
Defined.

(** ** A publication date in the future *)

Lemma clamp_nonpositive (x : float) :
  ordered x -> (ord x <= 0)%Z -> clamp x = 0%float.
Proof.
  intros Ox Hx. pose proof U1_pos.
  destruct (clamp_cases x) as [(_ & _ & E) | [(_ & Hp & _) | (Hu & _)]].
  - exact E.
  - lia.
  - specialize (Hu Ox). lia.
Qed.

(** C10: when [years] is absent and the publication lies after the
    evaluation instant, the derived age is negative (only an explicit
    [years] is floored at 0), the recency factor is 1.0, and the score is
    still in [0, 100]. *)
Theorem future_publication_age (cfg : Config) (now : datetime)
    (data : FindingIn) :
  years data = None -> (now < published data)%Z ->
  (age now data <? 0)%float = true /\
  recency_factor (age now data) = 1%float /\
  (0 <=? score_of cfg now data)%float = true /\
  (score_of cfg now data <=? 100)%float = true /\
  (bonus_points_ok cfg data ->
   exists r, calc_score cfg now data = Ok r /\
             sc_score r = score_of cfg now data) /\
  (forall y : float, (0 <=? age now (with_years data (Some y)))%float = true).
Proof.
  intros Hy Hp.
  assert (Ha : age now data = years_since now (published data)).
  { unfold age. now rewrite Hy. }
  pose proof (years_since_ordered now (published data)) as Oa.
  pose proof (years_since_future now (published data) Hp) as Na.
  rewrite <- Ha in Oa, Na.
  destruct (score_of_range cfg now data) as (O & L & U).
  split; [|split; [|split; [|split; [|split]]]].
  - apply float_ltb_iff. split; [exact Oa|]. split; [reflexivity|].
    rewrite ord_0. exact Na.
  - unfold recency_factor.
    assert (P10 : (0 < ord 10)%Z) by (rewrite ord_10; pose proof U1_pos; lia).
    destruct (div_ord_all (age now data) 10 Oa finite_10 P10) as [Oq Eq].
    rewrite (clamp_nonpositive (age now data / 10)); [reflexivity|exact Oq|].
    rewrite Eq. apply quotient_units_sign; [exact P10|lia].
  - apply float_leb_iff. split; [reflexivity|]. split; [exact O|].
    rewrite ord_0. exact L.
  - apply float_leb_iff. split; [exact O|]. split; [reflexivity|].
    rewrite ord_100. exact U.
  - intros Hb. destruct (calc_score_total cfg now data Hb) as [r Hr].
    exists r. split; [exact Hr|]. now apply calc_score_ok in Hr.
  - intros y. unfold age; cbn [years with_years].
    destruct (py_max_0_spec y) as (Om & Pm & _).
    apply float_leb_iff. split; [reflexivity|]. split; [exact Om|].
    rewrite ord_0. exact Pm.
Qed.

Lemma future_publication_age_witness :
  (age 1730000000000000%Z future_finding <? 0)%float = true /\
  recency_factor (age 1730000000000000%Z future_finding) = 1%float.
Proof.
  pose proof (future_publication_age default_config 1730000000000000
                future_finding eq_refl eq_refl) as H.
  exact (conj (proj1 H) (proj1 (proj2 H))).
Defined.
(* ================================================================== *)
(** * Further properties of the code

    What the code shows beyond the specification's statements: the score
    as the endpoints report it, the batch result by result, the values at
    the edges, the configuration, and the dates.

    ** The reported score *)
(* ================================================================== *)

Local Open Scope Z_scope.

(** X1: the [risk_score] that [/score] reports, the score rounded to two
    decimals, is a number from 0 to 100. *)
Theorem reported_score_within_0_100 (cfg : Config) (now : datetime)
    (data : FindingIn) (out : FindingOut) :
  score_endpoint cfg now data = Ok out ->
  (0 <=? risk_score out)%float = true /\
  (risk_score out <=? 100)%float = true.
Proof.
  intros H. apply score_endpoint_fields in H as (_ & _ & _ & _ & -> & _).
  destruct (score_of_range cfg now data) as (O & L & U).
  apply py_round2_between; try reflexivity.
  - apply score_of_finite.
  - rewrite ord_0. lia.
  - now rewrite ord_100.
Qed.

Lemma reported_score_within_0_100_witness :
  exists out : FindingOut,
    score_endpoint default_config 0 finding_just_below_70 = Ok out /\
    (0 <=? risk_score out)%float = true /\
    (risk_score out <=? 100)%float = true.
Proof.
  assert (E : exists out,
             score_endpoint default_config 0 finding_just_below_70 = Ok out)
    by (eexists; vm_compute; reflexivity).
  destruct E as [out H].
  exists out. split; [exact H|].
  exact (reported_score_within_0_100 _ _ _ _ H).
Defined.

(** X2: the reported score of each tier.  The tier is taken before the
    rounding, so a CRITICAL result is reported with a score of at least
    90, a HIGH one from 70 to 90, a MEDIUM one from 40 to 70 and a LOW one
    of at most 40, both ends included. *)
Theorem reported_score_of_tier (cfg : Config) (now : datetime)
    (data : FindingIn) (out : FindingOut) :
  score_endpoint cfg now data = Ok out ->
  (risk_level out = "CRITICAL"%string ->
   (90 <=? risk_score out)%float = true) /\
  (risk_level out = "HIGH"%string ->
   (70 <=? risk_score out)%float = true /\
   (risk_score out <=? 90)%float = true) /\
  (risk_level out = "MEDIUM"%string ->
   (40 <=? risk_score out)%float = true /\
   (risk_score out <=? 70)%float = true) /\
  (risk_level out = "LOW"%string ->
   (risk_score out <=? 40)%float = true).
Proof.
  intros H. apply score_endpoint_fields in H as (_ & _ & _ & _ & -> & ->).
  destruct (score_of_range cfg now data) as (O & L & U).
  pose proof (score_of_finite cfg now data) as F.
  pose proof U1_pos as PU.
  destruct (level_of_inv (score_of cfg now data)) as (HC & HH & HM & HL).
  set (s := score_of cfg now data) in *.
  assert (O40 : ordered 40) by reflexivity.
  assert (O70 : ordered 70) by reflexivity.
  assert (O90 : ordered 90) by reflexivity.
  pose proof ord_0 as E0. pose proof ord_40 as E40. pose proof ord_70 as E70.
  pose proof ord_90 as E90. pose proof ord_100 as E100.
  split; [|split; [|split]]; intros X.
  - apply HC in X. apply float_leb_iff in X as (_ & _ & X).
    apply (py_round2_between 90 100 s); try reflexivity; try assumption; lia.
  - apply HH in X as [X Y]. apply float_leb_iff in X as (_ & _ & X).
    apply leb_false_ord in Y; try assumption.
    split.
    + apply (py_round2_between 70 100 s); try reflexivity; try assumption; lia.
    + apply (py_round2_between 0 90 s); try reflexivity; try assumption; lia.
  - apply HM in X as [X Y]. apply float_leb_iff in X as (_ & _ & X).
    apply leb_false_ord in Y; try assumption.
    split.
    + apply (py_round2_between 40 100 s); try reflexivity; try assumption; lia.
    + apply (py_round2_between 0 70 s); try reflexivity; try assumption; lia.
  - apply HL in X. apply leb_false_ord in X; try assumption.
    apply (py_round2_between 0 40 s); try reflexivity; try assumption; lia.
Qed.

Lemma reported_score_of_tier_witness :
  exists out : FindingOut,
    score_endpoint default_config 0 finding_just_below_70 = Ok out /\
    (risk_level out = "MEDIUM"%string ->
     (40 <=? risk_score out)%float = true /\
     (risk_score out <=? 70)%float = true).
Proof.
  assert (E : exists out,
             score_endpoint default_config 0 finding_just_below_70 = Ok out)
    by (eexists; vm_compute; reflexivity).
  destruct E as [out H].
  exists out. split; [exact H|].
  exact (proj1 (proj2 (proj2 (reported_score_of_tier _ _ _ _ H)))).
Defined.

(* ================================================================== *)
(** * The batch, result by result *)
(* ================================================================== *)

Lemma rank_entries_at_spec (cfg : Config) (clock : Z -> datetime)
    (items : list (Z * FindingIn)) (ranked : list (RankKey * FindingOut)) :
  rank_entries_at cfg clock items = Ok ranked ->
  Forall2 (fun it kr => fst kr = key_of cfg (clock (fst it)) (fst it) (snd it) /\
                        score_endpoint cfg (clock (fst it)) (snd it)
                        = Ok (snd kr))
    items ranked.
Proof.
  revert ranked. induction items as [|[idx item] items IH]; intros ranked;
    cbn [rank_entries_at].
  - intros X. inversion X. constructor.
  - destruct (rank_entry cfg (clock idx) idx item) as [[k res]|e] eqn:E;
      cbn [bind]; [|intros X; discriminate X].
    destruct (rank_entries_at cfg clock items) as [ts|e]; cbn [bind];
      [|intros X; discriminate X].
    intros X. inversion X; subst ranked. constructor; [|now apply IH].
    cbn [fst snd]. now apply rank_entry_ok.
Qed.

(** The sorted list of [score_batch_at]: every entry holds the key and the
    single-item result of one input item, at the clock reading of its
    turn, and the entries are in the order of their keys. *)
Lemma score_batch_at_sorted (cfg : Config) (clock : Z -> datetime)
    (items : list FindingIn) (out : list FindingOut) :
  score_batch_at cfg clock items = Ok out ->
  exists ranked sorted : list (RankKey * FindingOut),
    Forall2 (fun it kr => fst kr = key_of cfg (clock (fst it)) (fst it) (snd it) /\
                          score_endpoint cfg (clock (fst it)) (snd it)
                          = Ok (snd kr))
      (enumerate 0 items) ranked /\
    Permutation sorted ranked /\
    StronglySorted (fun a b => key_before (fst a) (fst b)) sorted /\
    out = numbered (map snd sorted).
Proof.
  unfold score_batch_at.
  destruct (rank_entries_at cfg clock (enumerate 0 items)) as [ranked|e]
    eqn:Hr; cbn [bind]; [|intros X; discriminate X].
  intros X. inversion X; subst out. clear X.
  pose proof (rank_entries_at_spec _ _ _ _ Hr) as HF.
  exists ranked, (sort_stable entry_lt ranked).
  split; [exact HF|].
  set (P := fun kr : RankKey * FindingOut => key_ok (fst kr)).
  set (tag := fun kr : RankKey * FindingOut => k_idx (fst kr)).
  assert (HP : Forall P ranked).
  { clear -HF. induction HF as [|[idx item] [k res] l l' [E _] _ IH];
      constructor; [|exact IH].
    unfold P. cbn [fst snd] in *. rewrite E. apply key_of_ok. }
  assert (Htag : map tag ranked = map fst (enumerate 0 items)).
  { symmetry. eapply Forall2_map_eq; [|exact HF].
    intros [idx item] [k res] [E _]. unfold tag. cbn [fst snd] in *.
    rewrite E. reflexivity. }
  assert (Hnd : NoDup (map tag ranked)).
  { rewrite Htag. apply enumerate_fst_NoDup. }
  assert (Htr : forall a b c, P a -> P b -> P c ->
            entry_lt a b = true -> entry_lt b c = true -> entry_lt a c = true).
  { intros a b c. unfold P, entry_lt. apply key_lt_trans. }
  assert (Hto : forall a b, P a -> P b -> tag a <> tag b ->
            entry_lt a b = true \/ entry_lt b a = true).
  { intros a b. unfold P, tag, entry_lt. apply key_lt_total. }
  pose proof (sort_stable_sorted entry_lt P tag Htr Hto ranked HP Hnd) as HS.
  pose proof (sort_stable_perm entry_lt ranked) as Hperm.
  assert (HPs : Forall P (sort_stable entry_lt ranked)).
  { apply (Permutation_Forall (Permutation_sym Hperm)). exact HP. }
  split; [exact Hperm|]. split; [|reflexivity].
  eapply StronglySorted_impl_In; [|exact HS].
  rewrite Forall_forall in HPs.
  intros a b Ha Hb Hab. apply key_lt_before; [apply HPs|apply HPs|]; assumption.
Qed.

(** The run of the batch in which every turn reads the same instant. *)
Lemma score_batch_shared (cfg : Config) (now : datetime)
    (items : list FindingIn) :
  score_batch cfg now items = score_batch_at cfg (fun _ => now) items.
Proof.
  unfold score_batch, score_batch_at.
  replace (rank_entries_at cfg (fun _ => now) (enumerate 0 items))
    with (rank_entries cfg now (enumerate 0 items)); [reflexivity|].
  generalize (enumerate 0 items). intros l.
  induction l as [|[idx item] l IH]; cbn [rank_entries rank_entries_at];
    [reflexivity|]. now rewrite IH.
Qed.

Lemma score_batch_sorted (cfg : Config) (now : datetime)
    (items : list FindingIn) (out : list FindingOut) :
  score_batch cfg now items = Ok out ->
  exists ranked sorted : list (RankKey * FindingOut),
    Forall2 (fun it kr => fst kr = key_of cfg now (fst it) (snd it) /\
                          score_endpoint cfg now (snd it) = Ok (snd kr))
      (enumerate 0 items) ranked /\
    Permutation sorted ranked /\
    StronglySorted (fun a b => key_before (fst a) (fst b)) sorted /\
    out = numbered (map snd sorted).
Proof.
  rewrite score_batch_shared. apply score_batch_at_sorted.
Qed.

Lemma Forall2_Forall_r {A B : Type} (R : A -> B -> Prop) (l1 : list A)
    (l2 : list B) :
  Forall2 R l1 l2 -> Forall (fun b => exists a, In a l1 /\ R a b) l2.
Proof.
  induction 1 as [|a b l1 l2 Hab _ IH]; constructor.
  - exists a. split; [now left|exact Hab].
  - eapply Forall_impl; [|exact IH].
    intros b' (a' & Hin & HR). exists a'. split; [now right|exact HR].
Qed.

Lemma tier_rank_antitone (s1 s2 : float) :
  ordered s1 -> ordered s2 -> ord s1 <= ord s2 -> tier_rank s2 <= tier_rank s1.
Proof.
  intros O1 O2 H.
  pose proof ord_40 as E40. pose proof ord_70 as E70. pose proof ord_90 as E90.
  pose proof U1_pos.
  unfold tier_rank.
  rewrite !leb_ord by (first [assumption | reflexivity]).
  repeat match goal with
  | |- context [ (?x <=? ?y)%Z ] => destruct (Z.leb_spec x y)
  end; lia.
Qed.

(** Of two entries in key order the first has the higher score, or the
    same. *)
Lemma key_before_score (cfg : Config) (now : datetime) (i j : Z)
    (a b : FindingIn) :
  key_before (key_of cfg now i a) (key_of cfg now j b) ->
  ord (score_of cfg now b) <= ord (score_of cfg now a).
Proof.
  unfold key_before, key_of, lex_step.
  cbn [k_level_rank k_neg_score k_neg_active k_neg_known k_neg_expo
       k_neg_crit k_idx].
  destruct (score_of_range cfg now a) as (Oa & _).
  destruct (score_of_range cfg now b) as (Ob & _).
  rewrite !(proj2 (opp_ord _)).
  intros [H|[H H']].
  - destruct (Z_le_gt_dec (ord (score_of cfg now b)) (ord (score_of cfg now a)))
      as [|G]; [assumption|].
    pose proof (tier_rank_antitone _ _ Oa Ob ltac:(lia)). lia.
  - lia.
Qed.

Lemma numbered_sorted (R : FindingOut -> FindingOut -> Prop)
    (l : list FindingOut) :
  (forall a b i j, R a b -> R (set_work_order a i) (set_work_order b j)) ->
  StronglySorted R l -> StronglySorted R (numbered l).
Proof.
  intros HR. unfold numbered. generalize 1.
  induction l as [|x l IH]; intros start S; cbn; [constructor|].
  inversion S as [|? ? S' F]; subst. constructor; [now apply IH|].
  clear -HR F. revert F. generalize (start + 1).
  induction l as [|y l IH]; intros k F; cbn; constructor.
  - apply HR. now inversion F.
  - apply IH. now inversion F.
Qed.

Lemma StronglySorted_map {A B : Type} (R : B -> B -> Prop) (f : A -> B)
    (l : list A) :
  StronglySorted (fun a b => R (f a) (f b)) l -> StronglySorted R (map f l).
Proof.
  induction 1 as [|a l _ IH F]; cbn; constructor; [exact IH|].
  now apply Forall_map.
Qed.

(** X3: in the result of [/score/batch] the reported scores never
    increase and the tiers never improve from one rank to the next. *)
Theorem batch_scores_descend (cfg : Config) (now : datetime)
    (items : list FindingIn) (out : list FindingOut) :
  score_batch cfg now items = Ok out ->
  StronglySorted ranks_before out.
Proof.
  intros H.
  destruct (score_batch_sorted _ _ _ _ H) as (ranked & sorted & HF & Hp & HS & ->).
  apply numbered_sorted; [intros a b i j X; exact X|].
  apply StronglySorted_map.
  apply Forall2_Forall_r in HF.
  apply (Permutation_Forall (Permutation_sym Hp)) in HF.
  rewrite Forall_forall in HF.
  eapply StronglySorted_impl_In; [|exact HS].
  intros [ka ra] [kb rb] Ha Hb Hab. cbn [fst snd] in *.
  destruct (HF _ Ha) as ([ia da] & _ & Ea & Sa).
  destruct (HF _ Hb) as ([ib db] & _ & Eb & Sb).
  cbn [fst snd] in *. subst ka kb.
  pose proof (key_before_score _ _ _ _ _ _ Hab) as Hs.
  apply score_endpoint_fields in Sa as (_ & _ & _ & _ & Ra & La).
  apply score_endpoint_fields in Sb as (_ & _ & _ & _ & Rb & Lb).
  destruct (score_of_range cfg now da) as (Oa & _).
  destruct (score_of_range cfg now db) as (Ob & Pb & _).
  split.
  - rewrite Ra, Rb.
    destruct (py_round2_mono (score_of cfg now db) (score_of cfg now da))
      as (O1 & O2 & L); try apply score_of_finite; [lia|].
    apply float_leb_iff. auto.
  - exists (tier_rank (score_of cfg now da)), (tier_rank (score_of cfg now db)).
    rewrite La, Lb, !level_rank_of_level_of.
    split; [reflexivity|]. split; [reflexivity|].
    now apply tier_rank_antitone.
Qed.

Lemma batch_scores_descend_witness :
  exists out : list FindingOut,
    score_batch default_config 0 example_batch = Ok out /\
    StronglySorted ranks_before out.
Proof.
  assert (E : exists out, score_batch default_config 0 example_batch = Ok out)
    by (eexists; vm_compute; reflexivity).
  destruct E as [out H].
  exists out. split; [exact H|].
  exact (batch_scores_descend _ _ _ _ H).
Defined.

Lemma numbered_same (l : list FindingOut) :
  Forall2 same_but_work_order (numbered l) l.
Proof.
  unfold numbered. generalize 1.
  induction l as [|o l IH]; intros start; cbn [enumerate map];
    constructor; [|apply IH].
  cbn [fst snd]. unfold same_but_work_order. cbn. repeat split.
Qed.

(** X4: the results of [/score/batch] are the results that [/score] gives
    for the items one by one, each at the clock reading of its turn,
    rearranged; the result at position [k], counted from 1, has
    [work_order = k], and each of its other fifteen fields is the field
    of the single-item result. *)
Theorem batch_results_are_single_scores (cfg : Config)
    (clock : Z -> datetime) (items : list FindingIn)
    (out : list FindingOut) :
  score_batch_at cfg clock items = Ok out ->
  exists singles : list FindingOut,
    Forall2 (fun it o => score_endpoint cfg (clock (fst it)) (snd it) = Ok o)
      (enumerate 0 items) singles /\
    exists sorted : list FindingOut,
      Permutation sorted singles /\
      Forall2 same_but_work_order out sorted /\
      map work_order out = map Some (Zseq 1 (List.length items)).
Proof.
  intros H.
  destruct (score_batch_at_sorted _ _ _ _ H)
    as (ranked & sorted & HF & Hp & _ & ->).
  exists (map snd ranked). split.
  - clear -HF. induction HF as [|a b l m [_ E] _ IH]; cbn; constructor; auto.
  - exists (map snd sorted). split; [now apply Permutation_map|].
    split; [apply numbered_same|].
    rewrite numbered_work_order, length_map.
    rewrite (Permutation_length Hp).
    apply Forall2_length in HF. rewrite enumerate_length in HF.
    now rewrite HF.
Qed.

Lemma batch_results_are_single_scores_witness :
  exists (out singles sorted : list FindingOut),
    score_batch_at default_config (fun idx => idx * microseconds_per_day)
      example_batch = Ok out /\
    Forall2 (fun it o =>
               score_endpoint default_config (fst it * microseconds_per_day)
                 (snd it) = Ok o)
      (enumerate 0 example_batch) singles /\
    Permutation sorted singles /\
    Forall2 same_but_work_order out sorted /\
    map work_order out = [Some 1; Some 2].
Proof.
  assert (E : exists out,
             score_batch_at default_config
               (fun idx => idx * microseconds_per_day) example_batch = Ok out)
    by (eexists; vm_compute; reflexivity).
  destruct E as [out H].
  destruct (batch_results_are_single_scores _ _ _ _ H)
    as (singles & HF & sorted & Hp & Hs & Hw).
  exists out, singles, sorted. repeat split; assumption.
Defined.

(** ** Failure of the batch *)

Lemma rank_entry_raise (cfg : Config) (now : datetime) (idx : Z)
    (item : FindingIn) (e : PyExc) :
  rank_entry cfg now idx item = Raise e <->
  score_endpoint cfg now item = Raise e.
Proof.
  unfold rank_entry, score_endpoint.
  destruct (calc_score cfg now item) as [r|e'] eqn:E; cbn [bind];
    [|split; intros X; inversion X; reflexivity].
  apply calc_score_ok in E as (_ & -> & _).
  rewrite level_rank_of_level_of. cbn [bind].
  destruct (make_FindingOut _ _ _ _ _ _) as [res|e']; cbn [bind].
  - split; intros X; discriminate X.
  - split; intros X; inversion X; reflexivity.
Qed.

Lemma rank_entry_returns (cfg : Config) (now : datetime) (idx : Z)
    (item : FindingIn) :
  (exists kr, rank_entry cfg now idx item = Ok kr) <->
  (exists o, score_endpoint cfg now item = Ok o).
Proof.
  split.
  - intros [[k res] H]. apply rank_entry_ok in H as [_ H]. eauto.
  - intros [o H].
    destruct (rank_entry cfg now idx item) as [kr|e] eqn:E; [eauto|].
    apply rank_entry_raise in E. rewrite E in H. discriminate H.
Qed.

Lemma rank_entries_raise (cfg : Config) (now : datetime) (e : PyExc)
    (items : list FindingIn) (start : Z) :
  rank_entries cfg now (enumerate start items) = Raise e <->
  exists (l1 : list FindingIn) (item : FindingIn) (l2 : list FindingIn),
    items = (l1 ++ item :: l2)%list /\
    Forall (fun d => exists o, score_endpoint cfg now d = Ok o) l1 /\
    score_endpoint cfg now item = Raise e.
Proof.
  revert start. induction items as [|x items IH]; intros start;
    cbn [enumerate rank_entries].
  - split; [intros X; discriminate X|].
    intros (l1 & item & l2 & E & _). destruct l1; discriminate E.
  - destruct (rank_entry cfg now start x) as [t|e'] eqn:Ex; cbn [bind].
    + assert (Hx : exists o, score_endpoint cfg now x = Ok o).
      { apply (rank_entry_returns cfg now start). eauto. }
      destruct (rank_entries cfg now (enumerate (start + 1) items))
        as [ts|e''] eqn:Er; cbn [bind].
      * split; [intros X; discriminate X|].
        intros (l1 & item & l2 & E & Hl & Hi).
        destruct l1 as [|y l1]; cbn in E; inversion E; subst.
        -- destruct Hx as [o Ho]. rewrite Ho in Hi. discriminate Hi.
        -- assert (C : rank_entries cfg now
                         (enumerate (start + 1) (l1 ++ item :: l2)) = Raise e).
           { apply IH. exists l1, item, l2. inversion Hl; subst. auto. }
           rewrite C in Er. discriminate Er.
      * split.
        -- intros X. inversion X; subst e''.
           apply IH in Er as (l1 & item & l2 & -> & Hl & Hi).
           exists (x :: l1), item, l2. repeat split; auto.
        -- intros (l1 & item & l2 & E & Hl & Hi).
           destruct l1 as [|y l1]; cbn in E; inversion E; subst.
           ++ destruct Hx as [o Ho]. rewrite Ho in Hi. discriminate Hi.
           ++ assert (C : rank_entries cfg now
                            (enumerate (start + 1) (l1 ++ item :: l2)) = Raise e).
              { apply IH. exists l1, item, l2. inversion Hl; subst. auto. }
              rewrite C in Er. now inversion Er.
    + apply rank_entry_raise in Ex. split.
      * intros X. inversion X; subst e'.
        exists [], x, items. repeat split; auto.
      * intros (l1 & item & l2 & E & Hl & Hi).
        destruct l1 as [|y l1]; cbn in E; inversion E; subst.
        -- rewrite Ex in Hi. now inversion Hi.
        -- inversion Hl as [|? ? [o Ho] _]; subst.
           rewrite Ex in Ho. discriminate Ho.
Qed.

Lemma py_int_exceptions (x : float) (e : PyExc) :
  py_int x = Raise e -> e = ValueError \/ e = OverflowError.
Proof.
  unfold py_int. destruct (Prim2SF x); intros X; inversion X; auto.
Qed.

Lemma calc_score_exceptions (cfg : Config) (now : datetime) (data : FindingIn)
    (e : PyExc) :
  calc_score cfg now data = Raise e -> e = ValueError \/ e = OverflowError.
Proof.
  unfold calc_score, bonus_sentence.
  destruct (has_known_exploit data).
  - destruct (py_int (B_EXPLOIT cfg * 100)) as [n|e1] eqn:E1; cbn [bind].
    + destruct (is_actively_exploited data); cbn [bind].
      * destruct (py_int (B_ACTIVE cfg * 100)) as [n2|e2] eqn:E2; cbn [bind].
        -- intros X; discriminate X.
        -- intros X; inversion X; subst. eapply py_int_exceptions; eauto.
      * intros X; discriminate X.
    + intros X; inversion X; subst. eapply py_int_exceptions; eauto.
  - cbn [bind]. destruct (is_actively_exploited data); cbn [bind].
    + destruct (py_int (B_ACTIVE cfg * 100)) as [n2|e2] eqn:E2; cbn [bind].
      * intros X; discriminate X.
      * intros X; inversion X; subst. eapply py_int_exceptions; eauto.
    + intros X; discriminate X.
Qed.

Lemma score_endpoint_exceptions (cfg : Config) (now : datetime)
    (data : FindingIn) (e : PyExc) :
  score_endpoint cfg now data = Raise e ->
  e = ValueError \/ e = OverflowError \/ e = ValidationError.
Proof.
  unfold score_endpoint.
  destruct (calc_score cfg now data) as [r|e'] eqn:E; cbn [bind].
  - unfold make_FindingOut. destruct (cvss_ok (cvss data)); intros X;
      inversion X; auto.
  - intros X; inversion X; subst.
    apply calc_score_exceptions in E. tauto.
Qed.

(** X5: [/score/batch] fails exactly when [/score] fails on one of the
    items, and then with the exception of the first such item; it is a
    [ValueError], an [OverflowError] or a [ValidationError], never the
    [KeyError] of the level table. *)
Theorem batch_fails_with_first_failing_item (cfg : Config) (now : datetime)
    (items : list FindingIn) (e : PyExc) :
  (score_batch cfg now items = Raise e <->
   exists (l1 : list FindingIn) (item : FindingIn) (l2 : list FindingIn),
     items = (l1 ++ item :: l2)%list /\
     Forall (fun d => exists o, score_endpoint cfg now d = Ok o) l1 /\
     score_endpoint cfg now item = Raise e) /\
  (score_batch cfg now items = Raise e ->
   e = ValueError \/ e = OverflowError \/ e = ValidationError).
Proof.
  assert (B : score_batch cfg now items = Raise e <->
              rank_entries cfg now (enumerate 0 items) = Raise e).
  { unfold score_batch.
    destruct (rank_entries cfg now (enumerate 0 items)); cbn [bind];
      [|split; intros X; inversion X; reflexivity].
    split; intros X; discriminate X. }
  split.
  - rewrite B. apply rank_entries_raise.
  - intros H. apply B, rank_entries_raise in H as (_ & item & _ & _ & _ & H).
    now apply score_endpoint_exceptions in H.
Qed.

(** ** Independence of the input order *)

Lemma Forall2_perm_r {A B : Type} (Q : A -> B -> Prop) (m' m : list B) :
  Permutation m' m ->
  forall l : list A, Forall2 Q l m ->
  exists l' : list A, Permutation l' l /\ Forall2 Q l' m'.
Proof.
  induction 1 as [|y m' m _ IH|y z m|m1 m2 m3 _ IH1 _ IH2]; intros l HF.
  - inversion HF; subst. exists []. split; constructor.
  - inversion HF as [|x ? l0 ? Hxy HF']; subst.
    destruct (IH l0 HF') as (l' & Hp & HF'').
    exists (x :: l'). split; constructor; assumption.
  - inversion HF as [|x ? l0 ? Hx HF']; subst.
    inversion HF' as [|x' ? l1 ? Hx' HF'']; subst.
    exists (x' :: x :: l1). split; [apply perm_swap|].
    repeat constructor; assumption.
  - destruct (IH2 l HF) as (l2 & Hp2 & HF2).
    destruct (IH1 l2 HF2) as (l1 & Hp1 & HF1).
    exists l1. split; [now transitivity l2|assumption].
Qed.

Lemma StronglySorted_Forall2 {A B : Type} (Q : A -> B -> Prop)
    (Rl : A -> A -> Prop) (Rm : B -> B -> Prop) (l : list A) (m : list B) :
  (forall a b a' b', Q a a' -> Q b b' -> Rm a' b' -> Rl a b) ->
  Forall2 Q l m -> StronglySorted Rm m -> StronglySorted Rl l.
Proof.
  intros H HF. induction HF as [|a a' l m Ha HF IH]; intros S; constructor.
  - apply IH. now inversion S.
  - inversion S as [|? ? _ F]; subst. clear -H Ha HF F.
    induction HF as [|b b' l m Hb _ IH]; constructor.
    + inversion F; subst. eapply H; eauto.
    + apply IH. now inversion F.
Qed.

Lemma StronglySorted_and {A : Type} (R1 R2 : A -> A -> Prop) (l : list A) :
  StronglySorted R1 l -> StronglySorted R2 l ->
  StronglySorted (fun a b => R1 a b /\ R2 a b) l.
Proof.
  induction 1 as [|a l _ IH F1]; intros S2; constructor.
  - apply IH. now inversion S2.
  - inversion S2 as [|? ? _ F2]; subst.
    rewrite Forall_forall in *. auto.
Qed.

Lemma ForallOrdPairs_StronglySorted {A : Type} (R : A -> A -> Prop)
    (l : list A) :
  ForallOrdPairs R l <-> StronglySorted R l.
Proof.
  split; induction 1; constructor; assumption.
Qed.

Lemma ForallOrdPairs_perm {A : Type} (R : A -> A -> Prop) (l l' : list A) :
  (forall a b, R a b -> R b a) ->
  Permutation l l' -> ForallOrdPairs R l -> ForallOrdPairs R l'.
Proof.
  intros Hsym. induction 1 as [|x l l' Hp IH|x y l|l1 l2 l3 _ IH1 _ IH2];
    intros H.
  - constructor.
  - inversion H; subst. constructor; [|auto].
    now apply (Permutation_Forall Hp).
  - inversion H as [|? ? Fy H']; subst. inversion H' as [|? ? Fx H'']; subst.
    inversion Fy; subst. repeat constructor; auto.
  - auto.
Qed.

Lemma ForallOrdPairs_map {A B : Type} (R : B -> B -> Prop) (f : A -> B)
    (l : list A) :
  ForallOrdPairs R (map f l) -> ForallOrdPairs (fun a b => R (f a) (f b)) l.
Proof.
  induction l as [|x l IH]; cbn; intros H; constructor; inversion H; subst.
  - now apply Forall_map.
  - auto.
Qed.

(** The items in the order of the ranking. *)
Lemma score_batch_items (cfg : Config) (now : datetime)
    (items : list FindingIn) (out : list FindingOut) :
  ForallOrdPairs (fun a b => ~ ties cfg now a b) items ->
  score_batch cfg now items = Ok out ->
  exists (S : list FindingIn) (results : list FindingOut),
    Permutation S items /\
    StronglySorted (fun a b => item_lt cfg now a b = true) S /\
    Forall2 (fun d o => score_endpoint cfg now d = Ok o) S results /\
    out = numbered results.
Proof.
  intros HT H.
  destruct (score_batch_sorted _ _ _ _ H) as (ranked & sorted & HF & Hp & HS & ->).
  destruct (Forall2_perm_r _ _ _ Hp _ HF) as (SE & HpE & HFE).
  exists (map snd SE), (map snd sorted).
  assert (HpS : Permutation (map snd SE) items).
  { rewrite <- (enumerate_snd items 0). now apply Permutation_map. }
  split; [exact HpS|]. split; [|split; [|reflexivity]].
  - apply StronglySorted_map.
    assert (S1 : StronglySorted
                   (fun x y => key_before (key_of cfg now (fst x) (snd x))
                                          (key_of cfg now (fst y) (snd y))) SE).
    { eapply StronglySorted_Forall2; [|exact HFE|exact HS].
      intros a b a' b' [Ea _] [Eb _] Hab. cbn beta in Hab.
      now rewrite Ea, Eb in Hab. }
    assert (S2 : StronglySorted (fun x y => ~ ties cfg now (snd x) (snd y)) SE).
    { apply ForallOrdPairs_StronglySorted.
      apply (ForallOrdPairs_map (fun a b => ~ ties cfg now a b) snd).
      eapply ForallOrdPairs_perm; [|symmetry; exact HpS|exact HT].
      intros a b Hab Hba. apply Hab. unfold ties, key_ties in *.
      intuition congruence. }
    eapply StronglySorted_impl_In; [|exact (StronglySorted_and _ _ _ S1 S2)].
    intros [i a] [j b] _ _ [Hb Hn]. cbn [fst snd] in *.
    unfold item_lt. apply key_lt_before; try apply key_of_ok.
    unfold ties, key_ties, key_before, lex_step, key_of in *.
    cbn [k_level_rank k_neg_score k_neg_active k_neg_known k_neg_expo
         k_neg_crit k_idx] in *.
    lia.
  - clear -HFE. induction HFE as [|a b l m [_ E] _ IH]; cbn; constructor; auto.
Qed.

(** With one clock reading for all the turns. *)
Lemma shared_clock_ranking_independent (cfg : Config) (now : datetime)
    (items1 items2 : list FindingIn) (out1 out2 : list FindingOut) :
  Permutation items1 items2 ->
  ForallOrdPairs (fun a b => ~ ties cfg now a b) items1 ->
  score_batch cfg now items1 = Ok out1 ->
  score_batch cfg now items2 = Ok out2 ->
  out1 = out2.
Proof.
  intros Hp HT H1 H2.
  assert (HT2 : ForallOrdPairs (fun a b => ~ ties cfg now a b) items2).
  { eapply ForallOrdPairs_perm; [|exact Hp|exact HT].
    intros a b Hab Hba. apply Hab. unfold ties, key_ties in *.
    intuition congruence. }
  destruct (score_batch_items _ _ _ _ HT H1) as (S1 & r1 & P1 & So1 & F1 & ->).
  destruct (score_batch_items _ _ _ _ HT2 H2) as (S2 & r2 & P2 & So2 & F2 & ->).
  assert (E : S1 = S2).
  { apply (sorted_unique (item_lt cfg now) (fun _ => True)).
    - intros a b c _ _ _. unfold item_lt. apply key_lt_trans; apply key_of_ok.
    - intros a _. unfold item_lt. apply key_lt_irrefl, key_of_ok.
    - apply Forall_forall. auto.
    - rewrite P1, Hp. now symmetry.
    - exact So1.
    - exact So2. }
  subst S2. f_equal.
  clear -F1 F2. revert r2 F2.
  induction F1 as [|d o l m Ho _ IH]; intros r2 F2; inversion F2; subst.
  - reflexivity.
  - f_equal; [congruence|auto].
Qed.

(** The batch at clock readings that do not change any age. *)
Lemma score_batch_at_const_age (cfg : Config) (now0 : datetime)
    (clock : Z -> datetime) (items : list FindingIn) :
  (forall (item : FindingIn) (idx : Z),
     In item items -> age (clock idx) item = age now0 item) ->
  score_batch_at cfg clock items = score_batch cfg now0 items.
Proof.
  intros H. unfold score_batch, score_batch_at.
  replace (rank_entries_at cfg clock (enumerate 0 items))
    with (rank_entries cfg now0 (enumerate 0 items)); [reflexivity|].
  generalize 0. induction items as [|item items IH]; intros start;
    cbn [enumerate rank_entries rank_entries_at]; [reflexivity|].
  rewrite IH by (intros; apply H; now right).
  unfold rank_entry.
  rewrite (calc_score_age cfg (clock start) now0 item); [reflexivity|].
  apply H. now left.
Qed.

(** X6: when no two items tie on tier, score, exploit flags, exposure
    factor and criticality factor, and every item has the same age at
    every clock reading of the two runs (as it has with an explicit
    [years], and without one as long as no reading falls on another whole
    day after its publication), the ranking does not depend on the order
    of the input: a rearranged input gives the same output. *)
Theorem ranking_independent_of_input_order (cfg : Config) (now0 : datetime)
    (clock1 clock2 : Z -> datetime) (items1 items2 : list FindingIn)
    (out1 out2 : list FindingOut) :
  Permutation items1 items2 ->
  (forall (item : FindingIn) (idx : Z),
     In item items1 ->
     age (clock1 idx) item = age now0 item /\
     age (clock2 idx) item = age now0 item) ->
  ForallOrdPairs (fun a b => ~ ties cfg now0 a b) items1 ->
  score_batch_at cfg clock1 items1 = Ok out1 ->
  score_batch_at cfg clock2 items2 = Ok out2 ->
  out1 = out2.
Proof.
  intros Hp Ha HT H1 H2.
  rewrite (score_batch_at_const_age cfg now0) in H1
    by (intros item idx Hin; now apply Ha).
  rewrite (score_batch_at_const_age cfg now0) in H2.
  - exact (shared_clock_ranking_independent cfg now0 items1 items2 out1 out2
             Hp HT H1 H2).
  - intros item idx Hin. apply Ha.
    apply (Permutation_in (l := items2)); [now symmetry|exact Hin].
Qed.

Lemma example_batch_no_ties :
  ForallOrdPairs (fun a b => ~ ties default_config 0 a b) example_batch.
Proof.
  unfold example_batch. repeat constructor.
  intros [H _]. vm_compute in H. discriminate H.
Qed.

Lemma example_batch_ages (item : FindingIn) (idx : Z) :
  In item example_batch ->
  age (idx * microseconds_per_day) item = age 0 item /\
  age (1730000000000000 - idx) item = age 0 item.
Proof.
  intros [<-|[<-|[]]]; split; reflexivity.
Qed.

Lemma ranking_independent_of_input_order_witness :
  exists out : list FindingOut,
    score_batch_at default_config (fun idx => idx * microseconds_per_day)
      example_batch = Ok out /\
    score_batch_at default_config (fun idx => 1730000000000000 - idx)
      (rev example_batch) = Ok out.
Proof.
  assert (E1 : exists out,
             score_batch_at default_config
               (fun idx => idx * microseconds_per_day) example_batch = Ok out)
    by (eexists; vm_compute; reflexivity).
  assert (E2 : exists out,
             score_batch_at default_config
               (fun idx => 1730000000000000 - idx) (rev example_batch)
             = Ok out)
    by (eexists; vm_compute; reflexivity).
  destruct E1 as [out1 H1]. destruct E2 as [out2 H2].
  exists out1. split; [exact H1|].
  rewrite (ranking_independent_of_input_order default_config 0
             (fun idx => idx * microseconds_per_day)
             (fun idx => 1730000000000000 - idx)
             example_batch (rev example_batch) out1 out2
             (Permutation_rev _) example_batch_ages example_batch_no_ties
             H1 H2).
  exact H2.
Defined.

(* ================================================================== *)
(** * Edge values *)
(* ================================================================== *)

Lemma is_nan_ordered (x : float) : is_nan x = true <-> ~ ordered x.
Proof.
  unfold is_nan. rewrite negb_true_iff. split.
  - intros H O. assert (E : (x =? x)%float = true).
    { apply float_eqb_iff. auto. }
    rewrite E in H. discriminate H.
  - intros H. destruct (x =? x)%float eqn:E; [|reflexivity].
    apply float_eqb_iff in E as [O _]. contradiction.
Qed.

Lemma not_ordered_nan (x : float) : ~ ordered x -> Prim2SF x = S754_nan.
Proof.
  unfold ordered. destruct (Prim2SF x); cbn [SFis_nan]; intros H;
    try reflexivity; exfalso; apply H; reflexivity.
Qed.

(** X7: [clamp] with its default bounds: values up to 0 (the negative zero
    included) give 0.0, values strictly between 0 and 1 are returned as
    they are, values from 1 on give 1.0, and so does NaN; the result
    is always between 0 and 1, and clamping twice is clamping once. *)
Theorem clamp_characterised (x : float) :
  ((x <=? 0)%float = true -> clamp x = 0%float) /\
  ((0 <? x)%float = true -> (x <? 1)%float = true -> clamp x = x) /\
  ((1 <=? x)%float = true -> clamp x = 1%float) /\
  (is_nan x = true -> clamp x = 1%float) /\
  clamp (clamp x) = clamp x /\
  (0 <=? clamp x)%float = true /\ (clamp x <=? 1)%float = true.
Proof.
  pose proof U1_pos as PU. pose proof ord_0 as E0. pose proof ord_1 as E1.
  pose proof (clamp_cases x) as C.
  split; [|split; [|split; [|split; [|split; [|split]]]]].
  - intros H. apply float_leb_iff in H as (O & _ & H).
    destruct C as [(_ & _ & E) | [(_ & Hp & _) | (Hu & _)]];
      [exact E|lia|specialize (Hu O); lia].
  - intros H0 H1. unfold clamp, clamp_between, py_max, py_min.
    now rewrite H1, H0.
  - intros H. apply float_leb_iff in H as (_ & O & H).
    destruct C as [(_ & Hn & _) | [(_ & Hp & _) | (_ & E)]];
      [lia|lia|exact E].
  - intros H. apply is_nan_ordered in H.
    destruct C as [(O & _) | [(O & _) | (_ & E)]];
      [contradiction|contradiction|exact E].
  - destruct C as [(_ & _ & E) | [(_ & _ & E) | (_ & E)]]; rewrite E;
      [reflexivity|exact E|reflexivity].
  - destruct (clamp_ord x) as (F & R & _).
    apply float_leb_iff. split; [reflexivity|].
    split; [now apply finite_ordered|lia].
  - destruct (clamp_ord x) as (F & R & _).
    apply float_leb_iff. split; [now apply finite_ordered|].
    split; [reflexivity|lia].
Qed.

(** ** A weight that is NaN *)

Lemma mul_nan_l (x y : float) : ~ ordered x -> ~ ordered (x * y)%float.
Proof.
  intros H O. apply not_ordered_nan in H.
  unfold ordered in O. rewrite mul_spec, H in O.
  destruct (Prim2SF y); discriminate O.
Qed.

Lemma add_nan_l (x y : float) : ~ ordered x -> ~ ordered (x + y)%float.
Proof.
  intros H O. apply not_ordered_nan in H.
  unfold ordered in O. rewrite add_spec, H in O.
  destruct (Prim2SF y); discriminate O.
Qed.

Lemma add_nan_r (x y : float) : ~ ordered y -> ~ ordered (x + y)%float.
Proof.
  intros H O. apply not_ordered_nan in H.
  unfold ordered in O. rewrite add_spec, H in O.
  destruct (Prim2SF x); discriminate O.
Qed.

(** X8: when one of the four weights is NaN, every finding scores 100 and
    is CRITICAL: the weighted sum is NaN, which [clamp] turns into 1.0. *)
Theorem nan_weight_scores_100 (cfg : Config) (now : datetime)
    (data : FindingIn) :
  is_nan (W_CVSS cfg) = true \/ is_nan (W_CRIT cfg) = true \/
  is_nan (W_EXPO cfg) = true \/ is_nan (W_RECENCY cfg) = true ->
  score_of cfg now data = 100%float /\
  level_of (score_of cfg now data) = "CRITICAL"%string /\
  (forall r : Scored,
     calc_score cfg now data = Ok r ->
     sc_score r = 100%float /\ sc_level r = "CRITICAL"%string).
Proof.
  intros H.
  assert (N : ~ ordered (base_score cfg now data)).
  { unfold base_score.
    set (s := (W_CVSS cfg * clamp (cvss data / 10)
               + W_CRIT cfg * CRIT_WEIGHTS (resolve_crit cfg data)
               + W_EXPO cfg * EXPO_WEIGHTS (resolve_expo cfg data)
               + W_RECENCY cfg * recency_factor (age now data))%float).
    assert (Ns : ~ ordered s).
    { subst s. rewrite !is_nan_ordered in H.
      destruct H as [H|[H|[H|H]]].
      - do 3 apply add_nan_l. now apply mul_nan_l.
      - do 2 apply add_nan_l. apply add_nan_r. now apply mul_nan_l.
      - apply add_nan_l, add_nan_r. now apply mul_nan_l.
      - apply add_nan_r. now apply mul_nan_l. }
    clearbody s. cbv zeta.
    destruct (has_known_exploit data), (is_actively_exploited data);
      repeat apply add_nan_l; exact Ns. }
  assert (E : score_of cfg now data = 100%float).
  { unfold score_of.
    destruct (clamp_cases (base_score cfg now data))
      as [(O & _) | [(O & _) | (_ & ->)]];
      [contradiction|contradiction|reflexivity]. }
  split; [exact E|]. split; [rewrite E; reflexivity|].
  intros r Hr. apply calc_score_ok in Hr as (-> & -> & _).
  rewrite E. split; reflexivity.
Qed.

Lemma nan_weight_scores_100_witness :
  score_of config_nan_cvss_weight 0 future_finding = 100%float /\
  level_of (score_of config_nan_cvss_weight 0 future_finding)
  = "CRITICAL"%string.
Proof.
  pose proof (nan_weight_scores_100 config_nan_cvss_weight 0 future_finding
                (or_introl eq_refl)) as H.
  exact (conj (proj1 H) (proj1 (proj2 H))).
Defined.

(** ** The explicit age *)

(** X9: an explicit [years] that is not above 0 (a negative value, a zero
    of either sign, NaN) counts as 0: score, tier and explanation are
    those of [years = 0]. *)
Theorem nonpositive_years_count_as_zero (cfg : Config) (now : datetime)
    (data : FindingIn) (y : float) :
  years data = Some y -> (0 <? y)%float = false ->
  calc_score cfg now data = calc_score cfg now (with_years data (Some 0%float)).
Proof.
  intros Hy H.
  assert (A : age now data = age now (with_years data (Some 0%float))).
  { unfold age. cbn [years with_years]. rewrite Hy. unfold py_max.
    rewrite H. reflexivity. }
  unfold calc_score, score_of, base_score. rewrite A. reflexivity.
Qed.

Lemma nonpositive_years_count_as_zero_witness :
  calc_score default_config 0 (with_years future_finding (Some (-3)%float))
  = calc_score default_config 0
      (with_years (with_years future_finding (Some (-3)%float))
         (Some 0%float)).
Proof.
  exact (nonpositive_years_count_as_zero default_config 0
           (with_years future_finding (Some (-3)%float)) (-3)%float
           eq_refl eq_refl).
Defined.

(** ** The recency factor *)

Lemma ten_tenths : (10 / 10)%float = 1%float.
Proof. reflexivity. Qed.

(** X10: the recency factor lies between 0 and 1, is 1.0 for any age up
    to 0, is 0.0 from age 10 on, and never increases with the age. *)
Theorem recency_factor_shape :
  (forall y : float,
     (0 <=? recency_factor y)%float = true /\
     (recency_factor y <=? 1)%float = true) /\
  (forall y : float, (y <=? 0)%float = true -> recency_factor y = 1%float) /\
  (forall y : float, (10 <=? y)%float = true -> recency_factor y = 0%float) /\
  (forall y1 y2 : float,
     (y1 <=? y2)%float = true ->
     (recency_factor y2 <=? recency_factor y1)%float = true).
Proof.
  pose proof U1_pos as PU. pose proof ord_0 as E0. pose proof ord_1 as E1.
  assert (P10 : 0 < ord 10) by (rewrite ord_10; lia).
  split; [|split; [|split]].
  - intros y. unfold recency_factor.
    destruct (clamp_ord (1 - clamp (y / 10))) as (F & R & _).
    apply finite_ordered in F.
    split; apply float_leb_iff; repeat split; try assumption;
      try reflexivity; lia.
  - intros y H. apply float_leb_iff in H as (O & _ & H).
    unfold recency_factor.
    destruct (div_ord_all y 10 O finite_10 P10) as [Oq Eq].
    rewrite (clamp_nonpositive (y / 10)); [reflexivity|exact Oq|].
    rewrite Eq. apply quotient_units_sign; [exact P10|lia].
  - intros y H. apply float_leb_iff in H as (O10 & O & H).
    unfold recency_factor.
    destruct (div_mono 10 y 10 O10 O H finite_10 P10) as (_ & Oq & L).
    rewrite ten_tenths in L.
    destruct (clamp_cases (y / 10))
      as [(_ & Hn & _) | [(_ & Hp & _) | (_ & ->)]]; [lia|lia|reflexivity].
  - intros y1 y2 H. apply float_leb_iff in H as (O1 & O2 & H).
    apply le_nn_leb. now apply recency_factor_antitone.
Qed.

(* ================================================================== *)
(** * The configuration *)
(* ================================================================== *)

Lemma Crit_of_value_inv (s : string) (c : Crit) :
  Crit_of_value s = Ok c -> Crit_value c = s.
Proof.
  unfold Crit_of_value.
  repeat match goal with
  | |- context [ String.eqb s ?t ] => destruct (String.eqb_spec s t) as [->|_]
  end; intros X; inversion X; reflexivity.
Qed.

Lemma Exposure_of_value_inv (s : string) (e : Exposure) :
  Exposure_of_value s = Ok e -> Exposure_value e = s.
Proof.
  unfold Exposure_of_value.
  repeat match goal with
  | |- context [ String.eqb s ?t ] => destruct (String.eqb_spec s t) as [->|_]
  end; intros X; inversion X; reflexivity.
Qed.

(** X11: the members of [Crit] and [Exposure] and their values determine
    each other, and the two defaults that [/config] reports, given back as
    the overrides [WZ_DEFAULT_CRIT] and [WZ_DEFAULT_EXPO], give the same
    defaults. *)
Theorem enum_defaults_round_trip :
  (forall c : Crit, Crit_of_value (Crit_value c) = Ok c) /\
  (forall e : Exposure, Exposure_of_value (Exposure_value e) = Ok e) /\
  (forall (s : string) (c : Crit),
     Crit_of_value s = Ok c -> Crit_value c = s) /\
  (forall (s : string) (e : Exposure),
     Exposure_of_value s = Ok e -> Exposure_value e = s) /\
  (forall (getenv : string -> option string)
          (float_of_str : string -> Result float) (cfg : Config)
          (s1 s2 : string),
     In ("DEFAULT_CRIT"%string, JString s1) (config cfg) ->
     In ("DEFAULT_EXPO"%string, JString s2) (config cfg) ->
     getenv "WZ_DEFAULT_CRIT"%string = Some s1 ->
     getenv "WZ_DEFAULT_EXPO"%string = Some s2 ->
     DEFAULT_CRIT (load_config getenv float_of_str) = DEFAULT_CRIT cfg /\
     DEFAULT_EXPO (load_config getenv float_of_str) = DEFAULT_EXPO cfg).
Proof.
  split; [intros []; reflexivity|].
  split; [intros []; reflexivity|].
  split; [exact Crit_of_value_inv|].
  split; [exact Exposure_of_value_inv|].
  intros getenv float_of_str cfg s1 s2 H1 H2 G1 G2.
  assert (E1 : s1 = Crit_value (DEFAULT_CRIT cfg)).
  { unfold config in H1. cbn [In] in H1.
    repeat (destruct H1 as [H1|H1]; [inversion H1; try reflexivity|]).
    contradiction. }
  assert (E2 : s2 = Exposure_value (DEFAULT_EXPO cfg)).
  { unfold config in H2. cbn [In] in H2.
    repeat (destruct H2 as [H2|H2]; [inversion H2; try reflexivity|]).
    contradiction. }
  subst s1 s2. unfold load_config, _env_enum.
  cbn [DEFAULT_CRIT DEFAULT_EXPO]. rewrite G1, G2.
  split; [destruct (DEFAULT_CRIT cfg)|destruct (DEFAULT_EXPO cfg)]; reflexivity.
Qed.

(* ================================================================== *)
(** * Scores under the built-in weights *)
(* ================================================================== *)

Lemma score_of_at_least (cfg : Config) (now : datetime) (data : FindingIn)
    (k a : bool) :
  config_nonneg cfg = true ->
  (k = true -> has_known_exploit data = true) ->
  (a = true -> is_actively_exploited data = true) ->
  le_nn (score_from cfg 0 (CRIT_WEIGHTS baixa) (EXPO_WEIGHTS isolada) 0 k a)
        (score_of cfg now data).
Proof.
  intros Hc Hk Ha. rewrite score_of_from.
  destruct (clamp_ord (cvss data / 10)) as (Fc & Rc & _).
  destruct (recency_factor_finite (age now data)) as (Fr & Rr).
  apply score_from_mono; try assumption.
  - split; [reflexivity|]. split; [now apply finite_ordered|].
    rewrite ord_0. lia.
  - apply CRIT_WEIGHTS_mono. destruct (resolve_crit cfg data); cbn; lia.
  - apply CRIT_WEIGHTS_finite.
  - apply EXPO_WEIGHTS_mono. destruct (resolve_expo cfg data); cbn; lia.
  - apply EXPO_WEIGHTS_finite.
  - split; [reflexivity|]. split; [now apply finite_ordered|].
    rewrite ord_0. lia.
Qed.

Lemma score_of_at_most (cfg : Config) (now : datetime) (data : FindingIn)
    (k a : bool) :
  config_nonneg cfg = true ->
  (has_known_exploit data = true -> k = true) ->
  (is_actively_exploited data = true -> a = true) ->
  le_nn (score_of cfg now data)
        (score_from cfg 1 (CRIT_WEIGHTS critica) (EXPO_WEIGHTS internet) 1 k a).
Proof.
  intros Hc Hk Ha. rewrite score_of_from.
  destruct (clamp_ord (cvss data / 10)) as (Fc & Rc & _).
  destruct (recency_factor_finite (age now data)) as (Fr & Rr).
  assert (Ur : ord (recency_factor (age now data)) <= U1).
  { unfold recency_factor. apply clamp_ord. }
  pose proof ord_1 as E1.
  apply score_from_mono; try assumption; try reflexivity.
  - split; [now apply finite_ordered|]. split; [reflexivity|]. lia.
  - apply CRIT_WEIGHTS_mono. destruct (resolve_crit cfg data); cbn; lia.
  - apply EXPO_WEIGHTS_mono. destruct (resolve_expo cfg data); cbn; lia.
  - split; [now apply finite_ordered|]. split; [reflexivity|]. lia.
Qed.

(** X12: under the built-in weights every score is at least 7; it is at
    least 22 with a known exploit, at least 32 with active exploitation,
    and at least 47, hence never LOW, with both; with neither it is at
    most 95. *)
Theorem default_score_bounds (now : datetime) (data : FindingIn) :
  (7 <=? score_of default_config now data)%float = true /\
  (has_known_exploit data = true ->
   (22 <=? score_of default_config now data)%float = true) /\
  (is_actively_exploited data = true ->
   (32 <=? score_of default_config now data)%float = true) /\
  (has_known_exploit data = true -> is_actively_exploited data = true ->
   (47 <=? score_of default_config now data)%float = true /\
   level_of (score_of default_config now data) <> "LOW"%string) /\
  (has_known_exploit data = false -> is_actively_exploited data = false ->
   (score_of default_config now data <=? 95)%float = true /\
   (score_of default_config now data <? 100)%float = true).
Proof.
  assert (Hc : config_nonneg default_config = true) by reflexivity.
  assert (L : forall k a lo,
            (k = true -> has_known_exploit data = true) ->
            (a = true -> is_actively_exploited data = true) ->
            (lo <=? score_from default_config 0 (CRIT_WEIGHTS baixa)
                      (EXPO_WEIGHTS isolada) 0 k a)%float = true ->
            (lo <=? score_of default_config now data)%float = true).
  { intros k a lo Hk Ha Hlo.
    pose proof (score_of_at_least default_config now data k a Hc Hk Ha)
      as (_ & O2 & H).
    apply float_leb_iff in Hlo as (Ol & O1 & Hlo).
    apply float_leb_iff. repeat split; try assumption. lia. }
  split; [|split; [|split; [|split]]].
  - apply (L false false); [intros X; discriminate X..|reflexivity].
  - intros Hk. apply (L true false); [auto|intros X; discriminate X|reflexivity].
  - intros Ha. apply (L false true); [intros X; discriminate X|auto|reflexivity].
  - intros Hk Ha.
    assert (H47 : (47 <=? score_of default_config now data)%float = true).
    { apply (L true true); [auto|auto|reflexivity]. }
    split; [exact H47|]. intros X.
    apply (proj2 (proj2 (proj2 (level_of_inv _)))) in X.
    apply float_leb_iff in H47 as (_ & O & H47).
    apply leb_false_ord in X; [|reflexivity|exact O].
    assert ((ord 40 <=? ord 47) = true) by (vm_compute; reflexivity).
    apply Z.leb_le in H. lia.
  - intros Hk Ha.
    pose proof (score_of_at_most default_config now data false false Hc)
      as (O1 & _ & H).
    { rewrite Hk. intros X; discriminate X. }
    { rewrite Ha. intros X; discriminate X. }
    assert (E : ord (score_from default_config 1 (CRIT_WEIGHTS critica)
                       (EXPO_WEIGHTS internet) 1 false false) = ord 95)
      by reflexivity.
    assert ((ord 95 <? ord 100) = true) by (vm_compute; reflexivity).
    apply Z.ltb_lt in H0.
    split; [apply float_leb_iff|apply float_ltb_iff];
      (split; [exact O1|]); (split; [reflexivity|]); lia.
Qed.

(* ================================================================== *)
(** * When the calculator fails *)
(* ================================================================== *)

Lemma py_int_ok_finite (x : float) (n : Z) : py_int x = Ok n -> finite x.
Proof.
  unfold py_int, finite. destruct (Prim2SF x); intros X;
    try discriminate X; reflexivity.
Qed.

(** X13: [calc_score] returns exactly when the bonus of every flag that
    is set, times 100, is finite; otherwise [int] raises a [ValueError]
    or an [OverflowError], and nothing else is ever raised. *)
Theorem calc_score_returns_iff (cfg : Config) (now : datetime)
    (data : FindingIn) :
  ((exists r : Scored, calc_score cfg now data = Ok r) <->
   (has_known_exploit data = true -> finite (B_EXPLOIT cfg * 100)) /\
   (is_actively_exploited data = true -> finite (B_ACTIVE cfg * 100))) /\
  (forall e : PyExc,
     calc_score cfg now data = Raise e -> e = ValueError \/ e = OverflowError).
Proof.
  split; [|intros e; apply calc_score_exceptions].
  split; [|apply calc_score_total].
  intros [r H]. unfold calc_score, bonus_sentence in H.
  destruct (has_known_exploit data).
  - destruct (py_int (B_EXPLOIT cfg * 100)) as [n|e1] eqn:E1; cbn [bind] in H;
      [|discriminate H].
    split; [intros _; eapply py_int_ok_finite; eauto|].
    destruct (is_actively_exploited data); [|intros X; discriminate X].
    destruct (py_int (B_ACTIVE cfg * 100)) as [n2|e2] eqn:E2; cbn [bind] in H;
      [|discriminate H].
    intros _; eapply py_int_ok_finite; eauto.
  - split; [intros X; discriminate X|]. cbn [bind] in H.
    destruct (is_actively_exploited data); [|intros X; discriminate X].
    destruct (py_int (B_ACTIVE cfg * 100)) as [n2|e2] eqn:E2; cbn [bind] in H;
      [|discriminate H].
    intros _; eapply py_int_ok_finite; eauto.
Qed.

(* ================================================================== *)
(** * The age in whole days *)
(* ================================================================== *)

(** X14: [years_since] counts whole days, rounded down: a publication
    less than a day old has age 0.0, one up to a day ahead has the age of
    a full day in the future, [-1 / 365.25], and the age never decreases
    as the time since the publication grows. *)
Theorem years_since_whole_days :
  (forall now pub : datetime,
     0 <= now - pub < microseconds_per_day ->
     years_since now pub = 0%float) /\
  (forall now pub : datetime,
     - microseconds_per_day <= now - pub < 0 ->
     years_since now pub = (-1 / 365.25)%float) /\
  (forall now1 pub1 now2 pub2 : datetime,
     now1 - pub1 <= now2 - pub2 ->
     (years_since now1 pub1 <=? years_since now2 pub2)%float = true).
Proof.
  split; [exact years_since_same_day|]. split.
  - intros now pub H. unfold years_since.
    replace ((now - pub) / microseconds_per_day) with (-1); [reflexivity|].
    apply (Z.div_unique_pos _ _ _ (now - pub + microseconds_per_day));
      unfold microseconds_per_day in *; lia.
  - intros now1 pub1 now2 pub2 H. unfold years_since.
    assert (Hd : (now1 - pub1) / microseconds_per_day
                 <= (now2 - pub2) / microseconds_per_day).
    { apply Z.div_le_mono; [reflexivity|exact H]. }
    apply float_of_Z_mono in Hd.
    destruct (div_mono _ _ 365.25 (proj1 (float_of_Z_ord _))
                (proj1 (float_of_Z_ord _)) Hd finite_365 (proj1 ord_365))
      as (O1 & O2 & L).
    apply float_leb_iff. auto.
Qed.

(* ================================================================== *)
(** * The score as the explanation prints it *)
(* ================================================================== *)

Lemma round_half_even_unique (N D a : Z) :
  0 < D -> 2 * D * a - D < 2 * N < 2 * D * a + D ->
  round_half_even N D = a.
Proof.
  intros HD H. destruct (round_half_even_spec N D HD) as (B & _).
  cbv zeta in B. nia.
Qed.

(** The binary64 value nearest to [p / 100], for [p] up to 10000, has [p]
    as its two-decimal digits. *)
Lemma hundredths_RN (p : Z) :
  0 < p <= 10000 ->
  0 < RN (p * U1) 100 < Uinf /\ hundredths (RN (p * U1) 100) = p.
Proof.
  intros Hp. pose proof U1_pos as PU.
  set (B := 2 ^ 1029).
  assert (PB : 0 < B) by (apply pow2_pos; lia).
  assert (EU : U1 = B * 2 ^ 45).
  { unfold U1, B. rewrite <- Z.pow_add_r by lia. reflexivity. }
  assert (EI : Uinf = U1 * 2 ^ 1024).
  { unfold U1, Uinf. rewrite <- Z.pow_add_r by lia. reflexivity. }
  assert (P45 : 2 ^ 45 = 35184372088832) by reflexivity.
  assert (P1024 : 2 ^ 10 <= 2 ^ 1024) by (apply pow2_le; lia).
  change (2 ^ 10) with 1024 in P1024.
  set (k := Z.max 0 (Zdigits2 (p * U1 / 100) - 53)).
  assert (Hk : 0 <= k) by (subst k; lia).
  assert (HK : 2 ^ k <= B).
  { unfold B. apply pow2_le. split; [exact Hk|]. subst k.
    assert (Zdigits2 (p * U1 / 100) <= Zdigits2 (2 ^ 1081)).
    { apply Zdigits2_le. split; [apply Z.div_pos; nia|].
      apply Z.div_le_upper_bound; [lia|].
      replace (2 ^ 1081) with (128 * U1).
      - nia.
      - unfold U1. change 128 with (2 ^ 7). rewrite <- Z.pow_add_r by lia.
        reflexivity. }
    rewrite Zdigits2_pow2 in H by lia. lia. }
  assert (PK : 0 < 2 ^ k) by (apply pow2_pos; lia).
  assert (Ern : rnU (p * U1) 100
                = round_half_even (p * U1) (2 ^ k * 100) * 2 ^ k) by reflexivity.
  destruct (round_half_even_spec (p * U1) (2 ^ k * 100) ltac:(lia)) as (S & _).
  cbv zeta in S.
  set (q := round_half_even (p * U1) (2 ^ k * 100)) in *.
  set (K := 2 ^ k) in *. set (X := p * U1) in *.
  assert (HX : U1 <= X <= 10000 * U1) by (subst X; nia).
  set (w := q * K) in *.
  assert (Sw : 200 * w - 100 * K <= 2 * X <= 200 * w + 100 * K)
    by (subst w; lia).
  assert (Hw : 0 < w < Uinf) by lia.
  assert (ER : RN X 100 = w).
  { unfold RN. rewrite Ern. apply Z.min_r. lia. }
  rewrite ER. split; [exact Hw|].
  unfold hundredths. apply round_half_even_unique; [exact PU|].
  subst X. lia.
Qed.

(** Printing the rounded score to two decimals prints the score to two
    decimals. *)
Lemma format_round2 (s : float) :
  finite s -> 0 <= ord s <= 100 * U1 ->
  format_f 2 (py_round2 s) = format_f 2 s.
Proof.
  intros F R. pose proof U1_pos as PU.
  unfold py_round2, format_f, finite, ord in *.
  pose proof (Prim2SF_valid s) as V.
  destruct (Prim2SF s) as [sg | sg | | sg m e] eqn:E; try discriminate.
  - rewrite E. reflexivity.
  - destruct sg.
    { pose proof (finite_U_bounds _ _ _ V). cbn [SF2Z] in R. lia. }
    pose proof (finite_U_bounds _ _ _ V) as Bm.
    apply valid_finite_inv in V as (He & _). cbn [SF2Z] in R.
    rewrite scaled_decimal_units by lia.
    fold (hundredths (Zpos m * 2 ^ (e + 1074))).
    assert (Hn : 0 <= hundredths (Zpos m * 2 ^ (e + 1074)) <= 10000).
    { split; [apply hundredths_nonneg; lia|].
      replace 10000 with (hundredths (100 * U1)).
      - apply hundredths_mono. lia.
      - unfold hundredths.
        replace (100 * (100 * U1)) with (10000 * U1) by ring.
        now apply round_half_even_int. }
    destruct (hundredths (Zpos m * 2 ^ (e + 1074))) as [|p|p] eqn:En;
      [| |lia].
    + rewrite Prim2SF_SF2Prim by reflexivity. reflexivity.
    + destruct (SFdiv_finite_RN false p 100 0 0 ltac:(lia) ltac:(lia))
        as (N & Vr & Hr).
      rewrite Prim2SF_SF2Prim by exact Vr.
      assert (Hv : SF2Z (SF64div (S754_finite false p 0)
                           (S754_finite false 100 0))
                   = RN (Zpos p * U1) 100).
      { rewrite Hr. cbn [sign_of]. rewrite Z.mul_1_l.
        change (2 ^ (0 + 1074)) with U1. change (2 ^ 1074) with U1.
        apply RN_ext; nia. }
      clear Hr. rename Hv into Hr.
      destruct (hundredths_RN (Zpos p) ltac:(lia)) as (Bv & Ev).
      pose proof Uinf_pos as PI.
      destruct (SF64div (S754_finite false p 0) (S754_finite false 100 0))
        as [sg' | sg' | | sg' m' e'] eqn:Ed; cbn [SF2Z SFis_nan] in *;
        try discriminate N; try lia.
      * destruct sg'; lia.
      * pose proof (finite_U_bounds _ _ _ Vr) as Bm'.
        destruct sg'; [lia|].
        apply valid_finite_inv in Vr as (He' & _).
        rewrite scaled_decimal_units by lia.
        fold (hundredths (Zpos m' * 2 ^ (e' + 1074))).
        rewrite Hr, Ev. reflexivity.
Qed.

Lemma string_append_assoc (a b c : string) :
  ((a ++ b) ++ c = a ++ b ++ c)%string.
Proof.
  induction a as [|x a IH]; cbn; [reflexivity|]. now rewrite IH.
Qed.

Lemma join_space_append (l : list string) (x : string) :
  l <> [] -> join_space (list_append l x) = (join_space l ++ " " ++ x)%string.
Proof.
  unfold list_append. induction l as [|a l IH]; intros H; [contradiction|].
  destruct l as [|b l].
  - reflexivity.
  - change (join_space (((a :: b :: l) ++ [x])%list))
      with (a ++ " " ++ join_space (((b :: l) ++ [x])%list))%string.
    rewrite IH by discriminate.
    change (join_space (a :: b :: l))
      with (a ++ " " ++ join_space (b :: l))%string.
    now rewrite !string_append_assoc.
Qed.

Lemma calc_score_explanation (cfg : Config) (now : datetime)
    (data : FindingIn) (r : Scored) :
  calc_score cfg now data = Ok r ->
  exists prefix : string,
    sc_explanation r
    = (prefix ++ " Score final: " ++ format_f 2 (sc_score r)
         ++ " → nível " ++ sc_level r ++ ".")%string.
Proof.
  unfold calc_score.
  set (e0 := [_; _; _; _]).
  destruct (if has_known_exploit data then _ else Ok e0) as [e1|x] eqn:E1;
    cbn [bind]; [|intros X; discriminate X].
  assert (N1 : e1 <> []).
  { destruct (has_known_exploit data).
    - destruct (bonus_sentence _ (B_EXPLOIT cfg)); cbn [bind] in E1;
        inversion E1.
      unfold list_append. subst e0. discriminate.
    - inversion E1. subst e0. discriminate. }
  destruct (if is_actively_exploited data then _ else Ok e1) as [e2|x] eqn:E2;
    cbn [bind]; [|intros X; discriminate X].
  assert (N2 : e2 <> []).
  { destruct (is_actively_exploited data).
    - destruct (bonus_sentence _ (B_ACTIVE cfg)); cbn [bind] in E2;
        inversion E2.
      unfold list_append. destruct e1; [contradiction|discriminate].
    - inversion E2. now subst e2. }
  intros X. inversion X; subst r. cbn [sc_explanation sc_score sc_level].
  exists (join_space e2). now rewrite join_space_append.
Qed.

(** X15: the explanation that [/score] returns ends with the sentence
    that gives the reported score, printed to two decimals, and the
    reported tier. *)
Theorem explanation_ends_with_reported_score (cfg : Config) (now : datetime)
    (data : FindingIn) (out : FindingOut) :
  score_endpoint cfg now data = Ok out ->
  exists prefix : string,
    explanation out
    = (prefix ++ " Score final: " ++ format_f 2 (risk_score out)
         ++ " → nível " ++ risk_level out ++ ".")%string.
Proof.
  unfold score_endpoint.
  destruct (calc_score cfg now data) as [r|e] eqn:E; cbn [bind];
    [|intros X; discriminate X].
  destruct (calc_score_explanation _ _ _ _ E) as [prefix Hp].
  apply calc_score_ok in E as (Es & _).
  unfold make_FindingOut. destruct (cvss_ok (cvss data));
    intros X; inversion X; subst out. cbn [explanation risk_score risk_level].
  exists prefix. rewrite Hp, Es.
  destruct (score_of_range cfg now data) as (O & L & U).
  rewrite format_round2; [reflexivity|apply score_of_finite|lia].
Qed.

Lemma explanation_ends_with_reported_score_witness :
  exists (out : FindingOut) (prefix : string),
    score_endpoint default_config 0 finding_just_below_70 = Ok out /\
    explanation out
    = (prefix ++ " Score final: " ++ format_f 2 (risk_score out)
         ++ " → nível " ++ risk_level out ++ ".")%string.
Proof.
  assert (E : exists out,
             score_endpoint default_config 0 finding_just_below_70 = Ok out)
    by (eexists; vm_compute; reflexivity).
  destruct E as [out H].
  destruct (explanation_ends_with_reported_score _ _ _ _ H) as [prefix Hp].
  exists out, prefix. auto.
Defined.

(* ================================================================== *)
(** * Publication dates with and without a time zone *)
(* ================================================================== *)

(** X16: the validator [force_tz] makes every publication date aware: it
    leaves an aware value as it is, reads a naive one as UTC, does nothing
    when applied again, and after it the subtraction in [years_since]
    cannot fail; on a naive value it would. *)
Theorem force_tz_makes_aware :
  (forall v : DateTime, exists o : Z, dt_utcoffset (force_tz v) = Some o) /\
  (forall (v : DateTime) (o : Z),
     dt_utcoffset v = Some o -> force_tz v = v) /\
  (forall v : DateTime, force_tz (force_tz v) = force_tz v) /\
  (forall v : DateTime, instant (force_tz v) = instant v) /\
  (forall (now : Z) (v : DateTime),
     years_since_dt now (force_tz v) = Some (years_since now (instant v))) /\
  (forall (now : Z) (v : DateTime),
     dt_utcoffset v = None -> years_since_dt now v = None).
Proof.
  repeat split.
  - intros [w [o|]]; cbn; eauto.
  - intros [w [o'|]] o H; [reflexivity|discriminate H].
  - intros [w [o|]]; reflexivity.
  - intros [w [o|]]; cbn; [reflexivity|lia].
  - intros now [w [o|]]; unfold years_since_dt, years_since, force_tz,
      datetime_sub, instant, utc_now; cbn [dt_wall dt_utcoffset];
      repeat f_equal; lia.
  - intros now [w [o|]] H; [discriminate H|reflexivity].
Qed.
